(** * vitis_quantize_ops: fake-quantization kernels, position search and
      the mode state machine of the Vitis-AI TensorFlow 2 quantizer.

    The development embeds [vitis_quantize_ops.py] over exact rational
    arithmetic: a tensor element is a [Q], so every rounding, clipping and
    comparison of the source is computed without representation error.
    Pointwise TensorFlow operations are rank polymorphic; the functions of the
    source that are purely pointwise ([std_round], the quantize kernels,
    [quantize_zero_point], ...) are written on one element, and are applied to
    whole tensors through the broadcasting combinators of module [Tensors]. *)

From Stdlib Require Import String.
From Stdlib Require Import QArith Qround Qpower Qabs Qminmax.
From Stdlib Require Import Reals Qreals Psatz.
From Stdlib Require Import ZArith Lia List Bool.
Import ListNotations.

Local Open Scope Q_scope.

(** ** Host primitives on one element *)

Module TF.

(** Strict comparison as a boolean, [x < y]. *)
Definition Qltb (x y : Q) : bool := negb (Qle_bool y x).

(** [tf.math.floor] and [tf.math.ceil]. *)
Definition floor (x : Q) : Q := inject_Z (Qfloor x).
Definition ceil (x : Q) : Q := inject_Z (Qceiling x).

(** [tf.math.round]: round to nearest, a tie goes to the even integer. *)
Definition round (x : Q) : Q :=
  let f := Qfloor x in
  let r := x - inject_Z f in
  if Qltb r (1 # 2) then inject_Z f
  else if Qltb (1 # 2) r then inject_Z (f + 1)
  else if Z.even f then inject_Z f else inject_Z (f + 1).

(** [tf.clip_by_value t lo hi] is [maximum (minimum t hi) lo]. *)
Definition clip_by_value (t lo hi : Q) : Q := Qmax (Qmin t hi) lo.

(** [tf.math.pow 2.0 p] for an integer-valued exponent [p]; quantize
    positions are always produced by [tf.math.floor]. *)
Definition pow2 (p : Q) : Q := 2 ^ Qfloor p.

(** [sys.float_info.epsilon], the double precision machine epsilon. *)
Definition epsilon : Q := 1 # (2 ^ 52).

(** [tf.math.floor (- tf.math.log x / tf.math.log 2.0)], computed exactly
    on a positive rational [n # d]: the greatest [p] with [2 ^ p * x <= 1].
    The logarithm of a non-positive number is not a number; the source
    only takes it after [tf.math.maximum _ epsilon]. *)
Definition floor_neg_log2 (x : Q) : Z :=
  let n := Qnum x in
  let d := Zpos (Qden x) in
  if (n <=? 0)%Z then 0%Z
  else if (n <=? d)%Z then Z.log2 (d / n)
  else (- Z.log2_up ((n + d - 1) / d))%Z.

(** [tf.math.log 2.0] in single precision, the bit pattern 0x3F317218. *)
Definition ln2 : Q := 11629080 # 16777216.

End TF.

(** The module-level flag of line 32. *)
Definition narrow_range : bool := false.

(** ** Rounding strategies (lines 35-67) *)

(** ROUND_HALF_AWAY_FROM_ZERO. *)
Definition std_round (x : Q) : Q :=
  let floored := TF.floor x in
  let ceiled := TF.ceil x in
  let rounded := TF.round x in
  let rounded_half := if TF.Qltb 0 x then ceiled else floored in
  let rounded := if Qeq_bool (x - floored) (1 # 2) then rounded_half else rounded in
  rounded.

(** ROUND_HALF_TO_EVEN. *)
Definition py3_round (x : Q) : Q :=
  let rounded := TF.round x in
  rounded.

(** ROUND_HALF_UP. *)
Definition dpu_round (x : Q) : Q :=
  let rounded := TF.floor (x + (1 # 2)) in
  rounded.

(** ** Quantize and dequantize kernels on one element (lines 70-135) *)

Definition py3_asym_quantize (inputs scale shift q_min q_max : Q) : Q :=
  let rounded := py3_round ((inputs - shift) * scale) in
  let quantized := TF.clip_by_value (q_min + rounded) q_min q_max in
  quantized.

Definition dpu_asym_quantize (inputs scale shift q_min q_max : Q) : Q :=
  let rounded := dpu_round ((inputs - shift) * scale) in
  let quantized := TF.clip_by_value (q_min + rounded) q_min q_max in
  quantized.

Definition py3_sym_quantize (inputs scale q_min q_max : Q) : Q :=
  let rounded := py3_round (inputs * scale) in
  let quantized := TF.clip_by_value rounded q_min q_max in
  quantized.

Definition dpu_sym_quantize (inputs scale q_min q_max : Q) : Q :=
  let rounded := dpu_round (inputs * scale) in
  let quantized := TF.clip_by_value rounded q_min q_max in
  quantized.

Definition asym_dequantize (inputs scale shift q_min q_max : Q) : Q :=
  (inputs - q_min) / scale + shift.

Definition sym_dequantize (inputs scale q_min q_max : Q) : Q :=
  inputs / scale.

(** The zero point and the float bounds it induces. *)
Definition quantize_zero_point (scale f_min f_max q_min q_max : Q) : Q * Q * Q :=
  let f_zero_point := q_min - f_min * scale in
  let below_min := TF.Qltb f_zero_point q_min in
  let above_max := TF.Qltb q_max f_zero_point in
  let q_zero_point := std_round f_zero_point in
  let q_zero_point := if below_min then q_min else q_zero_point in
  let q_zero_point := if above_max then q_max else q_zero_point in
  let new_f_min := (q_min - q_zero_point) / scale in
  let new_f_max := (q_max - q_zero_point) / scale in
  (q_zero_point, new_f_min, new_f_max).

Definition get_scale (f_min f_max q_min q_max : Q) : Q :=
  (q_max - q_min) / (f_max - f_min).

(** The integer bounds [(q_min, q_max)] that every kernel, [get_quantize_pos]
    and [get_log_th] derive from [bit_width] with the same five lines. A bit
    width is a natural number: Python rejects the shift [1 << bit_width] of
    [get_min_max] for a negative one. *)
Definition q_bounds (bit_width : N) : Q * Q :=
  let bound := 2 ^ (Z.of_N bit_width - 1)%Z in
  let q_min := - bound in
  let q_min := if narrow_range then q_min + 1 else q_min in
  let q_max := bound - 1 in
  (q_min, q_max).

(** ** Tensors with broadcasting *)

Module Tensors.

(** A dense tensor: its shape and its elements in row-major order. *)
Record Tensor : Type := mkTensor { shape : list nat; data : list Q }.

Definition scalar (x : Q) : Tensor := mkTensor [] [x].
Definition vec (l : list Q) : Tensor := mkTensor [length l] l.

(** Flat index, in a tensor of reversed shape [rst], of the element that
    broadcasting pairs with flat index [k] of a tensor of reversed shape
    [rin]: an axis of extent 1 (or a missing leading axis) is repeated. *)
Fixpoint bidx (rin rst : list nat) (k : nat) : nat :=
  match rin, rst with
  | d :: rin', s :: rst' =>
      ((if s =? 1 then 0 else k mod d) + s * bidx rin' rst' (k / d))%nat
  | _, _ => 0%nat
  end.

(** Element [k] of [t] once [t] is broadcast to shape [sh]. *)
Definition bget (t : Tensor) (sh : list nat) (k : nat) : Q :=
  nth (bidx (rev sh) (rev (shape t)) k) (data t) 0.

Definition indices (t : Tensor) : list nat := seq 0 (length (data t)).

(** Pointwise operations; the result has the shape of the first operand,
    the others are broadcast against it. *)
Definition tmap (f : Q -> Q) (a : Tensor) : Tensor :=
  mkTensor (shape a) (map f (data a)).

Definition tmap2 (f : Q -> Q -> Q) (a b : Tensor) : Tensor :=
  mkTensor (shape a)
    (map (fun k => f (nth k (data a) 0) (bget b (shape a) k)) (indices a)).

Definition tmap3 (f : Q -> Q -> Q -> Q) (a b c : Tensor) : Tensor :=
  mkTensor (shape a)
    (map (fun k => f (nth k (data a) 0) (bget b (shape a) k) (bget c (shape a) k))
         (indices a)).

Definition tmap4 (f : Q -> Q -> Q -> Q -> Q) (a b c d : Tensor) : Tensor :=
  mkTensor (shape a)
    (map (fun k => f (nth k (data a) 0) (bget b (shape a) k)
                     (bget c (shape a) k) (bget d (shape a) k))
         (indices a)).

(** Reduction of a list of elements. TensorFlow reduces an empty slice to
    the identity of the operation (an infinity for min and max), which has
    no rational counterpart: [unit] stands for it. *)
Definition fold1 (op : Q -> Q -> Q) (unit : Q) (l : list Q) : Q :=
  match l with
  | [] => unit
  | x :: r => fold_left op r x
  end.

(** Reduction over every axis, [keepdims] false. *)
Definition reduce_all (op : Q -> Q -> Q) (unit : Q) (a : Tensor) : Tensor :=
  scalar (fold1 op unit (data a)).

(** Shape left by a [keepdims] reduction over [axes]. *)
Definition keep_shape (sh : list nat) (axes : list nat) : list nat :=
  map (fun id => if existsb (Nat.eqb (fst id)) axes then 1%nat else snd id)
      (combine (seq 0 (length sh)) sh).

(** Reduction over [axes] with [keepdims] true; [None] is every axis. *)
Definition reduce_axes (op : Q -> Q -> Q) (unit : Q) (a : Tensor)
    (axes : option (list nat)) : Tensor :=
  let axes := match axes with
              | Some l => l
              | None => seq 0 (length (shape a))
              end in
  let osh := keep_shape (shape a) axes in
  let group j :=
    map snd (filter (fun kx => bidx (rev (shape a)) (rev osh) (fst kx) =? j)%nat
                    (combine (indices a) (data a))) in
  mkTensor osh (map (fun j => fold1 op unit (group j)) (seq 0 (fold_right Nat.mul 1%nat osh))).

Definition reduce_min := reduce_all Qmin 0.
Definition reduce_max := reduce_all Qmax 0.
Definition reduce_sum := reduce_all Qplus 0.
Definition reduce_min_axes := reduce_axes Qmin 0.
Definition reduce_max_axes := reduce_axes Qmax 0.
Definition reduce_sum_axes := reduce_axes Qplus 0.

(** [tf.argmin] of a list of scalars: the first index holding the least
    value. *)
Fixpoint argmin_from (best : Q) (ibest i : nat) (l : list Q) : nat :=
  match l with
  | [] => ibest
  | x :: r => if TF.Qltb x best then argmin_from x i (S i) r
              else argmin_from best ibest (S i) r
  end.

Definition argmin (l : list Q) : nat :=
  match l with
  | [] => 0%nat
  | x :: r => argmin_from x 0 1 r
  end.

End Tensors.
Import Tensors.

(** ** Range estimation (lines 138-173) *)

Definition get_min_max (inputs : Tensor) (bit_width : N)
    (symmetry per_channel : bool) (reduce_dims : option (list nat))
    : Tensor * Tensor :=
  let input_shape := shape inputs in
  let input_dim := List.length input_shape in
  let '(batch_min, batch_max) :=
    if per_channel then
      if (2 <=? input_dim)%nat then
        (reduce_min_axes inputs reduce_dims, reduce_max_axes inputs reduce_dims)
      else (inputs, inputs)
    else (reduce_min inputs, reduce_max inputs) in
  let '(range_min, range_max) :=
    if symmetry then
      if narrow_range then
        (tmap2 Qmin batch_min (tmap Qopp batch_max),
         tmap2 Qmax batch_max (tmap Qopp batch_min))
      else
        let min_max_ratio :=
          - inject_Z (Z.shiftl 1 (Z.of_N bit_width) - 2)
            / inject_Z (Z.shiftl 1 (Z.of_N bit_width)) in
        (tmap2 Qmin batch_min (tmap (fun v => v / min_max_ratio) batch_max),
         tmap2 Qmax batch_max (tmap (fun v => v * min_max_ratio) batch_min))
    else
      (tmap (fun v => Qmin v 0) batch_min, tmap (fun v => Qmax v 0) batch_max) in
  (range_min, range_max).

(** ** Fake-quantize kernels with their gradients (lines 176-641)

    A [tf.custom_gradient] function returns its forward result together with
    the backward closure; the closure returns one gradient per argument,
    [None] for the arguments that are not differentiable. *)

Definition Grads : Type := list (option Tensor).
Definition CustomGradient : Type := Tensor * (Tensor -> Grads).

(** [dy * tf.where cond ones zeros], where [cond] compares [inputs] with the
    two bounds [lo] and [hi]. *)
Definition masked (cond : Q -> Q -> Q -> bool) (dy inputs lo hi : Tensor) : Tensor :=
  tmap4 (fun g x l h => g * (if cond x l h then 1 else 0)) dy inputs lo hi.

Definition between_min_max (x lo hi : Q) : bool := Qle_bool lo x && Qle_bool x hi.
Definition below_min (x lo hi : Q) : bool := TF.Qltb x lo.
Definition above_max (x lo hi : Q) : bool := TF.Qltb hi x.

(** [quantize_zero_point] on tensors: its three results. *)
Definition quantize_zero_point_t (scale f_min f_max : Tensor) (q_min q_max : Q)
    : Tensor * Tensor * Tensor :=
  let zp s lo hi := quantize_zero_point s lo hi q_min q_max in
  (tmap3 (fun s lo hi => fst (fst (zp s lo hi))) scale f_min f_max,
   tmap3 (fun s lo hi => snd (fst (zp s lo hi))) scale f_min f_max,
   tmap3 (fun s lo hi => snd (zp s lo hi)) scale f_min f_max).

Definition fake_quantize_with_min_max_py3_asym
    (inputs f_min f_max : Tensor) (bit_width : N) : CustomGradient :=
  let '(q_min, q_max) := q_bounds bit_width in
  let scale := tmap2 (fun lo hi => get_scale lo hi q_min q_max) f_min f_max in
  let '(q_zero_point, new_f_min, new_f_max) :=
    quantize_zero_point_t scale f_min f_max q_min q_max in
  let shift := new_f_min in
  let quantized :=
    tmap3 (fun x s sh => py3_asym_quantize x s sh q_min q_max) inputs scale shift in
  let dequantized :=
    tmap3 (fun q s sh => asym_dequantize q s sh q_min q_max) quantized scale shift in
  let grad_fn dy :=
    let grad_wrt_inputs := masked between_min_max dy inputs new_f_min new_f_max in
    let grad_wrt_f_min := reduce_sum (masked below_min dy inputs new_f_min new_f_max) in
    let grad_wrt_f_max := reduce_sum (masked above_max dy inputs new_f_min new_f_max) in
    [Some grad_wrt_inputs; Some grad_wrt_f_min; Some grad_wrt_f_max; None] in
  (dequantized, grad_fn).

Definition fake_quantize_with_min_max_py3_asym_perc
    (inputs f_min f_max : Tensor) (bit_width : N) (reduce_dims : option (list nat))
    : CustomGradient :=
  let '(q_min, q_max) := q_bounds bit_width in
  let scale := tmap2 (fun lo hi => get_scale lo hi q_min q_max) f_min f_max in
  let '(q_zero_point, new_f_min, new_f_max) :=
    quantize_zero_point_t scale f_min f_max q_min q_max in
  let shift := new_f_min in
  let quantized :=
    tmap3 (fun x s sh => py3_asym_quantize x s sh q_min q_max) inputs scale shift in
  let dequantized :=
    tmap3 (fun q s sh => asym_dequantize q s sh q_min q_max) quantized scale shift in
  let grad_fn dy :=
    let grad_wrt_inputs := masked between_min_max dy inputs new_f_min new_f_max in
    let grad_wrt_f_min :=
      reduce_sum_axes (masked below_min dy inputs new_f_min new_f_max) reduce_dims in
    let grad_wrt_f_max :=
      reduce_sum_axes (masked above_max dy inputs new_f_min new_f_max) reduce_dims in
    [Some grad_wrt_inputs; Some grad_wrt_f_min; Some grad_wrt_f_max; None; None] in
  (dequantized, grad_fn).

Definition fake_quantize_with_min_max_py3_sym
    (inputs f_min f_max : Tensor) (bit_width : N) : CustomGradient :=
  let '(q_min, q_max) := q_bounds bit_width in
  let scale := tmap2 (fun lo hi => get_scale lo hi q_min q_max) f_min f_max in
  let quantized := tmap2 (fun x s => py3_sym_quantize x s q_min q_max) inputs scale in
  let dequantized := tmap2 (fun q s => sym_dequantize q s q_min q_max) quantized scale in
  let grad_fn dy :=
    let grad_wrt_inputs := masked between_min_max dy inputs f_min f_max in
    let grad_wrt_f_min := reduce_sum (masked below_min dy inputs f_min f_max) in
    let grad_wrt_f_max := reduce_sum (masked above_max dy inputs f_min f_max) in
    [Some grad_wrt_inputs; Some grad_wrt_f_min; Some grad_wrt_f_max; None] in
  (dequantized, grad_fn).

Definition fake_quantize_with_min_max_py3_sym_perc
    (inputs f_min f_max : Tensor) (bit_width : N) (reduce_dims : option (list nat))
    : CustomGradient :=
  let '(q_min, q_max) := q_bounds bit_width in
  let scale := tmap2 (fun lo hi => get_scale lo hi q_min q_max) f_min f_max in
  let quantized := tmap2 (fun x s => py3_sym_quantize x s q_min q_max) inputs scale in
  let dequantized := tmap2 (fun q s => sym_dequantize q s q_min q_max) quantized scale in
  let grad_fn dy :=
    let grad_wrt_inputs := masked between_min_max dy inputs f_min f_max in
    let grad_wrt_f_min :=
      reduce_sum_axes (masked below_min dy inputs f_min f_max) reduce_dims in
    let grad_wrt_f_max :=
      reduce_sum_axes (masked above_max dy inputs f_min f_max) reduce_dims in
    [Some grad_wrt_inputs; Some grad_wrt_f_min; Some grad_wrt_f_max; None; None] in
  (dequantized, grad_fn).

Definition fake_quantize_with_quantize_pos_py3_sym
    (inputs quantize_pos : Tensor) (bit_width : N) : CustomGradient :=
  let '(q_min, q_max) := q_bounds bit_width in
  let scale := tmap TF.pow2 quantize_pos in
  let quantized := tmap2 (fun x s => py3_sym_quantize x s q_min q_max) inputs scale in
  let dequantized := tmap2 (fun q s => sym_dequantize q s q_min q_max) quantized scale in
  let grad_fn dy := [Some dy; None; None] in
  (dequantized, grad_fn).

Definition fake_quantize_with_quantize_pos_py3_asym
    (inputs quantize_pos f_min f_max : Tensor) (bit_width : N) : CustomGradient :=
  let '(q_min, q_max) := q_bounds bit_width in
  let scale := tmap TF.pow2 quantize_pos in
  let '(q_zero_point, new_f_min, new_f_max) :=
    quantize_zero_point_t scale f_min f_max q_min q_max in
  let shift := new_f_min in
  let quantized :=
    tmap3 (fun x s sh => py3_asym_quantize x s sh q_min q_max) inputs scale shift in
  let dequantized :=
    tmap3 (fun q s sh => asym_dequantize q s sh q_min q_max) quantized scale shift in
  let grad_fn dy := [Some dy; None; None; None; None] in
  (dequantized, grad_fn).

Definition fake_quantize_with_quantize_pos_py3_sym_perc
    (inputs quantize_pos : Tensor) (bit_width : N) (reduce_dims : option (list nat))
    : CustomGradient :=
  let '(q_min, q_max) := q_bounds bit_width in
  let scale := tmap TF.pow2 quantize_pos in
  let quantized := tmap2 (fun x s => py3_sym_quantize x s q_min q_max) inputs scale in
  let dequantized := tmap2 (fun q s => sym_dequantize q s q_min q_max) quantized scale in
  let grad_fn dy := [Some dy; None; None; None] in
  (dequantized, grad_fn).

Definition fake_quantize_with_quantize_pos_py3_asym_perc
    (inputs quantize_pos f_min f_max : Tensor) (bit_width : N)
    (reduce_dims : option (list nat)) : CustomGradient :=
  let '(q_min, q_max) := q_bounds bit_width in
  let scale := tmap TF.pow2 quantize_pos in
  let '(q_zero_point, new_f_min, new_f_max) :=
    quantize_zero_point_t scale f_min f_max q_min q_max in
  let shift := new_f_min in
  let quantized :=
    tmap3 (fun x s sh => py3_asym_quantize x s sh q_min q_max) inputs scale shift in
  let dequantized :=
    tmap3 (fun q s sh => asym_dequantize q s sh q_min q_max) quantized scale shift in
  let grad_fn dy := [Some dy; None; None; None; None; None] in
  (dequantized, grad_fn).

Definition fake_quantize_with_quantize_pos_dpu_sym
    (inputs quantize_pos : Tensor) (bit_width : N) : CustomGradient :=
  let '(q_min, q_max) := q_bounds bit_width in
  let scale := tmap TF.pow2 quantize_pos in
  let quantized := tmap2 (fun x s => dpu_sym_quantize x s q_min q_max) inputs scale in
  let dequantized := tmap2 (fun q s => sym_dequantize q s q_min q_max) quantized scale in
  let grad_fn dy := [Some dy; None; None] in
  (dequantized, grad_fn).

Definition fake_quantize_with_quantize_pos_dpu_asym
    (inputs quantize_pos f_min f_max : Tensor) (bit_width : N) : CustomGradient :=
  let '(q_min, q_max) := q_bounds bit_width in
  let scale := tmap TF.pow2 quantize_pos in
  let '(q_zero_point, new_f_min, new_f_max) :=
    quantize_zero_point_t scale f_min f_max q_min q_max in
  let shift := new_f_min in
  let quantized :=
    tmap3 (fun x s sh => dpu_asym_quantize x s sh q_min q_max) inputs scale shift in
  let dequantized :=
    tmap3 (fun q s sh => asym_dequantize q s sh q_min q_max) quantized scale shift in
  let grad_fn dy := [Some dy; None; None; None; None] in
  (dequantized, grad_fn).

(** A log threshold. [get_log_th_non_overflow] produces the base 2 logarithm
    of a rational threshold, in general irrational, so it is kept as the
    threshold it is the logarithm of; [LogThValue] is a stored number. *)
Inductive LogTh : Type :=
| LogThValue (v : Q)
| LogThLog2 (th : Q).

(** [tf.math.ceil log_th], as an integer. *)
Definition ceil_log_th (log_th : LogTh) : Z :=
  match log_th with
  | LogThValue v => Qceiling v
  | LogThLog2 th => (- TF.floor_neg_log2 th)%Z
  end.

(** The backward closure shared, up to the rounding function, by the two
    log-threshold kernels (lines 579-594 and 624-639). *)
Definition log_th_grad_fn (round : Q -> Q) (inputs quantized dequantized : Tensor)
    (scale q_min q_max : Q) (dy : Tensor) : Grads :=
  let scaled := tmap (fun x => x * scale) inputs in
  let rounded := tmap round scaled in
  let grad_wrt_inputs :=
    tmap2 (fun g r => g * (if between_min_max r q_min q_max then 1 else 0)) dy rounded in
  let selected :=
    tmap4 (fun r d x q => if between_min_max r q_min q_max then d - x else q / scale)
          rounded dequantized inputs quantized in
  let grad_wrt_log_th := reduce_sum (tmap2 (fun g w => g * TF.ln2 * w) dy selected) in
  [Some grad_wrt_inputs; Some grad_wrt_log_th; None].

Definition fake_quantize_with_log_th_py3_sym
    (inputs : Tensor) (log_th : LogTh) (bit_width : N) : CustomGradient :=
  let '(q_min, q_max) := q_bounds bit_width in
  let quantize_pos := inject_Z (Z.of_N bit_width - 1 - ceil_log_th log_th) in
  let scale := TF.pow2 quantize_pos in
  let quantized := tmap (fun x => py3_sym_quantize x scale q_min q_max) inputs in
  let dequantized := tmap (fun q => sym_dequantize q scale q_min q_max) quantized in
  (dequantized, log_th_grad_fn py3_round inputs quantized dequantized scale q_min q_max).

Definition fake_quantize_with_log_th_dpu_sym
    (inputs : Tensor) (log_th : LogTh) (bit_width : N) : CustomGradient :=
  let '(q_min, q_max) := q_bounds bit_width in
  let quantize_pos := inject_Z (Z.of_N bit_width - 1 - ceil_log_th log_th) in
  let scale := TF.pow2 quantize_pos in
  let quantized := tmap (fun x => dpu_sym_quantize x scale q_min q_max) inputs in
  let dequantized := tmap (fun q => sym_dequantize q scale q_min q_max) quantized in
  (dequantized, log_th_grad_fn dpu_round inputs quantized dequantized scale q_min q_max).

(** ** Errors *)

Inductive error : Type :=
| ConfigurationError (msg : string)
| KeyError (key : string)
| TypeError.

Definition Result (A : Type) : Type := (error + A)%type.

Definition ok {A : Type} (a : A) : Result A := inr a.
Definition raise {A : Type} (e : error) : Result A := inl e.

Definition rbind {A B : Type} (m : Result A) (k : A -> Result B) : Result B :=
  match m with
  | inl e => inl e
  | inr a => k a
  end.

(** Modelled from the spec: [common_utils.VAILogger] is not part of the
    sources at hand. Its [error] method reports an unsupported
    configuration, which "fails fast at call time, never silently
    substitutes a default kernel" (section 7): it raises. *)
Definition logger_error {A : Type} (msg : string) : Result A :=
  raise (ConfigurationError msg).

(** ** Kernel table and dispatch (lines 644-685) *)

Inductive kernel : Type :=
| MIN_MAX_PY3_SYM
| MIN_MAX_PY3_SYM_PERC
| MIN_MAX_PY3_ASYM
| MIN_MAX_PY3_ASYM_PERC
| QUANTIZE_POS_PY3_SYM
| QUANTIZE_POS_PY3_ASYM
| QUANTIZE_POS_PY3_SYM_PERC
| QUANTIZE_POS_PY3_ASYM_PERC
| QUANTIZE_POS_DPU_SYM
| QUANTIZE_POS_DPU_ASYM
| LOG_TH_PY3_SYM
| LOG_TH_DPU_SYM.

Definition _QUANTIZE_KERNEL_MAP : list (string * kernel) :=
  [ ("MIN_MAX_PY3_SYM", MIN_MAX_PY3_SYM);
    ("MIN_MAX_PY3_SYM_PERC", MIN_MAX_PY3_SYM_PERC);
    ("MIN_MAX_PY3_ASYM", MIN_MAX_PY3_ASYM);
    ("MIN_MAX_PY3_ASYM_PERC", MIN_MAX_PY3_ASYM_PERC);
    ("QUANTIZE_POS_PY3_SYM", QUANTIZE_POS_PY3_SYM);
    ("QUANTIZE_POS_PY3_ASYM", QUANTIZE_POS_PY3_ASYM);
    ("QUANTIZE_POS_PY3_SYM_PERC", QUANTIZE_POS_PY3_SYM_PERC);
    ("QUANTIZE_POS_PY3_ASYM_PERC", QUANTIZE_POS_PY3_ASYM_PERC);
    ("QUANTIZE_POS_DPU_SYM", QUANTIZE_POS_DPU_SYM);
    ("QUANTIZE_POS_DPU_ASYM", QUANTIZE_POS_DPU_ASYM);
    ("LOG_TH_PY3_SYM", LOG_TH_PY3_SYM);
    ("LOG_TH_DPU_SYM", LOG_TH_DPU_SYM) ]%string.

Fixpoint dict_get {V : Type} (key : string) (d : list (string * V)) : option V :=
  match d with
  | [] => None
  | (k, v) :: r => if String.eqb key k then Some v else dict_get key r
  end.

Definition get_quantize_kernel (kernel_type : string) (round_mode : Z)
    (symmetry per_channel : bool) : Result kernel :=
  let key := kernel_type in
  rbind (if (round_mode =? 0)%Z then ok (key ++ "_PY3")%string
         else if (round_mode =? 1)%Z then ok (key ++ "_DPU")%string
         else if (round_mode =? 2)%Z then ok (key ++ "_STD")%string
         else logger_error "Invalid round mode") (fun key =>
  let key := if symmetry then (key ++ "_SYM")%string else (key ++ "_ASYM")%string in
  let key := if per_channel then (key ++ "_PERC")%string else key in
  rbind (match dict_get key _QUANTIZE_KERNEL_MAP with
         | None => logger_error "Invalid quantize kernel"
         | Some _ => ok tt
         end) (fun _ =>
  match dict_get key _QUANTIZE_KERNEL_MAP with
  | Some k => ok k
  | None => raise (KeyError key)
  end)).

(** The arguments a wrapper passes, positionally, to the kernel it looked
    up. *)
Inductive argument : Type :=
| VTensor (t : Tensor)
| VLogTh (l : LogTh)
| VInt (n : N)
| VDims (d : option (list nat)).

(** Calling a kernel: its forward result, or [TypeError] when the arguments
    do not fit its signature. *)
Definition call_kernel (k : kernel) (args : list argument) : Result Tensor :=
  match k, args with
  | MIN_MAX_PY3_SYM, [VTensor x; VTensor lo; VTensor hi; VInt b] =>
      ok (fst (fake_quantize_with_min_max_py3_sym x lo hi b))
  | MIN_MAX_PY3_SYM_PERC, [VTensor x; VTensor lo; VTensor hi; VInt b; VDims d] =>
      ok (fst (fake_quantize_with_min_max_py3_sym_perc x lo hi b d))
  | MIN_MAX_PY3_ASYM, [VTensor x; VTensor lo; VTensor hi; VInt b] =>
      ok (fst (fake_quantize_with_min_max_py3_asym x lo hi b))
  | MIN_MAX_PY3_ASYM_PERC, [VTensor x; VTensor lo; VTensor hi; VInt b; VDims d] =>
      ok (fst (fake_quantize_with_min_max_py3_asym_perc x lo hi b d))
  | QUANTIZE_POS_PY3_SYM, [VTensor x; VTensor p; VInt b] =>
      ok (fst (fake_quantize_with_quantize_pos_py3_sym x p b))
  | QUANTIZE_POS_PY3_ASYM, [VTensor x; VTensor p; VTensor lo; VTensor hi; VInt b] =>
      ok (fst (fake_quantize_with_quantize_pos_py3_asym x p lo hi b))
  | QUANTIZE_POS_PY3_SYM_PERC, [VTensor x; VTensor p; VInt b; VDims d] =>
      ok (fst (fake_quantize_with_quantize_pos_py3_sym_perc x p b d))
  | QUANTIZE_POS_PY3_ASYM_PERC,
    [VTensor x; VTensor p; VTensor lo; VTensor hi; VInt b; VDims d] =>
      ok (fst (fake_quantize_with_quantize_pos_py3_asym_perc x p lo hi b d))
  | QUANTIZE_POS_DPU_SYM, [VTensor x; VTensor p; VInt b] =>
      ok (fst (fake_quantize_with_quantize_pos_dpu_sym x p b))
  | QUANTIZE_POS_DPU_ASYM, [VTensor x; VTensor p; VTensor lo; VTensor hi; VInt b] =>
      ok (fst (fake_quantize_with_quantize_pos_dpu_asym x p lo hi b))
  | LOG_TH_PY3_SYM, [VTensor x; VLogTh l; VInt b] =>
      ok (fst (fake_quantize_with_log_th_py3_sym x l b))
  | LOG_TH_DPU_SYM, [VTensor x; VLogTh l; VInt b] =>
      ok (fst (fake_quantize_with_log_th_dpu_sym x l b))
  | _, _ => raise TypeError
  end.

(** ** Position search (lines 688-786) *)

(** On one range. The arguments [inputs], [per_channel] and [reduce_dims]
    are accepted and never read, whatever is passed for them. *)
Definition get_quantize_pos_non_overflow_sym {I D : Type} (inputs : I)
    (f_min f_max q_min q_max : Q) (per_channel : bool) (reduce_dims : D) : Q :=
  let min_scale_inv := f_min / q_min in
  let max_scale_inv := f_max / q_max in
  let float_scale_inv := Qmax min_scale_inv max_scale_inv in
  let float_scale_inv := Qmax float_scale_inv TF.epsilon in
  let quantize_pos := inject_Z (TF.floor_neg_log2 float_scale_inv) in
  quantize_pos.

Definition get_quantize_pos_non_overflow_asym {I D : Type} (inputs : I)
    (f_min f_max q_min q_max : Q) (per_channel : bool) (reduce_dims : D) : Q :=
  let float_scale_inv := (f_max - f_min) / (q_max - q_min) in
  let float_scale_inv := Qmax float_scale_inv TF.epsilon in
  let quantize_pos := inject_Z (TF.floor_neg_log2 float_scale_inv) in
  quantize_pos.

(** The squared reconstruction error of [inputs] at the positions
    [non_overflow_pos + i], summed over every element: the body of the loop
    of the two min-diffs searches. *)
Definition min_diffs_diff (sym_quantize : Q -> Q -> Q -> Q -> Q)
    (inputs non_overflow_pos : Tensor) (q_min q_max : Q) (i : nat) : Q :=
  let scale := tmap (fun p => TF.pow2 (p + inject_Z (Z.of_nat i))) non_overflow_pos in
  let quantized := tmap2 (fun x s => sym_quantize x s q_min q_max) inputs scale in
  let dequantized := tmap2 (fun q s => sym_dequantize q s q_min q_max) quantized scale in
  let diff := tmap2 (fun x d => (x - d) ^ 2) inputs dequantized in
  let diff := fold1 Qplus 0 (data diff) in
  diff.

Definition get_quantize_pos_min_diffs_py3_sym {D : Type} (inputs f_min f_max : Tensor)
    (q_min q_max : Q) (bit_width : N) (per_channel : bool) (reduce_dims : D) : Tensor :=
  let non_overflow_pos :=
    tmap2 (fun lo hi =>
             get_quantize_pos_non_overflow_sym inputs lo hi q_min q_max
                                               per_channel reduce_dims)
          f_min f_max in
  let diffs :=
    fold_left (fun diffs i =>
                 diffs ++ [min_diffs_diff py3_sym_quantize inputs non_overflow_pos
                                          q_min q_max i])
              (seq 0 5) [] in
  let pos_offset := argmin diffs in
  let quantize_pos :=
    tmap (fun p => p + inject_Z (Z.of_nat pos_offset)) non_overflow_pos in
  quantize_pos.

Definition get_quantize_pos_min_diffs_dpu_sym {D : Type} (inputs f_min f_max : Tensor)
    (q_min q_max : Q) (bit_width : N) (per_channel : bool) (reduce_dims : D) : Tensor :=
  let non_overflow_pos :=
    tmap2 (fun lo hi =>
             get_quantize_pos_non_overflow_sym inputs lo hi q_min q_max
                                               per_channel reduce_dims)
          f_min f_max in
  let diffs :=
    fold_left (fun diffs i =>
                 diffs ++ [min_diffs_diff dpu_sym_quantize inputs non_overflow_pos
                                          q_min q_max i])
              (seq 0 5) [] in
  let pos_offset := argmin diffs in
  let quantize_pos :=
    tmap (fun p => p + inject_Z (Z.of_nat pos_offset)) non_overflow_pos in
  quantize_pos.

Definition get_quantize_pos {D : Type} (inputs f_min f_max : Tensor) (bit_width : N)
    (method round_mode : Z) (per_channel : bool) (reduce_dims : D) (symmetry : bool)
    : Result Tensor :=
  let '(q_min, q_max) := q_bounds bit_width in
  if negb symmetry then
    ok (tmap2 (fun lo hi =>
                 get_quantize_pos_non_overflow_asym inputs lo hi q_min q_max
                                                    per_channel reduce_dims)
              f_min f_max)
  else if (method =? 0)%Z then
    ok (tmap2 (fun lo hi =>
                 get_quantize_pos_non_overflow_sym inputs lo hi q_min q_max
                                                   per_channel reduce_dims)
              f_min f_max)
  else if (method =? 1)%Z && (round_mode =? 0)%Z then
    ok (get_quantize_pos_min_diffs_py3_sym inputs f_min f_max q_min q_max
                                           bit_width per_channel reduce_dims)
  else if (method =? 1)%Z && (round_mode =? 1)%Z then
    ok (get_quantize_pos_min_diffs_dpu_sym inputs f_min f_max q_min q_max
                                           bit_width per_channel reduce_dims)
  else logger_error "".

(** ** Log threshold (lines 789-815) *)

Definition get_log_th_non_overflow {I : Type} (inputs : I)
    (f_min f_max q_min q_max : Q) : LogTh :=
  let f_min_abs := Qabs f_min in
  let f_max_adj := f_max * (- q_min / q_max) in
  let th := Qmax f_min_abs f_max_adj in
  let th := Qmax th (1 # 1000000000) in
  LogThLog2 th.

Definition get_log_th (inputs f_min f_max : Tensor) (bit_width : N) (method : Z)
    : Result LogTh :=
  let '(q_min, q_max) := q_bounds bit_width in
  if (method =? 0)%Z then
    ok (get_log_th_non_overflow inputs (bget f_min [] 0) (bget f_max [] 0) q_min q_max)
  else if (method =? 1)%Z then logger_error "Method 1 not implemented."
  else logger_error "Method not implemented.".

Definition get_reduce_dims (input_shape : list nat) (channel_axis : Z) : list nat :=
  let input_dim := List.length input_shape in
  let channel_axis :=
    if (channel_axis <? 0)%Z then (Z.of_nat input_dim + channel_axis)%Z
    else channel_axis in
  filter (fun i => negb (Z.of_nat i =? channel_axis)%Z) (seq 0 input_dim).

(** ** The variable store

    The wrappers receive TensorFlow variables and update them in place. A
    variable carries, besides its value, the two slots that
    [moving_averages.assign_moving_average] keeps for it when it removes the
    zero bias; both start at zero. *)

Record TFVariable : Type :=
  mkVar { value : Tensor; biased : Tensor; local_step : Z }.

Record Store : Type :=
  mkStore { min_var : TFVariable;
            max_var : TFVariable;
            quant_pos_var : TFVariable;
            log_th_var : LogTh }.

Inductive var_name : Type := Min_var | Max_var | Quant_pos_var.

Definition get_var (x : var_name) (s : Store) : TFVariable :=
  match x with
  | Min_var => min_var s
  | Max_var => max_var s
  | Quant_pos_var => quant_pos_var s
  end.

Definition set_var (x : var_name) (v : TFVariable) (s : Store) : Store :=
  match x with
  | Min_var => mkStore v (max_var s) (quant_pos_var s) (log_th_var s)
  | Max_var => mkStore (min_var s) v (quant_pos_var s) (log_th_var s)
  | Quant_pos_var => mkStore (min_var s) (max_var s) v (log_th_var s)
  end.

(** Computations that read and write the store and may raise; what was
    written before an exception stays written. *)
Definition M (A : Type) : Type := Store -> Store * Result A.

Definition ret {A : Type} (a : A) : M A := fun s => (s, ok a).

Definition bind {A B : Type} (m : M A) (k : A -> M B) : M B :=
  fun s => match m s with
           | (s', inr a) => k a s'
           | (s', inl e) => (s', inl e)
           end.

Definition lift {A : Type} (r : Result A) : M A := fun s => (s, r).

Declare Scope store_scope.
Delimit Scope store_scope with store.
Notation "x <- m ;; k" := (bind m (fun x => k))
  (at level 61, m at next level, right associativity) : store_scope.
Notation "' p <- m ;; k" := (bind m (fun p => k))
  (at level 61, p pattern, m at next level, right associativity) : store_scope.

Definition read (x : var_name) : M Tensor := fun s => (s, ok (value (get_var x s))).

(** [tf_compat.assign]: the variable takes the value, which is returned. *)
Definition assign (x : var_name) (v : Tensor) : M Tensor :=
  fun s =>
    let var := get_var x s in
    (set_var x (mkVar v (biased var) (local_step var)) s, ok v).

Definition read_log_th : M LogTh := fun s => (s, ok (log_th_var s)).

Definition assign_log_th (l : LogTh) : M LogTh :=
  fun s => (mkStore (min_var s) (max_var s) (quant_pos_var s) l, ok l).

(** [moving_averages.assign_moving_average variable value decay zero_debias].
    Without the zero bias correction the variable moves towards the value by
    [(variable - value) * (1 - decay)]. With it, the same update is applied
    to the [biased] slot, the step counter advances, and the variable is set
    to the biased average divided by [1 - decay ^ local_step]. *)
Definition assign_moving_average (x : var_name) (v : Tensor) (decay : Q)
    (zero_debias : bool) : M Tensor :=
  fun s =>
    let var := get_var x s in
    let decay := 1 - decay in
    if zero_debias then
      let biased' := tmap2 (fun b y => b - (b - y) * decay) (biased var) v in
      let local_step' := (local_step var + 1)%Z in
      let bias_factor := 1 - (1 - decay) ^ local_step' in
      let unbiased := tmap (fun b => b / bias_factor) biased' in
      (set_var x (mkVar unbiased biased' local_step') s, ok unbiased)
    else
      let updated := tmap2 (fun u y => u - (u - y) * decay) (value var) v in
      (set_var x (mkVar updated (biased var) (local_step var)) s, ok updated).

(** ** The quantize operations (lines 827-1164) *)

Local Open Scope store_scope.
Local Open Scope string_scope.

Definition LastValueMinMaxQuantize (inputs : Tensor) (bit_width : N)
    (round_mode : Z) (mode : string) (is_training symmetry per_channel : bool)
    (channel_axis : Z) : M Tensor :=
  let reduce_dims :=
    if per_channel then Some (get_reduce_dims (shape inputs) channel_axis) else None in
  quantize_kernel <- lift (get_quantize_kernel "MIN_MAX" round_mode symmetry per_channel) ;;
  if mode =? "ANALYSE" then
    let '(batch_min, batch_max) :=
      get_min_max inputs bit_width symmetry per_channel reduce_dims in
    assign_min <- assign Min_var batch_min ;;
    assign_max <- assign Max_var batch_max ;;
    ret inputs
  else if is_training || (mode =? "QCB") then
    let '(batch_min, batch_max) :=
      get_min_max inputs bit_width symmetry per_channel reduce_dims in
    assign_min <- assign Min_var batch_min ;;
    assign_max <- assign Max_var batch_max ;;
    if per_channel then
      lift (call_kernel quantize_kernel
              [VTensor inputs; VTensor assign_min; VTensor assign_max;
               VInt bit_width; VDims reduce_dims])
    else
      lift (call_kernel quantize_kernel
              [VTensor inputs; VTensor assign_min; VTensor assign_max; VInt bit_width])
  else
    min_var <- read Min_var ;;
    max_var <- read Max_var ;;
    if per_channel then
      lift (call_kernel quantize_kernel
              [VTensor inputs; VTensor min_var; VTensor max_var;
               VInt bit_width; VDims reduce_dims])
    else
      lift (call_kernel quantize_kernel
              [VTensor inputs; VTensor min_var; VTensor max_var; VInt bit_width]).

Definition MovingAvgMinMaxQuantize (inputs : Tensor) (bit_width : N)
    (round_mode : Z) (mode : string) (is_training per_channel : bool)
    (channel_axis : Z) (ema_decay : Q) : M Tensor :=
  let symmetry := false in
  let reduce_dims :=
    if per_channel then Some (get_reduce_dims (shape inputs) channel_axis) else None in
  quantize_kernel <- lift (get_quantize_kernel "MIN_MAX" round_mode symmetry per_channel) ;;
  if mode =? "ANALYSE" then
    let '(batch_min, batch_max) :=
      get_min_max inputs bit_width symmetry per_channel reduce_dims in
    assign_min <- assign_moving_average Min_var batch_min ema_decay false ;;
    assign_max <- assign_moving_average Max_var batch_max ema_decay false ;;
    ret inputs
  else if is_training || (mode =? "QCB") then
    let '(batch_min, batch_max) :=
      get_min_max inputs bit_width symmetry per_channel reduce_dims in
    assign_min <- assign_moving_average Min_var batch_min ema_decay true ;;
    assign_max <- assign_moving_average Max_var batch_max ema_decay true ;;
    if per_channel then
      lift (call_kernel quantize_kernel
              [VTensor inputs; VTensor assign_min; VTensor assign_max;
               VInt bit_width; VDims reduce_dims])
    else
      lift (call_kernel quantize_kernel
              [VTensor inputs; VTensor assign_min; VTensor assign_max; VInt bit_width])
  else
    min_var <- read Min_var ;;
    max_var <- read Max_var ;;
    if per_channel then
      lift (call_kernel quantize_kernel
              [VTensor inputs; VTensor min_var; VTensor max_var;
               VInt bit_width; VDims reduce_dims])
    else
      lift (call_kernel quantize_kernel
              [VTensor inputs; VTensor min_var; VTensor max_var; VInt bit_width]).

Definition LastValueQuantPosQuantize (inputs : Tensor) (bit_width : N)
    (method round_mode : Z) (mode : string)
    (is_training symmetry per_channel : bool) (channel_axis : Z) : M Tensor :=
  let reduce_dims :=
    if per_channel then Some (get_reduce_dims (shape inputs) channel_axis) else None in
  quantize_kernel <-
    lift (get_quantize_kernel "QUANTIZE_POS" round_mode symmetry per_channel) ;;
  if mode =? "ANALYSE" then
    let '(batch_min, batch_max) :=
      get_min_max inputs bit_width symmetry per_channel reduce_dims in
    assign_min <- assign Min_var batch_min ;;
    assign_max <- assign Max_var batch_max ;;
    ret inputs
  else if is_training || (mode =? "QCB") then
    let '(batch_min, batch_max) :=
      get_min_max inputs bit_width symmetry per_channel reduce_dims in
    assign_min <- assign Min_var batch_min ;;
    assign_max <- assign Max_var batch_max ;;
    batch_quantize_pos <-
      lift (get_quantize_pos inputs assign_min assign_max bit_width method
                             round_mode per_channel channel_axis symmetry) ;;
    assign_quantize_pos <- assign Quant_pos_var batch_quantize_pos ;;
    if per_channel then
      if symmetry then
        lift (call_kernel quantize_kernel
                [VTensor inputs; VTensor assign_quantize_pos; VInt bit_width;
                 VDims reduce_dims])
      else
        lift (call_kernel quantize_kernel
                [VTensor inputs; VTensor assign_quantize_pos; VTensor assign_min;
                 VTensor assign_max; VInt bit_width; VDims reduce_dims])
    else
      if symmetry then
        lift (call_kernel quantize_kernel
                [VTensor inputs; VTensor assign_quantize_pos; VInt bit_width])
      else
        lift (call_kernel quantize_kernel
                [VTensor inputs; VTensor assign_quantize_pos; VTensor assign_min;
                 VTensor assign_max; VInt bit_width])
  else
    quant_pos_var <- read Quant_pos_var ;;
    min_var <- read Min_var ;;
    max_var <- read Max_var ;;
    if per_channel then
      if symmetry then
        lift (call_kernel quantize_kernel
                [VTensor inputs; VTensor quant_pos_var; VInt bit_width;
                 VDims reduce_dims])
      else
        lift (call_kernel quantize_kernel
                [VTensor inputs; VTensor quant_pos_var; VTensor min_var;
                 VTensor max_var; VInt bit_width; VDims reduce_dims])
    else
      if symmetry then
        lift (call_kernel quantize_kernel
                [VTensor inputs; VTensor quant_pos_var; VInt bit_width])
      else
        lift (call_kernel quantize_kernel
                [VTensor inputs; VTensor quant_pos_var; VTensor min_var;
                 VTensor max_var; VInt bit_width]).

Definition LastValueLogThQuantize (inputs : Tensor) (bit_width : N)
    (method round_mode : Z) (mode : string) (is_training : bool) : M Tensor :=
  quantize_kernel <- lift (get_quantize_kernel "LOG_TH" round_mode true false) ;;
  if mode =? "ANALYSE" then
    let '(batch_min, batch_max) := get_min_max inputs bit_width true false None in
    assign_min <- assign Min_var batch_min ;;
    assign_max <- assign Max_var batch_max ;;
    ret inputs
  else if is_training || (mode =? "QCB") then
    let '(batch_min, batch_max) := get_min_max inputs bit_width true false None in
    assign_min <- assign Min_var batch_min ;;
    assign_max <- assign Max_var batch_max ;;
    if mode =? "QCB" then
      batch_log_th <- lift (get_log_th inputs assign_min assign_max bit_width method) ;;
      assign_log_th <- assign_log_th batch_log_th ;;
      lift (call_kernel quantize_kernel
              [VTensor inputs; VLogTh assign_log_th; VInt bit_width])
    else
      log_th_var <- read_log_th ;;
      lift (call_kernel quantize_kernel
              [VTensor inputs; VLogTh log_th_var; VInt bit_width])
  else
    log_th_var <- read_log_th ;;
    lift (call_kernel quantize_kernel
            [VTensor inputs; VLogTh log_th_var; VInt bit_width]).

Local Close Scope string_scope.
Local Close Scope store_scope.

(** * Vocabulary of the properties *)

(** [r] rounds to a nearest integer. *)
Definition nearest (r : Q -> Q) : Prop :=
  forall x, exists z : Z,
    r x = inject_Z z /\ x - (1 # 2) <= inject_Z z /\ inject_Z z <= x + (1 # 2).

Definition zero_var : TFVariable := mkVar (scalar 0) (scalar 0) 0.

(** The store at model-build time: every variable is zero. *)
Definition initial_store : Store :=
  mkStore zero_var zero_var zero_var (LogThValue 0).

(** The two assignments of a last-value operation in ANALYSE mode. *)
Definition assign_range (lo hi : Tensor) (s : Store) : Store :=
  fst (assign Max_var hi (fst (assign Min_var lo s))).

(** The two updates of the moving-average operation. *)
Definition average_range (lo hi : Tensor) (decay : Q) (zero_debias : bool)
    (s : Store) : Store :=
  fst (assign_moving_average Max_var hi decay zero_debias
         (fst (assign_moving_average Min_var lo decay zero_debias s))).

(** A tensor holds as many elements as its shape says. *)
Definition well_formed (t : Tensor) : Prop :=
  List.length (data t) = fold_right Nat.mul 1%nat (shape t).

(** [k] is the first index below [n] at which [err] is least. *)
Definition first_argmin (err : nat -> Q) (n k : nat) : Prop :=
  (k < n)%nat
  /\ (forall j, (j < n)%nat -> err k <= err j)
  /\ (forall j, (j < k)%nat -> err k < err j).

(** Stated from the specification: the sum, over all elements, of the
    squared reconstruction error of the quantize then dequantize round trip
    at one scale. *)
Definition squared_error (quantize : Q -> Q -> Q -> Q -> Q) (xs : list Q)
    (scale q_min q_max : Q) : Q :=
  fold1 Qplus 0
    (map (fun x =>
            (x - sym_dequantize (quantize x scale q_min q_max) scale q_min q_max) ^ 2)
         xs).

(** * Properties *)

Ltac destruct_call :=
  match goal with
  | |- context [call_kernel ?k ?a] => destruct (call_kernel k a)
  end.

(** ** Comparisons and integers among the rationals *)

Lemma Qltb_lt (x y : Q) : TF.Qltb x y = true <-> x < y.
Proof.
  unfold TF.Qltb. rewrite negb_true_iff. split; intro H.
  - apply Qnot_le_lt. intro Hle. apply Qle_bool_iff in Hle. congruence.
  - destruct (Qle_bool y x) eqn:E; [|reflexivity].
    apply Qle_bool_iff in E. exfalso. apply (Qlt_not_le _ _ H E).
Qed.

Lemma Qltb_ge (x y : Q) : TF.Qltb x y = false <-> y <= x.
Proof.
  unfold TF.Qltb. rewrite negb_false_iff. apply Qle_bool_iff.
Qed.

Lemma inject_Z_succ (z : Z) : inject_Z (z + 1) == inject_Z z + 1.
Proof. rewrite inject_Z_plus. reflexivity. Qed.

Lemma inject_Z_lt_succ (a b : Z) : inject_Z a < inject_Z b + 1 -> (a <= b)%Z.
Proof.
  intro H. rewrite <- inject_Z_succ in H. rewrite <- Zlt_Qlt in H. lia.
Qed.

Lemma tf_round_nearest : nearest TF.round.
Proof.
  intro x. unfold TF.round.
  pose proof (Qfloor_le x) as Hlo. pose proof (Qlt_floor x) as Hhi.
  rewrite inject_Z_succ in Hhi.
  destruct (TF.Qltb (x - inject_Z (Qfloor x)) (1 # 2)) eqn:E1.
  - apply Qltb_lt in E1. exists (Qfloor x). split; [reflexivity|]. lra.
  - apply Qltb_ge in E1.
    destruct (TF.Qltb (1 # 2) (x - inject_Z (Qfloor x))) eqn:E2.
    + exists (Qfloor x + 1)%Z. split; [reflexivity|].
      rewrite inject_Z_succ. lra.
    + apply Qltb_ge in E2. destruct (Z.even (Qfloor x)).
      * exists (Qfloor x). split; [reflexivity|]. lra.
      * exists (Qfloor x + 1)%Z. split; [reflexivity|].
        rewrite inject_Z_succ. lra.
Qed.

Lemma py3_round_nearest : nearest py3_round.
Proof. exact tf_round_nearest. Qed.

Lemma dpu_round_nearest : nearest dpu_round.
Proof.
  intro x. unfold dpu_round, TF.floor. exists (Qfloor (x + (1 # 2))).
  split; [reflexivity|].
  pose proof (Qfloor_le (x + (1 # 2))) as Hlo.
  pose proof (Qlt_floor (x + (1 # 2))) as Hhi.
  rewrite inject_Z_succ in Hhi. lra.
Qed.

(** At a tie the ceiling is the floor plus one. *)
Lemma ceiling_at_half (x : Q) :
  x - inject_Z (Qfloor x) == 1 # 2 -> Qceiling x = (Qfloor x + 1)%Z.
Proof.
  intro H.
  pose proof (Qle_ceiling x) as Hc. pose proof (Qceiling_lt x) as Hc'.
  assert (Hs : inject_Z (Qceiling x - 1) == inject_Z (Qceiling x) - 1).
  { unfold Zminus. rewrite inject_Z_plus. reflexivity. }
  rewrite Hs in Hc'.
  assert (H1 : (Qceiling x <= Qfloor x + 1)%Z).
  { apply inject_Z_lt_succ. rewrite inject_Z_succ. lra. }
  assert (H2 : (Qfloor x <= Qceiling x - 1)%Z).
  { apply inject_Z_lt_succ. rewrite Hs. lra. }
  lia.
Qed.

Lemma std_round_nearest : nearest std_round.
Proof.
  intro x. unfold std_round, TF.floor, TF.ceil.
  destruct (Qeq_bool (x - inject_Z (Qfloor x)) (1 # 2)) eqn:E.
  - apply Qeq_bool_iff in E.
    destruct (TF.Qltb 0 x).
    + exists (Qceiling x). split; [reflexivity|].
      rewrite (ceiling_at_half x E), inject_Z_succ. lra.
    + exists (Qfloor x). split; [reflexivity|]. lra.
  - apply tf_round_nearest.
Qed.

(** A nearest rounding never crosses an integer bound. *)
Section Nearest.

Variable round : Q -> Q.
Hypothesis round_nearest : nearest round.

Lemma nearest_ge_int (lo : Z) (x : Q) :
  inject_Z lo <= x -> inject_Z lo <= round x.
Proof.
  intros Hlo. destruct (round_nearest x) as (z & -> & Hz1 & Hz2).
  rewrite <- Zle_Qle. apply inject_Z_lt_succ. lra.
Qed.

Lemma nearest_le_int (hi : Z) (x : Q) :
  x <= inject_Z hi -> round x <= inject_Z hi.
Proof.
  intros Hhi. destruct (round_nearest x) as (z & -> & Hz1 & Hz2).
  rewrite <- Zle_Qle. apply inject_Z_lt_succ. lra.
Qed.

End Nearest.

Create HintDb rounding.
#[local] Hint Resolve py3_round_nearest dpu_round_nearest std_round_nearest : rounding.

Lemma floor_at_half (x : Q) (k : Z) :
  x == inject_Z k + (1 # 2) -> Qfloor x = k.
Proof.
  intro Hx.
  pose proof (Qfloor_le x) as Hlo. pose proof (Qlt_floor x) as Hhi.
  rewrite inject_Z_succ in Hhi.
  assert ((Qfloor x <= k)%Z) by (apply inject_Z_lt_succ; lra).
  assert ((k <= Qfloor x)%Z) by (apply inject_Z_lt_succ; lra).
  lia.
Qed.

(** [std_round] at a tie [k + 1/2]: away from zero. *)
Lemma std_round_half_away (x : Q) (k : Z) :
  x == inject_Z k + (1 # 2) ->
  std_round x = inject_Z (if (0 <=? k)%Z then k + 1 else k).
Proof.
  intro Hx.
  pose proof (floor_at_half x k Hx) as Hf.
  assert (Ht : x - inject_Z (Qfloor x) == 1 # 2) by (rewrite Hf; lra).
  unfold std_round, TF.floor, TF.ceil.
  apply Qeq_bool_iff in Ht as Hb. rewrite Hb.
  rewrite (ceiling_at_half _ Ht), Hf.
  destruct (0 <=? k)%Z eqn:Ek.
  - apply Z.leb_le in Ek.
    assert (Hpos : TF.Qltb 0 x = true).
    { apply Qltb_lt.
      assert (inject_Z 0 <= inject_Z k) as H0 by (rewrite <- Zle_Qle; exact Ek).
      change (inject_Z 0) with 0 in H0. lra. }
    rewrite Hpos. reflexivity.
  - apply Z.leb_gt in Ek.
    assert (Hneg : TF.Qltb 0 x = false).
    { apply Qltb_ge.
      assert (inject_Z (k + 1) <= inject_Z 0) as H0 by (rewrite <- Zle_Qle; lia).
      rewrite inject_Z_succ in H0. change (inject_Z 0) with 0 in H0. lra. }
    rewrite Hneg. reflexivity.
Qed.

Lemma pow2_nonneg (p : Z) : (0 <= p)%Z -> 2 ^ p == inject_Z (2 ^ p).
Proof.
  intro Hp. rewrite (Zpower_Qpower 2 p Hp). reflexivity.
Qed.

Lemma pow2_opp (k : Z) : (0 <= k)%Z -> 2 ^ (- k) == / inject_Z (2 ^ k).
Proof.
  intro Hk. rewrite Qpower_opp, (pow2_nonneg k Hk). reflexivity.
Qed.

Lemma inject_pow2_pos (k : Z) : (0 <= k)%Z -> 0 < inject_Z (2 ^ k).
Proof.
  intro Hk. change 0 with (inject_Z 0). rewrite <- Zlt_Qlt.
  apply Z.pow_pos_nonneg; lia.
Qed.

(** Every bit width gives ordered bounds. *)
Lemma q_bounds_ordered (bit_width : N) :
  fst (q_bounds bit_width) <= snd (q_bounds bit_width).
Proof.
  unfold q_bounds, narrow_range. cbn [fst snd].
  assert (H : 1 # 2 <= 2 ^ (Z.of_N bit_width - 1)).
  { destruct bit_width as [| p].
    - cbn. intro H; discriminate H.
    - assert (Hk : (0 <= Z.of_N (N.pos p) - 1)%Z) by lia.
      rewrite (pow2_nonneg _ Hk).
      assert (H1 : inject_Z 1 <= inject_Z (2 ^ (Z.of_N (N.pos p) - 1))).
      { rewrite <- Zle_Qle.
        pose proof (Z.pow_pos_nonneg 2 (Z.of_N (N.pos p) - 1) ltac:(lia) Hk). lia. }
      change (inject_Z 1) with 1 in H1. lra. }
  lra.
Qed.

(** ** C1: rounding parity *)

(** C1. On the vector [2.3, 1.5, -1.5, 2.5, -2.5, -2.6] the three rounding
    functions return exactly: [py3_round] (half to even) 2, 2, -2, 2, -2, -3;
    [dpu_round] (half up) 2, 2, -1, 3, -2, -3; [std_round] (half away from
    zero) 2, 2, -2, 3, -3, -3. *)
Theorem rounding_parity :
  let v := [23 # 10; 3 # 2; - (3 # 2); 5 # 2; - (5 # 2); - (26 # 10)] in
  map py3_round v = [2; 2; -2; 2; -2; -3]
  /\ map dpu_round v = [2; 2; -1; 3; -2; -3]
  /\ map std_round v = [2; 2; -2; 3; -3; -3].
Proof. repeat split; reflexivity. Qed.

(** ** Clipping *)

Lemma clip_cases (r lo hi : Q) :
  lo <= hi ->
  (r < lo /\ TF.clip_by_value r lo hi == lo)
  \/ (lo <= r <= hi /\ TF.clip_by_value r lo hi == r)
  \/ (hi < r /\ TF.clip_by_value r lo hi == hi).
Proof.
  intro Hle. unfold TF.clip_by_value.
  destruct (Q.min_spec r hi) as [[H1 E1] | [H1 E1]];
    destruct (Q.max_spec (Qmin r hi) lo) as [[H2 E2] | [H2 E2]];
    destruct (Qlt_le_dec r lo) as [Ha | Ha];
    destruct (Qlt_le_dec hi r) as [Hb | Hb];
    try (exfalso; lra);
    first [ left; split; lra
          | right; left; split; [split |]; lra
          | right; right; split; lra ].
Qed.

(** ** C7: round trip of the symmetric kernels *)

Lemma sym_round_trip (round : Q -> Q) (s q_min q_max x : Q) :
  nearest round -> 0 < s -> q_min <= q_max ->
  q_min / s <= x -> x <= q_max / s ->
  Qabs (sym_dequantize (TF.clip_by_value (round (x * s)) q_min q_max) s q_min q_max - x)
  <= 1 / (2 * s).
Proof.
  intros Hr Hs Hq Hlo Hhi. unfold sym_dequantize.
  assert (Hs0 : ~ s == 0) by lra.
  assert (Hi : 0 < / s) by (apply Qinv_lt_0_compat; exact Hs).
  assert (Hlo' : q_min <= x * s).
  { apply (Qmult_le_r _ _ (/ s) Hi). unfold Qdiv in Hlo.
    setoid_replace (x * s * / s) with x by (field; exact Hs0). exact Hlo. }
  assert (Hhi' : x * s <= q_max).
  { apply (Qmult_le_r _ _ (/ s) Hi). unfold Qdiv in Hhi.
    setoid_replace (x * s * / s) with x by (field; exact Hs0). exact Hhi. }
  destruct (Hr (x * s)) as (z & Ez & Hz1 & Hz2). rewrite Ez.
  set (c := TF.clip_by_value (inject_Z z) q_min q_max).
  assert (Hc : x * s - (1 # 2) <= c /\ c <= x * s + (1 # 2)).
  { destruct (clip_cases (inject_Z z) q_min q_max Hq) as [[H E] | [[H E] | [H E]]];
      fold c in E; split; lra. }
  destruct Hc as [Hc1 Hc2].
  setoid_replace (c / s - x) with ((c - x * s) * / s) by (field; exact Hs0).
  setoid_replace (1 / (2 * s)) with ((1 # 2) * / s) by (field; exact Hs0).
  apply Qabs_Qle_condition. split.
  - setoid_replace (- ((1 # 2) * / s)) with ((- (1 # 2)) * / s) by ring.
    apply Qmult_le_compat_r; [lra | apply Qlt_le_weak; exact Hi].
  - apply Qmult_le_compat_r; [lra | apply Qlt_le_weak; exact Hi].
Qed.

Lemma clip_in_range (r lo hi : Q) :
  lo <= hi -> lo <= TF.clip_by_value r lo hi /\ TF.clip_by_value r lo hi <= hi.
Proof.
  intro Hle.
  destruct (clip_cases r lo hi Hle) as [[H E] | [[H E] | [H E]]]; split; lra.
Qed.

(** C7. For a scale [s > 0] and bounds [q_min <= q_max], both symmetric
    kernels (rounding half to even and half up) reconstruct every input [x]
    of [[q_min / s, q_max / s]] within [1 / (2 s)], and their quantized
    output lies in [[q_min, q_max]] for every input, inside that interval or
    not. *)
Theorem sym_quantize_round_trip_bound (s q_min q_max x : Q) :
  0 < s -> q_min <= q_max ->
  (q_min / s <= x /\ x <= q_max / s ->
   Qabs (sym_dequantize (py3_sym_quantize x s q_min q_max) s q_min q_max - x)
     <= 1 / (2 * s)
   /\ Qabs (sym_dequantize (dpu_sym_quantize x s q_min q_max) s q_min q_max - x)
     <= 1 / (2 * s))
  /\ (q_min <= py3_sym_quantize x s q_min q_max
      /\ py3_sym_quantize x s q_min q_max <= q_max)
  /\ (q_min <= dpu_sym_quantize x s q_min q_max
      /\ dpu_sym_quantize x s q_min q_max <= q_max).
Proof.
  intros Hs Hq. repeat split.
  - apply sym_round_trip; tauto || auto with rounding.
  - apply sym_round_trip; tauto || auto with rounding.
  - apply clip_in_range; exact Hq.
  - apply clip_in_range; exact Hq.
  - apply clip_in_range; exact Hq.
  - apply clip_in_range; exact Hq.
Qed.

Lemma sym_quantize_round_trip_bound_witness :
  (0 < 64 /\ -128 <= 127 /\ -128 / 64 <= 1 # 3 /\ 1 # 3 <= 127 / 64)
  /\ Qabs (sym_dequantize (py3_sym_quantize (1 # 3) 64 (-128) 127) 64 (-128) 127
           - (1 # 3)) <= 1 / (2 * 64)
  /\ -128 <= dpu_sym_quantize 1000 64 (-128) 127 <= 127.
Proof.
  assert (H0 : 0 < 64) by reflexivity.
  assert (H1 : -128 <= 127) by (intro H; discriminate H).
  assert (H2 : -128 / 64 <= 1 # 3 /\ 1 # 3 <= 127 / 64)
    by (split; intro H; discriminate H).
  split; [tauto | split].
  - exact (proj1 (proj1 (sym_quantize_round_trip_bound 64 (-128) 127 (1 # 3) H0 H1) H2)).
  - exact (proj2 (proj2 (sym_quantize_round_trip_bound 64 (-128) 127 1000 H0 H1))).
Defined.

(** ** C6: the zero point *)

Lemma div_pos_sign (a s : Q) : 0 < s -> (a <= 0 -> a / s <= 0) /\ (0 <= a -> 0 <= a / s).
Proof.
  intro Hs. assert (Hi : 0 <= / s) by (apply Qlt_le_weak, Qinv_lt_0_compat; exact Hs).
  unfold Qdiv. split; intro Ha.
  - setoid_replace 0 with (0 * / s) by ring.
    apply Qmult_le_compat_r; assumption.
  - apply Qmult_le_0_compat; assumption.
Qed.

(** C6. For a scale [s > 0] and integer bounds [q_min < q_max], the zero
    point returned by [quantize_zero_point] is an integer of
    [[q_min, q_max]]: it is [q_min] when the unrounded zero point is below
    [q_min], [q_max] when it is above [q_max], and [std_round] of it
    otherwise, a nearest integer that at a tie [k + 1/2] is the one away from
    zero; and when the range spans zero the recomputed bounds
    [(q_min - q_zero_point) / s] and [(q_max - q_zero_point) / s] satisfy
    [new_f_min <= 0 <= new_f_max]. *)
Theorem quantize_zero_point_in_range (s f_min f_max : Q) (q_min q_max : Z) :
  0 < s -> (q_min < q_max)%Z ->
  let f_zero_point := inject_Z q_min - f_min * s in
  let '(q_zero_point, new_f_min, new_f_max) :=
    quantize_zero_point s f_min f_max (inject_Z q_min) (inject_Z q_max) in
  (exists z : Z, q_zero_point = inject_Z z /\ (q_min <= z <= q_max)%Z)
  /\ (f_zero_point < inject_Z q_min -> q_zero_point = inject_Z q_min)
  /\ (inject_Z q_max < f_zero_point -> q_zero_point = inject_Z q_max)
  /\ (inject_Z q_min <= f_zero_point /\ f_zero_point <= inject_Z q_max ->
      q_zero_point = std_round f_zero_point
      /\ Qabs (q_zero_point - f_zero_point) <= 1 # 2
      /\ forall k : Z,
           f_zero_point == inject_Z k + (1 # 2) ->
           q_zero_point = inject_Z (if (0 <=? k)%Z then k + 1 else k))
  /\ (f_min <= 0 /\ 0 <= f_max ->
      new_f_min == (inject_Z q_min - q_zero_point) / s
      /\ new_f_max == (inject_Z q_max - q_zero_point) / s
      /\ new_f_min <= 0 /\ 0 <= new_f_max).
Proof.
  intros Hs Hq. cbv zeta. unfold quantize_zero_point.
  set (fz := inject_Z q_min - f_min * s).
  assert (Hq' : inject_Z q_min < inject_Z q_max) by (rewrite <- Zlt_Qlt; exact Hq).
  assert (Hint : exists z : Z,
             (if TF.Qltb (inject_Z q_max) fz then inject_Z q_max
              else if TF.Qltb fz (inject_Z q_min) then inject_Z q_min
                   else std_round fz) = inject_Z z /\ (q_min <= z <= q_max)%Z).
  { destruct (TF.Qltb (inject_Z q_max) fz) eqn:Ea.
    - exists q_max. split; [reflexivity | lia].
    - destruct (TF.Qltb fz (inject_Z q_min)) eqn:Eb.
      + exists q_min. split; [reflexivity | lia].
      + apply Qltb_ge in Ea, Eb.
        pose proof (nearest_ge_int std_round std_round_nearest q_min fz Eb) as G1.
        pose proof (nearest_le_int std_round std_round_nearest q_max fz Ea) as G2.
        destruct (std_round_nearest fz) as (z & Ez & _). rewrite Ez in *.
        exists z. split; [reflexivity|]. rewrite <- Zle_Qle in G1, G2. lia. }
  destruct Hint as (z & Ez & Hz). rewrite Ez.
  assert (Hz1 : inject_Z q_min <= inject_Z z) by (rewrite <- Zle_Qle; lia).
  assert (Hz2 : inject_Z z <= inject_Z q_max) by (rewrite <- Zle_Qle; lia).
  split; [exists z; split; [reflexivity | exact Hz] |].
  rewrite <- Ez. split; [| split; [| split]].
  - intro H. apply Qltb_lt in H as Hb. rewrite Hb.
    assert (Ha : TF.Qltb (inject_Z q_max) fz = false) by (apply Qltb_ge; lra).
    rewrite Ha. reflexivity.
  - intro H. apply Qltb_lt in H. rewrite H. reflexivity.
  - intros [H1 H2]. apply Qltb_ge in H1, H2. rewrite H1, H2.
    split; [reflexivity | split].
    + destruct (std_round_nearest fz) as (r & Er & R1 & R2). rewrite Er.
      apply Qabs_Qle_condition. split; lra.
    + intros k Hk. apply std_round_half_away. exact Hk.
  - intros _. split; [reflexivity | split; [reflexivity |]].
    rewrite Ez. split; apply (div_pos_sign _ s Hs); lra.
Qed.

Lemma quantize_zero_point_in_range_witness :
  0 < 2 /\ (-128 < 127)%Z
  /\ exists z : Z,
       fst (fst (quantize_zero_point 2 (-1) 1 (inject_Z (-128)) (inject_Z 127)))
       = inject_Z z /\ (-128 <= z <= 127)%Z.
Proof.
  assert (H0 : 0 < 2) by reflexivity.
  assert (H1 : (-128 < 127)%Z) by reflexivity.
  split; [exact H0 | split; [exact H1 |]].
  pose proof (quantize_zero_point_in_range 2 (-1) 1 (-128) 127 H0 H1) as H.
  cbv zeta in H.
  destruct (quantize_zero_point 2 (-1) 1 (inject_Z (-128)) (inject_Z 127)) as [[zp a] b].
  exact (proj1 H).
Defined.

(** ** C8: the non-overflow position *)

Lemma frac_le_int (n K : Z) (d : positive) :
  (n # d) <= inject_Z K <-> (n <= K * Zpos d)%Z.
Proof. unfold Qle; simpl. rewrite Z.mul_1_r. reflexivity. Qed.

Lemma int_lt_frac (n K : Z) (d : positive) :
  inject_Z K < (n # d) <-> (K * Zpos d < n)%Z.
Proof. unfold Qlt; simpl. rewrite Z.mul_1_r. reflexivity. Qed.

(** [floor_neg_log2 x] is the integer part of [- log2 x]: the power of two
    [2 ^ p] brackets [1 / x]. *)
Lemma floor_neg_log2_spec (x : Q) :
  0 < x ->
  2 ^ TF.floor_neg_log2 x * x <= 1 /\ 1 < 2 ^ (TF.floor_neg_log2 x + 1) * x.
Proof.
  destruct x as [n d]. intro Hx.
  assert (Hn : (0 < n)%Z) by (unfold Qlt in Hx; simpl in Hx; lia).
  unfold TF.floor_neg_log2. simpl Qnum. simpl Qden.
  destruct (n <=? 0)%Z eqn:E0; [apply Z.leb_le in E0; lia |].
  destruct (n <=? Zpos d)%Z eqn:E1.
  - apply Z.leb_le in E1.
    set (m := (Zpos d / n)%Z).
    assert (Hm : (0 < m)%Z) by (apply Z.div_str_pos; lia).
    destruct (Z.log2_spec m Hm) as [L1 L2].
    pose proof (Z.log2_nonneg m) as L0.
    pose proof (Z.mul_div_le (Zpos d) n Hn) as D1.
    pose proof (Z.mul_succ_div_gt (Zpos d) n Hn) as D2.
    fold m in D1, D2.
    rewrite (pow2_nonneg (Z.log2 m)), (pow2_nonneg (Z.log2 m + 1)) by lia.
    change (Z.succ (Z.log2 m)) with (Z.log2 m + 1)%Z in L2.
    split.
    + unfold Qle, Qmult; simpl. nia.
    + unfold Qlt, Qmult; simpl. nia.
  - apply Z.leb_gt in E1.
    set (c := ((n + Zpos d - 1) / Zpos d)%Z).
    assert (Hd : (0 < Zpos d)%Z) by lia.
    pose proof (Z.mul_div_le (n + Zpos d - 1) (Zpos d) Hd) as D1.
    pose proof (Z.mul_succ_div_gt (n + Zpos d - 1) (Zpos d) Hd) as D2.
    fold c in D1, D2.
    assert (Hc : (1 < c)%Z) by nia.
    destruct (Z.log2_up_spec c Hc) as [L1 L2].
    pose proof (Z.log2_up_pos c Hc) as L0.
    set (k := Z.log2_up c) in *.
    replace (- k + 1)%Z with (- (k - 1))%Z by lia.
    rewrite (pow2_opp k), (pow2_opp (k - 1)) by lia.
    replace (Z.pred k) with (k - 1)%Z in L1 by lia.
    pose proof (inject_pow2_pos k ltac:(lia)) as P1.
    pose proof (inject_pow2_pos (k - 1) ltac:(lia)) as P2.
    split.
    + rewrite Qmult_comm. apply Qle_shift_div_r; [exact P1 |].
      rewrite Qmult_1_l. apply frac_le_int. nia.
    + rewrite Qmult_comm. apply Qlt_shift_div_l; [exact P2 |].
      rewrite Qmult_1_l. apply int_lt_frac. nia.
Qed.

(** The same bracket read with the real logarithm: [p] is the integer part
    of [- ln x / ln 2]. *)

Lemma ln_le_mono (a b : R) : (0 < a)%R -> (a <= b)%R -> (ln a <= ln b)%R.
Proof.
  intros Ha [Hlt | Heq].
  - left. apply ln_increasing; assumption.
  - subst. right. reflexivity.
Qed.

Lemma Q2R_two : Q2R 2 = 2%R.
Proof. unfold Q2R. simpl. lra. Qed.

Lemma ln_pow2_mul (p : Z) (X : R) :
  (0 < X)%R -> ln (Q2R (2 ^ p) * X) = (IZR p * ln 2 + ln X)%R.
Proof.
  intro HX.
  rewrite RMicromega.Q2RpowerRZ by (left; intro H; discriminate H).
  rewrite Q2R_two, powerRZ_Rpower by lra.
  rewrite ln_mult; [| apply exp_pos | exact HX].
  unfold Rpower. rewrite ln_exp. reflexivity.
Qed.

Lemma ln2_pos : (0 < ln 2)%R.
Proof. pose proof ln_lt_2. lra. Qed.

Lemma log2_bracket (p : Z) (x : Q) :
  0 < x -> 2 ^ p * x <= 1 -> 1 < 2 ^ (p + 1) * x ->
  (IZR p <= - ln (Q2R x) / ln 2 < IZR p + 1)%R.
Proof.
  intros Hx H1 H2.
  assert (HX : (0 < Q2R x)%R).
  { replace 0%R with (Q2R 0) by (unfold Q2R; simpl; lra). apply Qlt_Rlt, Hx. }
  assert (HP : forall k, (0 < Q2R (2 ^ k) * Q2R x)%R).
  { intro k. apply Rmult_lt_0_compat; [| exact HX].
    replace 0%R with (Q2R 0) by (unfold Q2R; simpl; lra).
    apply Qlt_Rlt, Qpower_0_lt. reflexivity. }
  apply Qle_Rle in H1. apply Qlt_Rlt in H2.
  rewrite Q2R_mult in H1, H2.
  replace (Q2R 1) with 1%R in H1, H2 by (unfold Q2R; simpl; lra).
  apply (ln_le_mono _ _ (HP p)) in H1.
  apply (ln_increasing _ _ Rlt_0_1) in H2.
  rewrite ln_1 in H1, H2.
  rewrite (ln_pow2_mul p _ HX) in H1.
  rewrite (ln_pow2_mul (p + 1) _ HX) in H2.
  rewrite plus_IZR in H2.
  pose proof ln2_pos as HL.
  split.
  - apply Rmult_le_reg_r with (ln 2); [exact HL |].
    unfold Rdiv. rewrite Rmult_assoc, Rinv_l by lra. lra.
  - apply Rmult_lt_reg_r with (ln 2); [exact HL |].
    unfold Rdiv. rewrite Rmult_assoc, Rinv_l by lra. lra.
Qed.

Lemma epsilon_pos : 0 < TF.epsilon.
Proof. reflexivity. Qed.

Lemma pow2_inject (p : Z) : TF.pow2 (inject_Z p) = 2 ^ p.
Proof. unfold TF.pow2. rewrite Qfloor_Z. reflexivity. Qed.

(** Scaled by a power of two that brings the range below the integer
    bounds, no element of the range leaves the bounds. *)
Lemma scaled_in_bounds (f_min f_max s P x : Q) (q_min q_max : Z) :
  (q_min < 0)%Z -> (0 < q_max)%Z -> 0 < P -> P * s <= 1 ->
  f_min / inject_Z q_min <= s -> f_max / inject_Z q_max <= s ->
  f_min <= x -> x <= f_max ->
  inject_Z q_min <= x * P /\ x * P <= inject_Z q_max.
Proof.
  intros Hn Hp HP HPs Ha Hb Hlo Hhi.
  assert (Hqn : inject_Z q_min < 0)
    by (change 0 with (inject_Z 0); rewrite <- Zlt_Qlt; exact Hn).
  assert (Hqp : 0 < inject_Z q_max)
    by (change 0 with (inject_Z 0); rewrite <- Zlt_Qlt; exact Hp).
  set (qn := inject_Z q_min) in *. set (qp := inject_Z q_max) in *.
  assert (Ea : f_min == f_min / qn * qn) by (field; lra).
  assert (Eb : f_max == f_max / qp * qp) by (field; lra).
  set (a := f_min / qn) in *. set (b := f_max / qp) in *.
  split.
  - (* q_min <= q_min * (P s) <= a q_min P = f_min P <= x P *)
    assert (H1 : qn <= qn * (P * s)) by nra.
    assert (H2 : qn * (P * s) <= a * qn * P).
    { setoid_replace (qn * (P * s)) with (s * (qn * P)) by ring.
      setoid_replace (a * qn * P) with (a * (qn * P)) by ring.
      assert (qn * P < 0) by nra. nra. }
    assert (H3 : f_min * P <= x * P) by nra.
    rewrite Ea in H3. lra.
  - assert (H1 : qp * (P * s) <= qp) by nra.
    assert (H2 : b * qp * P <= qp * (P * s)).
    { setoid_replace (qp * (P * s)) with (s * (qp * P)) by ring.
      setoid_replace (b * qp * P) with (b * (qp * P)) by ring.
      assert (0 < qp * P) by nra. nra. }
    assert (H3 : x * P <= f_max * P) by nra.
    rewrite Eb in H3. lra.
Qed.

(** C8. For a range [f_min <= 0 <= f_max] and integer bounds
    [q_min < 0 < q_max], the symmetric non-overflow search returns the
    integer part [p] of [- log2 (max (f_min / q_min) (f_max / q_max) epsilon)],
    and with the scale [2 ^ p] no value of [[f_min, f_max]] saturates: its
    rounded scaled value lies in [[q_min, q_max]] and the clip of either
    symmetric kernel leaves it unchanged. *)
Theorem non_overflow_sym_no_saturation {I D : Type} (inputs : I)
    (f_min f_max : Q) (q_min q_max : Z) (per_channel : bool) (reduce_dims : D) :
  f_min <= 0 -> 0 <= f_max -> (q_min < 0)%Z -> (0 < q_max)%Z ->
  let scale_inv :=
    Qmax (Qmax (f_min / inject_Z q_min) (f_max / inject_Z q_max)) TF.epsilon in
  exists p : Z,
    get_quantize_pos_non_overflow_sym inputs f_min f_max (inject_Z q_min)
                                      (inject_Z q_max) per_channel reduce_dims
    = inject_Z p
    /\ (IZR p <= - ln (Q2R scale_inv) / ln 2 < IZR p + 1)%R
    /\ forall x : Q, f_min <= x -> x <= f_max ->
         let scale := TF.pow2 (inject_Z p) in
         (inject_Z q_min <= py3_round (x * scale)
          /\ py3_round (x * scale) <= inject_Z q_max
          /\ py3_sym_quantize x scale (inject_Z q_min) (inject_Z q_max)
             == py3_round (x * scale))
         /\ (inject_Z q_min <= dpu_round (x * scale)
             /\ dpu_round (x * scale) <= inject_Z q_max
             /\ dpu_sym_quantize x scale (inject_Z q_min) (inject_Z q_max)
                == dpu_round (x * scale)).
Proof.
  intros Hmin Hmax Hn Hp scale_inv.
  assert (Hs : 0 < scale_inv).
  { pose proof epsilon_pos.
    pose proof (Q.le_max_r (Qmax (f_min / inject_Z q_min) (f_max / inject_Z q_max))
                           TF.epsilon).
    fold scale_inv in H0. lra. }
  destruct (floor_neg_log2_spec scale_inv Hs) as [B1 B2].
  exists (TF.floor_neg_log2 scale_inv). split; [reflexivity |].
  split; [apply log2_bracket; assumption |].
  intros x Hlo Hhi scale. unfold scale. rewrite pow2_inject.
  set (P := 2 ^ TF.floor_neg_log2 scale_inv) in *.
  assert (HP : 0 < P) by (apply Qpower_0_lt; reflexivity).
  assert (Ha : f_min / inject_Z q_min <= scale_inv).
  { unfold scale_inv.
    eapply Qle_trans; [apply Q.le_max_l |].
    eapply Qle_trans; [apply Q.le_max_l |]. apply Qle_refl. }
  assert (Hb : f_max / inject_Z q_max <= scale_inv).
  { unfold scale_inv.
    eapply Qle_trans; [apply Q.le_max_r |].
    eapply Qle_trans; [apply Q.le_max_l |]. apply Qle_refl. }
  destruct (scaled_in_bounds f_min f_max scale_inv P x q_min q_max
              Hn Hp HP B1 Ha Hb Hlo Hhi) as [G1 G2].
  assert (Hq : inject_Z q_min <= inject_Z q_max) by (rewrite <- Zle_Qle; lia).
  assert (Hround : forall round, nearest round ->
            inject_Z q_min <= round (x * P) /\ round (x * P) <= inject_Z q_max
            /\ TF.clip_by_value (round (x * P)) (inject_Z q_min) (inject_Z q_max)
               == round (x * P)).
  { intros round Hr.
    pose proof (nearest_ge_int round Hr q_min (x * P) G1) as R1.
    pose proof (nearest_le_int round Hr q_max (x * P) G2) as R2.
    split; [exact R1 | split; [exact R2 |]].
    destruct (clip_cases (round (x * P)) (inject_Z q_min) (inject_Z q_max) Hq)
      as [[H E] | [[H E] | [H E]]]; lra. }
  split.
  - apply Hround; auto with rounding.
  - apply Hround; auto with rounding.
Qed.

Lemma non_overflow_sym_no_saturation_witness :
  (-1 <= 0 /\ 0 <= 1 /\ (-128 < 0)%Z /\ (0 < 127)%Z)
  /\ exists p : Z,
       get_quantize_pos_non_overflow_sym tt (-1) 1 (inject_Z (-128)) (inject_Z 127)
                                         false tt = inject_Z p
       /\ forall x : Q, -1 <= x -> x <= 1 ->
            dpu_sym_quantize x (TF.pow2 (inject_Z p)) (inject_Z (-128)) (inject_Z 127)
            == dpu_round (x * TF.pow2 (inject_Z p)).
Proof.
  assert (H0 : -1 <= 0) by (intro H; discriminate H).
  assert (H1 : 0 <= 1) by (intro H; discriminate H).
  assert (H2 : (-128 < 0)%Z) by reflexivity.
  assert (H3 : (0 < 127)%Z) by reflexivity.
  split; [tauto |].
  destruct (non_overflow_sym_no_saturation tt (-1) 1 (-128) 127 false tt H0 H1 H2 H3)
    as (p & Ep & _ & Hx).
  exists p. split; [exact Ep |].
  intros x Hlo Hhi. exact (proj2 (proj2 (proj2 (Hx x Hlo Hhi)))).
Defined.

(** ** C3: position search on an asymmetric configuration *)

(** C3, as the code has it. With [symmetry] false [get_quantize_pos] never
    reads [method] or [round_mode]: whatever they are, the min-diffs method
    included, it raises nothing and returns the asymmetric non-overflow
    position of the range. For a per-tensor range [lo, hi] that position is
    the integer part of
    [- log2 (max ((hi - lo) / (q_max - q_min)) epsilon)]. *)
Theorem get_quantize_pos_asym_is_non_overflow {D : Type}
    (inputs f_min f_max : Tensor) (bit_width : N) (method round_mode : Z)
    (per_channel : bool) (reduce_dims : D) :
  let q_min := fst (q_bounds bit_width) in
  let q_max := snd (q_bounds bit_width) in
  get_quantize_pos inputs f_min f_max bit_width method round_mode per_channel
                   reduce_dims false
  = inr (tmap2 (fun lo hi =>
                  get_quantize_pos_non_overflow_asym inputs lo hi q_min q_max
                                                     per_channel reduce_dims)
               f_min f_max)
  /\ forall lo hi : Q,
       exists p : Z,
         get_quantize_pos inputs (scalar lo) (scalar hi) bit_width method
                          round_mode per_channel reduce_dims false
         = inr (scalar (inject_Z p))
         /\ (IZR p
             <= - ln (Q2R (Qmax ((hi - lo) / (q_max - q_min)) TF.epsilon)) / ln 2
             < IZR p + 1)%R.
Proof.
  intros q_min q_max. split; [reflexivity |].
  intros lo hi.
  set (scale_inv := Qmax ((hi - lo) / (q_max - q_min)) TF.epsilon).
  exists (TF.floor_neg_log2 scale_inv). split; [reflexivity |].
  assert (Hs : 0 < scale_inv).
  { pose proof epsilon_pos.
    pose proof (Q.le_max_r ((hi - lo) / (q_max - q_min)) TF.epsilon) as Hm.
    fold scale_inv in Hm. lra. }
  destruct (floor_neg_log2_spec scale_inv Hs) as [B1 B2].
  apply log2_bracket; assumption.
Qed.

(** The min-diffs method on the asymmetric range [[0, 1]] at 8 bits: no
    configuration error, the non-overflow position 7 is returned. *)
Lemma get_quantize_pos_asym_min_diffs_no_error :
  get_quantize_pos (vec [1]) (scalar 0) (scalar 1) 8 1 0 false tt false
  = inr (scalar 7)
  /\ ~ exists e : error,
         get_quantize_pos (vec [1]) (scalar 0) (scalar 1) 8 1 0 false tt false = inl e.
Proof.
  split; [reflexivity |]. intros [e He]. discriminate He.
Qed.

(** ** The mode state machine *)

Lemma mode_neq (mode m : string) : mode <> m -> String.eqb mode m = false.
Proof. intro H. apply String.eqb_neq. exact H. Qed.

(** The log-threshold kernels exist for the first two round modes only. *)
Lemma get_quantize_kernel_log_th (round_mode : Z) :
  get_quantize_kernel "LOG_TH" round_mode true false
  = if (round_mode =? 0)%Z then inr LOG_TH_PY3_SYM
    else if (round_mode =? 1)%Z then inr LOG_TH_DPU_SYM
    else if (round_mode =? 2)%Z
         then inl (ConfigurationError "Invalid quantize kernel")
         else inl (ConfigurationError "Invalid round mode").
Proof.
  unfold get_quantize_kernel.
  destruct (round_mode =? 0)%Z; [reflexivity |].
  destruct (round_mode =? 1)%Z; [reflexivity |].
  destruct (round_mode =? 2)%Z; reflexivity.
Qed.

(** The min-max kernels exist for the first round mode only. *)
Lemma get_quantize_kernel_min_max (round_mode : Z) (symmetry per_channel : bool) :
  get_quantize_kernel "MIN_MAX" round_mode symmetry per_channel
  = if (round_mode =? 0)%Z then
      inr (match symmetry, per_channel with
           | true, false => MIN_MAX_PY3_SYM
           | true, true => MIN_MAX_PY3_SYM_PERC
           | false, false => MIN_MAX_PY3_ASYM
           | false, true => MIN_MAX_PY3_ASYM_PERC
           end)
    else if (round_mode =? 1)%Z || (round_mode =? 2)%Z
         then inl (ConfigurationError "Invalid quantize kernel")
         else inl (ConfigurationError "Invalid round mode").
Proof.
  unfold get_quantize_kernel.
  destruct (round_mode =? 0)%Z; [destruct symmetry, per_channel; reflexivity |].
  destruct (round_mode =? 1)%Z; [destruct symmetry, per_channel; reflexivity |].
  destruct (round_mode =? 2)%Z; [destruct symmetry, per_channel; reflexivity |].
  reflexivity.
Qed.

(** Whatever the mode, the log-threshold operation writes [log_th_var] only
    when the mode is QCB. *)
Lemma LastValueLogThQuantize_log_th_frame (inputs : Tensor) (bit_width : N)
    (method round_mode : Z) (mode : string) (is_training : bool) (s : Store) :
  mode <> "QCB"%string ->
  log_th_var (fst (LastValueLogThQuantize inputs bit_width method round_mode mode
                                          is_training s))
  = log_th_var s.
Proof.
  intro Hm. unfold LastValueLogThQuantize, bind, lift.
  destruct (get_quantize_kernel "LOG_TH" round_mode true false) as [e | k];
    [reflexivity |].
  rewrite (mode_neq _ _ Hm), orb_false_r.
  destruct (String.eqb mode "ANALYSE").
  - destruct (get_min_max inputs bit_width true false None) as [bmin bmax].
    reflexivity.
  - destruct is_training.
    + destruct (get_min_max inputs bit_width true false None) as [bmin bmax].
      unfold bind, assign, read_log_th, set_var, get_var, ok.
      destruct_call; reflexivity.
    + unfold bind, read_log_th, ok. destruct_call; reflexivity.
Qed.

(** ** C2: what a training step writes *)

(** C2, as the code has it. In TRAIN mode ([is_training] true, mode not QCB)
    the log-threshold operation leaves [log_th_var] unchanged. The
    quantize-position operation, unless the mode is ANALYSE, runs the very
    branch CALIBRATE runs: it assigns the batch range to [min_var] and
    [max_var], recomputes the position from it with [get_quantize_pos] and
    writes that position to [quant_pos_var]. *)
Theorem train_step_state_updates (inputs : Tensor) (bit_width : N)
    (method round_mode : Z) (mode : string) (symmetry per_channel : bool)
    (channel_axis : Z) (s : Store) :
  mode <> "QCB"%string ->
  log_th_var (fst (LastValueLogThQuantize inputs bit_width method round_mode mode
                                          true s))
  = log_th_var s
  /\ (mode <> "ANALYSE"%string ->
      LastValueQuantPosQuantize inputs bit_width method round_mode mode true
                                symmetry per_channel channel_axis s
      = LastValueQuantPosQuantize inputs bit_width method round_mode "QCB" true
                                  symmetry per_channel channel_axis s
      /\ forall (k : kernel) (p : Tensor),
           let reduce_dims :=
             if per_channel then Some (get_reduce_dims (shape inputs) channel_axis)
             else None in
           let range :=
             get_min_max inputs bit_width symmetry per_channel reduce_dims in
           get_quantize_kernel "QUANTIZE_POS" round_mode symmetry per_channel = inr k ->
           get_quantize_pos inputs (fst range) (snd range) bit_width method round_mode
                            per_channel channel_axis symmetry = inr p ->
           let s' := fst (LastValueQuantPosQuantize inputs bit_width method round_mode
                            mode true symmetry per_channel channel_axis s) in
           value (quant_pos_var s') = p
           /\ value (min_var s') = fst range
           /\ value (max_var s') = snd range
           /\ log_th_var s' = log_th_var s).
Proof.
  intro Hq. split.
  - apply LastValueLogThQuantize_log_th_frame. exact Hq.
  - intro Ha. split.
    + unfold LastValueQuantPosQuantize. rewrite (mode_neq _ _ Ha). reflexivity.
    + intros k p reduce_dims range Hk Hp s'. unfold s', LastValueQuantPosQuantize.
      fold reduce_dims. rewrite Hk, (mode_neq _ _ Ha).
      unfold bind at 1. unfold lift at 1. cbv beta iota. cbn [orb].
      fold range. destruct range as [rmin rmax]. cbn [fst snd] in Hp.
      unfold bind, assign, lift, set_var, get_var, ok. rewrite Hp.
      destruct symmetry, per_channel; destruct_call; cbn; repeat split; reflexivity.
Qed.

Lemma train_step_state_updates_witness :
  "QAT"%string <> "QCB"%string
  /\ log_th_var (fst (LastValueLogThQuantize (vec [1]) 8 0 1 "QAT" true initial_store))
     = log_th_var initial_store.
Proof.
  assert (H : "QAT"%string <> "QCB"%string) by (intro E; discriminate E).
  split; [exact H |].
  exact (proj1 (train_step_state_updates (vec [1]) 8 0 1 "QAT" true false (-1)
                                         initial_store H)).
Defined.

(** A calibration on the batch [1] fixes the position 6; a training step on
    the batch [4] then overwrites it with 4. *)
Lemma train_step_rewrites_quant_pos :
  let calibrated :=
    fst (LastValueQuantPosQuantize (vec [1]) 8 0 1 "QCB" false true false (-1)
                                   initial_store) in
  let trained :=
    fst (LastValueQuantPosQuantize (vec [4]) 8 0 1 "QAT" true true false (-1)
                                   calibrated) in
  value (quant_pos_var calibrated) = scalar 6
  /\ value (quant_pos_var trained) = scalar 4
  /\ quant_pos_var trained <> quant_pos_var calibrated.
Proof.
  cbv zeta. split; [reflexivity | split; [reflexivity |]].
  intro H. discriminate H.
Qed.

(** ** C5: ANALYSE mode *)

(** C5, as the code has it. In ANALYSE mode every quantize operation whose
    kernel lookup succeeds returns its input unchanged. The three last-value
    operations assign the batch range to [min_var] and [max_var] directly.
    The moving-average operation does not: it updates both through
    [assign_moving_average] with [zero_debias] false, which moves each
    variable towards the batch value by [(variable - batch) * (1 - decay)]. *)
Theorem analyse_mode_identity_and_updates (inputs : Tensor) (bit_width : N)
    (method round_mode : Z) (is_training symmetry per_channel : bool)
    (channel_axis : Z) (ema_decay : Q) (s : Store) :
  let reduce_dims :=
    if per_channel then Some (get_reduce_dims (shape inputs) channel_axis) else None in
  let range := get_min_max inputs bit_width symmetry per_channel reduce_dims in
  let range_asym := get_min_max inputs bit_width false per_channel reduce_dims in
  let range_log_th := get_min_max inputs bit_width true false None in
  ((exists k, get_quantize_kernel "MIN_MAX" round_mode symmetry per_channel = inr k) ->
   LastValueMinMaxQuantize inputs bit_width round_mode "ANALYSE" is_training
                           symmetry per_channel channel_axis s
   = (assign_range (fst range) (snd range) s, inr inputs))
  /\ ((exists k, get_quantize_kernel "QUANTIZE_POS" round_mode symmetry per_channel
                = inr k) ->
      LastValueQuantPosQuantize inputs bit_width method round_mode "ANALYSE"
                                is_training symmetry per_channel channel_axis s
      = (assign_range (fst range) (snd range) s, inr inputs))
  /\ ((exists k, get_quantize_kernel "LOG_TH" round_mode true false = inr k) ->
      LastValueLogThQuantize inputs bit_width method round_mode "ANALYSE"
                             is_training s
      = (assign_range (fst range_log_th) (snd range_log_th) s, inr inputs))
  /\ ((exists k, get_quantize_kernel "MIN_MAX" round_mode false per_channel = inr k) ->
      MovingAvgMinMaxQuantize inputs bit_width round_mode "ANALYSE" is_training
                              per_channel channel_axis ema_decay s
      = (average_range (fst range_asym) (snd range_asym) ema_decay false s,
         inr inputs))
  /\ (forall lo hi : Tensor,
        value (min_var (assign_range lo hi s)) = lo
        /\ value (max_var (assign_range lo hi s)) = hi
        /\ value (min_var (average_range lo hi ema_decay false s))
           = tmap2 (fun u y => u - (u - y) * (1 - ema_decay)) (value (min_var s)) lo
        /\ value (max_var (average_range lo hi ema_decay false s))
           = tmap2 (fun u y => u - (u - y) * (1 - ema_decay)) (value (max_var s)) hi).
Proof.
  intros reduce_dims range range_asym range_log_th.
  split; [| split; [| split; [| split]]].
  - intros [k Hk]. unfold LastValueMinMaxQuantize. fold reduce_dims.
    rewrite Hk. fold range. destruct range as [lo hi]. reflexivity.
  - intros [k Hk]. unfold LastValueQuantPosQuantize. fold reduce_dims.
    rewrite Hk. fold range. destruct range as [lo hi]. reflexivity.
  - intros [k Hk]. unfold LastValueLogThQuantize.
    rewrite Hk. fold range_log_th. destruct range_log_th as [lo hi]. reflexivity.
  - intros [k Hk]. unfold MovingAvgMinMaxQuantize. fold reduce_dims.
    rewrite Hk. fold range_asym. destruct range_asym as [lo hi]. reflexivity.
  - intros lo hi. repeat split; reflexivity.
Qed.

Lemma analyse_mode_identity_and_updates_witness :
  (exists k, get_quantize_kernel "MIN_MAX" 0 false false = inr k)
  /\ MovingAvgMinMaxQuantize (vec [-1; 1]) 8 0 "ANALYSE" false false (-1)
                             (999 # 1000) initial_store
     = (average_range (scalar (-1)) (scalar 1) (999 # 1000) false initial_store,
        inr (vec [-1; 1])).
Proof.
  assert (H : exists k, get_quantize_kernel "MIN_MAX" 0 false false = inr k)
    by (exists MIN_MAX_PY3_ASYM; reflexivity).
  split; [exact H |].
  exact (proj1 (proj2 (proj2 (proj2
           (analyse_mode_identity_and_updates (vec [-1; 1]) 8 0 0 false false false
                                              (-1) (999 # 1000) initial_store)))) H).
Defined.

(** On the batch [-1, 1], from the initial store and with decay 0.999, the
    moving-average operation in ANALYSE mode leaves [-1/1000] in [min_var],
    not the batch minimum [-1]. *)
Lemma analyse_moving_average_not_direct :
  let run :=
    MovingAvgMinMaxQuantize (vec [-1; 1]) 8 0 "ANALYSE" false false (-1)
                            (999 # 1000) initial_store in
  let batch_min := fst (get_min_max (vec [-1; 1]) 8 false false None) in
  snd run = inr (vec [-1; 1])
  /\ batch_min = scalar (-1)
  /\ data (value (min_var (fst run))) = [-1 # 1000]
  /\ value (min_var (fst run)) <> batch_min.
Proof.
  cbv zeta. split; [reflexivity | split; [reflexivity | split; [reflexivity |]]].
  intro H. discriminate H.
Qed.

(** ** C10: the moving-average operation is asymmetric *)

(** An asymmetric range estimate contains zero, element by element. *)
Lemma get_min_max_asym_contains_zero (inputs : Tensor) (bit_width : N)
    (per_channel : bool) (reduce_dims : option (list nat)) :
  Forall (fun v => v <= 0)
         (data (fst (get_min_max inputs bit_width false per_channel reduce_dims)))
  /\ Forall (fun v => 0 <= v)
            (data (snd (get_min_max inputs bit_width false per_channel reduce_dims))).
Proof.
  unfold get_min_max.
  destruct (if per_channel
            then if (2 <=? Datatypes.length (shape inputs))%nat
                 then (reduce_min_axes inputs reduce_dims,
                       reduce_max_axes inputs reduce_dims)
                 else (inputs, inputs)
            else (reduce_min inputs, reduce_max inputs)) as [bmin bmax].
  cbn [fst snd tmap data]. split; apply Forall_forall; intros v Hv;
    apply in_map_iff in Hv; destruct Hv as (u & <- & _).
  - apply Q.le_min_r.
  - apply Q.le_max_r.
Qed.

(** C10. [MovingAvgMinMaxQuantize] has no symmetry parameter and is
    asymmetric throughout. With round mode 0, the only one for which an
    asymmetric min-max kernel exists, it always returns a result. Whenever it
    returns a result the round mode is 0; outside ANALYSE mode that result is
    the output of the asymmetric min-max kernel (per channel or not) on the
    range held by the store it leaves; and whenever it estimates a range
    (ANALYSE, training or QCB) the estimate it feeds to the moving average
    has every minimum [<= 0] and every maximum [>= 0]. *)
Theorem moving_avg_always_asymmetric (inputs : Tensor) (bit_width : N)
    (round_mode : Z) (mode : string) (is_training per_channel : bool)
    (channel_axis : Z) (ema_decay : Q) (s : Store) :
  let run := MovingAvgMinMaxQuantize inputs bit_width round_mode mode is_training
                                     per_channel channel_axis ema_decay s in
  let reduce_dims :=
    if per_channel then Some (get_reduce_dims (shape inputs) channel_axis) else None in
  let range := get_min_max inputs bit_width false per_channel reduce_dims in
  (round_mode = 0%Z -> exists out, snd run = inr out)
  /\ (forall out, snd run = inr out ->
      round_mode = 0%Z
      /\ get_quantize_kernel "MIN_MAX" round_mode false per_channel
         = inr (if per_channel then MIN_MAX_PY3_ASYM_PERC else MIN_MAX_PY3_ASYM)
      /\ (mode <> "ANALYSE"%string ->
          out = if per_channel
                then fst (fake_quantize_with_min_max_py3_asym_perc
                            inputs (value (min_var (fst run)))
                            (value (max_var (fst run))) bit_width reduce_dims)
                else fst (fake_quantize_with_min_max_py3_asym
                            inputs (value (min_var (fst run)))
                            (value (max_var (fst run))) bit_width))
      /\ (mode = "ANALYSE"%string \/ is_training = true \/ mode = "QCB"%string ->
          fst run = average_range (fst range) (snd range) ema_decay
                                  (negb (String.eqb mode "ANALYSE")) s
          /\ Forall (fun v => v <= 0) (data (fst range))
          /\ Forall (fun v => 0 <= v) (data (snd range)))).
Proof.
  intros run reduce_dims range.
  pose proof (get_min_max_asym_contains_zero inputs bit_width per_channel reduce_dims)
    as [Zlo Zhi]. fold range in Zlo, Zhi.
  assert (Hrun : run =
    match get_quantize_kernel "MIN_MAX" round_mode false per_channel with
    | inl e => (s, inl e)
    | inr k =>
        if String.eqb mode "ANALYSE"
        then (average_range (fst range) (snd range) ema_decay false s, inr inputs)
        else if is_training || String.eqb mode "QCB"
        then (average_range (fst range) (snd range) ema_decay true s,
              call_kernel k
                ([VTensor inputs;
                  VTensor (value (min_var (average_range (fst range) (snd range)
                                                         ema_decay true s)));
                  VTensor (value (max_var (average_range (fst range) (snd range)
                                                         ema_decay true s)));
                  VInt bit_width]
                 ++ if per_channel then [VDims reduce_dims] else []))
        else (s, call_kernel k
                   ([VTensor inputs; VTensor (value (min_var s));
                     VTensor (value (max_var s)); VInt bit_width]
                    ++ if per_channel then [VDims reduce_dims] else []))
    end).
  { unfold run, MovingAvgMinMaxQuantize. fold reduce_dims.
    unfold bind at 1. unfold lift at 1.
    destruct (get_quantize_kernel "MIN_MAX" round_mode false per_channel) as [e | k];
      [reflexivity |].
    fold range. destruct range as [lo hi]. cbn [fst snd].
    destruct (String.eqb mode "ANALYSE"); [reflexivity |].
    destruct (is_training || String.eqb mode "QCB"), per_channel; reflexivity. }
  rewrite Hrun. rewrite get_quantize_kernel_min_max.
  split.
  - intros ->. cbn [Z.eqb].
    destruct (String.eqb mode "ANALYSE"); [eexists; reflexivity |].
    destruct (is_training || String.eqb mode "QCB"), per_channel;
      eexists; reflexivity.
  - intros out Hout.
    destruct (round_mode =? 0)%Z eqn:E0.
    + apply Z.eqb_eq in E0. split; [exact E0 |]. split; [reflexivity |].
      split.
      * intro Ha. rewrite (mode_neq _ _ Ha) in Hout |- *.
        destruct (is_training || String.eqb mode "QCB"), per_channel;
          cbn [snd fst app call_kernel] in Hout |- *; unfold ok in Hout;
          try discriminate Hout; injection Hout as <-; reflexivity.
      * intro Hm.
        assert (Hb : String.eqb mode "ANALYSE" = true
                     \/ (String.eqb mode "ANALYSE" = false
                         /\ is_training || String.eqb mode "QCB" = true)).
        { destruct (String.eqb mode "ANALYSE") eqn:Ea; [left; reflexivity |].
          right. split; [reflexivity |].
          destruct Hm as [Hm | [Hm | Hm]].
          - subst mode. discriminate Ea.
          - subst is_training. reflexivity.
          - subst mode. apply orb_true_r. }
        destruct Hb as [Hb | [Hb Hc]].
        -- rewrite Hb. cbn [negb fst]. auto.
        -- rewrite Hb, Hc. cbn [negb fst]. auto.
    + exfalso. destruct ((round_mode =? 1)%Z || (round_mode =? 2)%Z);
        cbn [snd] in Hout; discriminate Hout.
Qed.

Lemma moving_avg_always_asymmetric_witness :
  0%Z = 0%Z
  /\ exists out,
       snd (MovingAvgMinMaxQuantize (vec [-1; 1]) 8 0 "QAT" true false (-1)
                                    (999 # 1000) initial_store) = inr out.
Proof.
  split; [reflexivity |].
  exact (proj1 (moving_avg_always_asymmetric (vec [-1; 1]) 8 0 "QAT" true false (-1)
                                             (999 # 1000) initial_store) eq_refl).
Defined.

(** ** Broadcasting lemmas *)

Lemma bget_scalar (c : Q) (sh : list nat) (k : nat) : bget (scalar c) sh k = c.
Proof.
  unfold bget. cbn [shape scalar data rev].
  destruct (rev sh); reflexivity.
Qed.

Lemma bidx_same (r : list nat) (k : nat) :
  (k < fold_right Nat.mul 1 r)%nat -> bidx r r k = k.
Proof.
  revert k. induction r as [| d r IH]; intros k Hk; cbn [fold_right] in Hk.
  - cbn. lia.
  - cbn [bidx].
    assert (Hd : (d <> 0)%nat) by (intro; subst; cbn in Hk; lia).
    assert (Hq : (k / d < fold_right Nat.mul 1 r)%nat)
      by (apply Nat.Div0.div_lt_upper_bound; exact Hk).
    rewrite (IH _ Hq).
    pose proof (Nat.div_mod_eq k d) as E.
    destruct (d =? 1)%nat eqn:E1.
    + apply Nat.eqb_eq in E1. subst d. rewrite Nat.div_1_r. lia.
    + lia.
Qed.

Lemma fold_mul_rev (l : list nat) :
  fold_right Nat.mul 1%nat (rev l) = fold_right Nat.mul 1%nat l.
Proof.
  induction l as [| a l IH]; [reflexivity |].
  cbn [rev fold_right]. rewrite fold_right_app. cbn [fold_right].
  rewrite <- IH. generalize (rev l). intro r.
  induction r as [| b r IHr]; cbn [fold_right]; lia.
Qed.

(** Against a tensor of its own shape nothing is repeated. *)
Lemma bget_same_shape (t : Tensor) (sh : list nat) (k : nat) :
  shape t = sh -> (k < fold_right Nat.mul 1 sh)%nat ->
  bget t sh k = nth k (data t) 0.
Proof.
  intros <- Hk. unfold bget. rewrite bidx_same; [reflexivity |].
  rewrite fold_mul_rev. exact Hk.
Qed.

Lemma map_seq_nth {B : Type} (h : Q -> B) (l : list Q) :
  map (fun k => h (nth k l 0)) (seq 0 (List.length l)) = map h l.
Proof.
  induction l as [| x l IH]; [reflexivity |].
  cbn [List.length seq map nth]. f_equal.
  rewrite <- seq_shift, map_map. exact IH.
Qed.

Lemma nth_map_default (g : Q -> Q) (l : list Q) (k : nat) :
  (k < List.length l)%nat -> nth k (map g l) 0 = g (nth k l 0).
Proof.
  intro Hk. rewrite (nth_indep _ 0 (g 0)) by (rewrite length_map; exact Hk).
  apply map_nth.
Qed.

(** A pointwise operation against a scalar. *)
Lemma tmap2_scalar (f : Q -> Q -> Q) (a : Tensor) (c : Q) :
  tmap2 f a (scalar c) = tmap (fun x => f x c) a.
Proof.
  unfold tmap2, tmap, indices. f_equal.
  rewrite <- (map_seq_nth (fun x => f x c)).
  apply map_ext. intro k. rewrite bget_scalar. reflexivity.
Qed.

(** A pointwise operation against a pointwise image of the same tensor. *)
Lemma tmap2_tmap (f : Q -> Q -> Q) (g : Q -> Q) (a : Tensor) :
  well_formed a ->
  tmap2 f a (tmap g a) = tmap (fun x => f x (g x)) a.
Proof.
  intro Hwf. unfold tmap2, tmap, indices. cbn [shape data]. f_equal.
  rewrite <- (map_seq_nth (fun x => f x (g x))).
  apply map_ext_in. intros k Hk. apply in_seq in Hk.
  rewrite bget_same_shape; [| reflexivity | rewrite <- Hwf; lia].
  cbn [data]. rewrite nth_map_default by lia. reflexivity.
Qed.

(** ** C4: the min-diffs search *)

Lemma first_argmin_unique (err : nat -> Q) (n k k' : nat) :
  first_argmin err n k -> first_argmin err n k' -> k = k'.
Proof.
  intros (Hk & Hmin & Hfst) (Hk' & Hmin' & Hfst').
  destruct (Nat.lt_trichotomy k k') as [Hlt | [Heq | Hgt]]; [| exact Heq |].
  - specialize (Hfst' k Hlt). specialize (Hmin k' Hk'). lra.
  - specialize (Hfst k' Hgt). specialize (Hmin' k Hk). lra.
Qed.

Lemma argmin_from_spec (l : list Q) :
  forall (best : Q) (ibest i : nat),
    (argmin_from best ibest i l = ibest /\ Forall (fun x => best <= x) l)
    \/ (exists j, argmin_from best ibest i l = (i + j)%nat
                  /\ (j < List.length l)%nat
                  /\ nth j l 0 < best
                  /\ (forall j', (j' < j)%nat -> nth j l 0 < nth j' l 0)
                  /\ (forall j', (j' < List.length l)%nat -> nth j l 0 <= nth j' l 0)).
Proof.
  induction l as [| x r IH]; intros best ibest i; cbn [argmin_from].
  - left. split; [reflexivity | constructor].
  - destruct (TF.Qltb x best) eqn:E.
    + apply Qltb_lt in E. right.
      destruct (IH x i (S i)) as [[Hk Hall] | (j & Hk & Hj & Hlt & Hfst & Hmin)].
      * exists 0%nat. rewrite Hk. cbn [nth List.length].
        split; [lia | split; [lia | split; [exact E | split]]].
        -- intros j' Hj'. lia.
        -- intros [| j'] Hj'; cbn [nth]; [lra |].
           rewrite Forall_forall in Hall. apply Hall, nth_In. lia.
      * exists (S j). rewrite Hk. cbn [nth List.length].
        split; [lia | split; [lia | split; [lra | split]]].
        -- intros [| j'] Hj'; cbn [nth]; [exact Hlt | apply Hfst; lia].
        -- intros [| j'] Hj'; cbn [nth]; [lra | apply Hmin; lia].
    + apply Qltb_ge in E.
      destruct (IH best ibest (S i)) as [[Hk Hall] | (j & Hk & Hj & Hlt & Hfst & Hmin)].
      * left. split; [exact Hk | constructor; assumption].
      * right. exists (S j). rewrite Hk. cbn [nth List.length].
        split; [lia | split; [lia | split; [exact Hlt | split]]].
        -- intros [| j'] Hj'; cbn [nth]; [lra | apply Hfst; lia].
        -- intros [| j'] Hj'; cbn [nth]; [lra | apply Hmin; lia].
Qed.

(** [argmin] returns the first index of the least value. *)
Lemma argmin_first (l : list Q) :
  l <> [] -> first_argmin (fun j => nth j l 0) (List.length l) (argmin l).
Proof.
  destruct l as [| x r]; [congruence |]. intros _. unfold argmin.
  destruct (argmin_from_spec r x 0%nat 1%nat)
    as [[Hk Hall] | (j & Hk & Hj & Hlt & Hfst & Hmin)]; rewrite Hk.
  - split; [cbn; lia | split].
    + intros [| j] Hj; cbn [nth]; [lra |].
      rewrite Forall_forall in Hall. apply Hall, nth_In. cbn in Hj. lia.
    + intros j Hj. lia.
  - cbn [Nat.add]. split; [cbn; lia | split].
    + intros [| j'] Hj'; cbn [nth]; [lra | apply Hmin; cbn in Hj'; lia].
    + intros [| j'] Hj'; cbn [nth]; [exact Hlt | apply Hfst; lia].
Qed.

Lemma tmap_tmap (f g : Q -> Q) (a : Tensor) :
  tmap g (tmap f a) = tmap (fun x => g (f x)) a.
Proof. unfold tmap. cbn [shape data]. rewrite map_map. reflexivity. Qed.

(** For one position per tensor the loop body computes that sum. *)
Lemma min_diffs_diff_scalar (quantize : Q -> Q -> Q -> Q -> Q) (inputs : Tensor)
    (p0 q_min q_max : Q) (i : nat) :
  well_formed inputs ->
  min_diffs_diff quantize inputs (scalar p0) q_min q_max i
  = squared_error quantize (data inputs)
                  (TF.pow2 (p0 + inject_Z (Z.of_nat i))) q_min q_max.
Proof.
  intro Hwf. unfold min_diffs_diff, squared_error.
  change (tmap (fun p => TF.pow2 (p + inject_Z (Z.of_nat i))) (scalar p0))
    with (scalar (TF.pow2 (p0 + inject_Z (Z.of_nat i)))).
  rewrite !tmap2_scalar, tmap_tmap, (tmap2_tmap _ _ inputs Hwf).
  reflexivity.
Qed.

(** The five candidates of the loop and the choice of [tf.argmin]. *)
Lemma min_diffs_loop (quantize : Q -> Q -> Q -> Q -> Q)
    (inputs non_overflow_pos : Tensor) (q_min q_max : Q) :
  let err := min_diffs_diff quantize inputs non_overflow_pos q_min q_max in
  let diffs := fold_left (fun diffs i => diffs ++ [err i]) (seq 0 5) [] in
  diffs = map err (seq 0 5) /\ first_argmin err 5 (argmin diffs).
Proof.
  intros err diffs.
  assert (Hd : diffs = map err (seq 0 5)) by reflexivity.
  split; [exact Hd |].
  assert (Hn : forall j, (j < 5)%nat -> nth j diffs 0 = err j).
  { intros j Hj. rewrite Hd.
    do 5 (destruct j as [| j]; [reflexivity |]). lia. }
  destruct (argmin_first diffs) as (Hk & Hmin & Hfst).
  { rewrite Hd. discriminate. }
  assert (Hlen : List.length diffs = 5%nat) by (rewrite Hd; reflexivity).
  rewrite Hlen in Hk, Hmin.
  split; [exact Hk | split].
  - intros j Hj. rewrite <- (Hn _ Hk), <- (Hn j Hj). apply Hmin. exact Hj.
  - intros j Hj. rewrite <- (Hn _ Hk), <- (Hn j) by lia. apply Hfst. exact Hj.
Qed.

(** C4. For a tensor [inputs] and a range, either min-diffs search evaluates
    exactly the five positions [non_overflow_pos + i], [i] from 0 to 4, takes
    for each the error [min_diffs_diff] of the round trip at scale
    [2 ^ (non_overflow_pos + i)], and returns [non_overflow_pos + k] where
    [k] is the first index of the least error; that index is unique, so the
    position is determined by the inputs. For a per-tensor range the error
    at candidate [i] is the sum over all elements of the squared
    reconstruction error. *)
Theorem min_diffs_returns_first_minimum {D : Type} (inputs f_min f_max : Tensor)
    (q_min q_max : Q) (bit_width : N) (per_channel : bool) (reduce_dims : D) :
  let non_overflow_pos :=
    tmap2 (fun lo hi =>
             get_quantize_pos_non_overflow_sym inputs lo hi q_min q_max
                                               per_channel reduce_dims)
          f_min f_max in
  let selects quantize (quantize_pos : Tensor) :=
    let err := min_diffs_diff quantize inputs non_overflow_pos q_min q_max in
    exists k,
      first_argmin err 5 k
      /\ (forall k', first_argmin err 5 k' -> k' = k)
      /\ quantize_pos
         = tmap (fun p => p + inject_Z (Z.of_nat k)) non_overflow_pos in
  selects py3_sym_quantize
          (get_quantize_pos_min_diffs_py3_sym inputs f_min f_max q_min q_max
                                              bit_width per_channel reduce_dims)
  /\ selects dpu_sym_quantize
             (get_quantize_pos_min_diffs_dpu_sym inputs f_min f_max q_min q_max
                                                 bit_width per_channel reduce_dims)
  /\ (well_formed inputs ->
      forall lo hi : Q, f_min = scalar lo -> f_max = scalar hi ->
      let p0 := get_quantize_pos_non_overflow_sym inputs lo hi q_min q_max
                                                  per_channel reduce_dims in
      non_overflow_pos = scalar p0
      /\ forall quantize i,
           min_diffs_diff quantize inputs non_overflow_pos q_min q_max i
           = squared_error quantize (data inputs)
                           (TF.pow2 (p0 + inject_Z (Z.of_nat i))) q_min q_max).
Proof.
  intros nop selects. split; [| split].
  - destruct (min_diffs_loop py3_sym_quantize inputs nop q_min q_max) as [_ H].
    eexists. split; [exact H | split].
    + intros k' Hk'. exact (first_argmin_unique _ _ _ _ Hk' H).
    + reflexivity.
  - destruct (min_diffs_loop dpu_sym_quantize inputs nop q_min q_max) as [_ H].
    eexists. split; [exact H | split].
    + intros k' Hk'. exact (first_argmin_unique _ _ _ _ Hk' H).
    + reflexivity.
  - intros Hwf lo hi -> -> p0. split; [reflexivity |].
    intros quantize i. apply min_diffs_diff_scalar. exact Hwf.
Qed.

Lemma min_diffs_returns_first_minimum_witness :
  well_formed (vec [1; -1; 1 # 3])
  /\ min_diffs_diff py3_sym_quantize (vec [1; -1; 1 # 3])
       (tmap2 (fun lo hi =>
                 get_quantize_pos_non_overflow_sym (vec [1; -1; 1 # 3]) lo hi
                                                   (-128) 127 false tt)
              (scalar (- (256 # 254))) (scalar 1))
       (-128) 127 0
     = squared_error py3_sym_quantize [1; -1; 1 # 3]
         (TF.pow2 (get_quantize_pos_non_overflow_sym
                     (vec [1; -1; 1 # 3]) (- (256 # 254)) 1 (-128) 127 false tt
                   + inject_Z (Z.of_nat 0))) (-128) 127.
Proof.
  assert (Hwf : well_formed (vec [1; -1; 1 # 3])) by reflexivity.
  split; [exact Hwf |].
  exact (proj2 (proj2 (proj2 (min_diffs_returns_first_minimum
                                (vec [1; -1; 1 # 3]) (scalar (- (256 # 254)))
                                (scalar 1) (-128) 127 8 false tt))
                      Hwf (- (256 # 254)) 1 eq_refl eq_refl)
               py3_sym_quantize 0%nat).
Defined.

(** With every error equal, here on a tensor of zeros, the first candidate
    wins: the search returns the non-overflow position itself. *)
Example min_diffs_tie_keeps_non_overflow_pos :
  get_quantize_pos_min_diffs_dpu_sym (vec [0; 0]) (scalar 0) (scalar 0) (-128) 127 8
                                     false tt
  = scalar (get_quantize_pos_non_overflow_sym (vec [0; 0]) 0 0 (-128) 127 false tt + 0).
Proof. reflexivity. Qed.

(** ** C9: the gradient mask of the symmetric min-max kernel *)

Lemma nth_map_seq (h : nat -> Q) (n k : nat) :
  (k < n)%nat -> nth k (map h (seq 0 n)) 0 = h k.
Proof.
  intro Hk. rewrite (nth_indep _ 0 (h 0%nat))
    by (rewrite length_map, length_seq; exact Hk).
  rewrite map_nth, seq_nth by exact Hk. reflexivity.
Qed.

Lemma bget_vec (xs : list Q) (n k : nat) :
  List.length xs = n -> (k < n)%nat -> bget (vec xs) [n] k = nth k xs 0.
Proof.
  intros Hn Hk. apply bget_same_shape.
  - cbn [vec shape]. rewrite Hn. reflexivity.
  - cbn [fold_right]. lia.
Qed.

(** C9. For the symmetric min-max kernel with input [-2, 0, 2], range
    [[-1, 1]] and upstream gradient [1, 1, 1], at any bit width, the
    gradient with respect to the input is [0, 1, 0]. In general, for vectors
    of equal length and a scalar range, element [k] of that gradient is
    [dy k] where [f_min <= x k <= f_max] and zero elsewhere. *)
Theorem min_max_sym_gradient_mask (bit_width : N) :
  nth 0 (snd (fake_quantize_with_min_max_py3_sym
                (vec [-2; 0; 2]) (scalar (-1)) (scalar 1) bit_width)
             (vec [1; 1; 1])) None
  = Some (vec [0; 1; 0])
  /\ forall (xs dys : list Q) (f_min f_max : Q),
       List.length xs = List.length dys ->
       exists g,
         nth 0 (snd (fake_quantize_with_min_max_py3_sym
                       (vec xs) (scalar f_min) (scalar f_max) bit_width)
                    (vec dys)) None = Some g
         /\ shape g = [List.length dys]
         /\ List.length (data g) = List.length dys
         /\ forall k, (k < List.length dys)%nat ->
              (f_min <= nth k xs 0 /\ nth k xs 0 <= f_max ->
               nth k (data g) 0 == nth k dys 0)
              /\ (~ (f_min <= nth k xs 0 /\ nth k xs 0 <= f_max) ->
                  nth k (data g) 0 == 0).
Proof.
  split; [reflexivity |].
  intros xs dys f_min f_max Hlen.
  eexists. split; [reflexivity |].
  cbn [masked tmap4 shape data vec]. unfold indices. cbn [data vec].
  split; [reflexivity |]. split; [rewrite length_map, length_seq; reflexivity |].
  intros k Hk.
  rewrite (nth_map_seq _ _ _ Hk).
  rewrite !bget_scalar, (bget_vec xs _ k Hlen Hk).
  unfold between_min_max.
  split.
  - intros [H1 H2]. apply Qle_bool_iff in H1, H2. rewrite H1, H2. cbn. ring.
  - intro Hn.
    destruct (Qle_bool f_min (nth k xs 0)) eqn:E1;
      destruct (Qle_bool (nth k xs 0) f_max) eqn:E2; cbn; try ring.
    exfalso. apply Hn. split; apply Qle_bool_iff; assumption.
Qed.

Lemma min_max_sym_gradient_mask_witness :
  List.length [-2; 0; 2] = List.length [1; 1; 1]
  /\ exists g,
       nth 0 (snd (fake_quantize_with_min_max_py3_sym
                     (vec [-2; 0; 2]) (scalar (-1)) (scalar 1) 8)
                  (vec [1; 1; 1])) None = Some g
       /\ shape g = [3%nat].
Proof.
  split; [reflexivity |].
  destruct (proj2 (min_max_sym_gradient_mask 8) [-2; 0; 2] [1; 1; 1] (-1) 1 eq_refl)
    as (g & Eg & Hs & _).
  exists g. split; [exact Eg | exact Hs].
Defined.

(** * Further properties of the code *)

(** ** The rounding strategies compared *)

Lemma Qltb_compat (a b c d : Q) : a == c -> b == d -> TF.Qltb a b = TF.Qltb c d.
Proof.
  intros H1 H2. unfold TF.Qltb. f_equal. apply Qleb_comp; assumption.
Qed.

Lemma tf_round_compat (x y : Q) : x == y -> TF.round x = TF.round y.
Proof.
  intro H. unfold TF.round. rewrite (Qfloor_comp x y H).
  rewrite (Qltb_compat (x - inject_Z (Qfloor y)) (1 # 2)
                       (y - inject_Z (Qfloor y)) (1 # 2))
    by lra.
  rewrite (Qltb_compat (1 # 2) (x - inject_Z (Qfloor y))
                       (1 # 2) (y - inject_Z (Qfloor y)))
    by lra.
  reflexivity.
Qed.

Lemma dpu_round_compat (x y : Q) : x == y -> dpu_round x = dpu_round y.
Proof.
  intro H. unfold dpu_round, TF.floor. f_equal. apply Qfloor_comp.
  rewrite H. reflexivity.
Qed.

Lemma std_round_compat (x y : Q) : x == y -> std_round x = std_round y.
Proof.
  intro H. unfold std_round, TF.floor, TF.ceil.
  rewrite (Qfloor_comp x y H), (Qceiling_comp x y H), (tf_round_compat x y H).
  rewrite (Qltb_compat 0 x 0 y (Qeq_refl 0) H).
  assert (E : Qeq_bool (x - inject_Z (Qfloor y)) (1 # 2)
              = Qeq_bool (y - inject_Z (Qfloor y)) (1 # 2)).
  { destruct (Qeq_bool (y - inject_Z (Qfloor y)) (1 # 2)) eqn:E.
    - apply Qeq_bool_iff. apply Qeq_bool_iff in E. rewrite H. exact E.
    - destruct (Qeq_bool (x - inject_Z (Qfloor y)) (1 # 2)) eqn:E'; [| reflexivity].
      apply Qeq_bool_iff in E'. rewrite H in E'. apply Qeq_bool_iff in E'.
      congruence. }
  rewrite E. reflexivity.
Qed.

Lemma Qfloor_unique (x : Q) (k : Z) :
  inject_Z k <= x -> x < inject_Z k + 1 -> Qfloor x = k.
Proof.
  intros Hlo Hhi.
  pose proof (Qfloor_le x) as Flo. pose proof (Qlt_floor x) as Fhi.
  rewrite inject_Z_succ in Fhi.
  assert ((Qfloor x <= k)%Z) by (apply inject_Z_lt_succ; lra).
  assert ((k <= Qfloor x)%Z) by (apply inject_Z_lt_succ; lra).
  lia.
Qed.

Section NearestFacts.

Variable round : Q -> Q.
Hypothesis round_nearest : nearest round.

(** An integer, however it is written, rounds to itself. *)
Lemma nearest_fixes_int (x : Q) (k : Z) : x == inject_Z k -> round x = inject_Z k.
Proof.
  intro Hx. destruct (round_nearest x) as (z & -> & Hz1 & Hz2).
  assert ((z <= k)%Z) by (apply inject_Z_lt_succ; lra).
  assert ((k <= z)%Z) by (apply inject_Z_lt_succ; lra).
  f_equal. lia.
Qed.

Lemma nearest_strict_mono (x y : Q) : x < y -> round x <= round y.
Proof.
  intro Hlt.
  destruct (round_nearest x) as (zx & -> & Hx1 & Hx2).
  destruct (round_nearest y) as (zy & -> & Hy1 & Hy2).
  rewrite <- Zle_Qle. apply inject_Z_lt_succ. lra.
Qed.

Hypothesis round_compat : forall x y, x == y -> round x = round y.

Lemma nearest_mono (x y : Q) : x <= y -> round x <= round y.
Proof.
  intro Hle. destruct (Qle_lt_or_eq _ _ Hle) as [Hlt | Heq].
  - apply nearest_strict_mono. exact Hlt.
  - rewrite (round_compat x y Heq). apply Qle_refl.
Qed.

End NearestFacts.

(** X1. Away from a tie the three rounding strategies agree, and each of
    them leaves an integer unchanged: they differ at the ties only. *)
Theorem rounding_strategies_agree_off_ties (x : Q) :
  (~ x - TF.floor x == 1 # 2 ->
   py3_round x = dpu_round x /\ std_round x = dpu_round x)
  /\ (forall k : Z, x == inject_Z k ->
        py3_round x = inject_Z k /\ dpu_round x = inject_Z k
        /\ std_round x = inject_Z k).
Proof.
  split.
  - intro Htie. unfold TF.floor in Htie.
    assert (Hpy : py3_round x = dpu_round x).
    { unfold py3_round, dpu_round, TF.round, TF.floor.
      pose proof (Qfloor_le x) as Hlo. pose proof (Qlt_floor x) as Hhi.
      rewrite inject_Z_succ in Hhi.
      destruct (TF.Qltb (x - inject_Z (Qfloor x)) (1 # 2)) eqn:E1.
      - apply Qltb_lt in E1. f_equal. symmetry. apply Qfloor_unique; lra.
      - apply Qltb_ge in E1.
        destruct (TF.Qltb (1 # 2) (x - inject_Z (Qfloor x))) eqn:E2.
        + apply Qltb_lt in E2. f_equal. symmetry.
          apply Qfloor_unique; rewrite inject_Z_succ; lra.
        + apply Qltb_ge in E2. exfalso. apply Htie. lra. }
    split; [exact Hpy |]. rewrite <- Hpy.
    unfold std_round, TF.floor.
    destruct (Qeq_bool (x - inject_Z (Qfloor x)) (1 # 2)) eqn:E; [| reflexivity].
    apply Qeq_bool_iff in E. contradiction.
  - intros k Hk. repeat split; apply nearest_fixes_int; auto with rounding.
Qed.

Lemma rounding_strategies_agree_off_ties_witness :
  ~ (23 # 10) - TF.floor (23 # 10) == 1 # 2
  /\ py3_round (23 # 10) = dpu_round (23 # 10).
Proof.
  assert (H : ~ (23 # 10) - TF.floor (23 # 10) == 1 # 2)
    by (intro E; discriminate E).
  split; [exact H |].
  exact (proj1 (proj1 (rounding_strategies_agree_off_ties (23 # 10)) H)).
Defined.

(** X2. Each rounding strategy is monotone. *)
Theorem rounding_monotone (x y : Q) :
  x <= y ->
  py3_round x <= py3_round y /\ dpu_round x <= dpu_round y
  /\ std_round x <= std_round y.
Proof.
  intro H. repeat split.
  - apply nearest_mono; auto with rounding. exact tf_round_compat.
  - apply nearest_mono; auto with rounding. exact dpu_round_compat.
  - apply nearest_mono; auto with rounding. exact std_round_compat.
Qed.

Lemma rounding_monotone_witness :
  (3 # 2) <= (5 # 2) /\ py3_round (3 # 2) <= py3_round (5 # 2).
Proof.
  assert (H : (3 # 2) <= (5 # 2)) by (intro E; discriminate E).
  split; [exact H |].
  exact (proj1 (rounding_monotone (3 # 2) (5 # 2) H)).
Defined.

(** ** The quantize kernels on one element *)

Lemma clip_mono (r r' lo hi : Q) :
  r <= r' -> TF.clip_by_value r lo hi <= TF.clip_by_value r' lo hi.
Proof.
  intro H. unfold TF.clip_by_value.
  destruct (Q.min_spec r hi) as [[H1 E1] | [H1 E1]];
    destruct (Q.min_spec r' hi) as [[H2 E2] | [H2 E2]];
    destruct (Q.max_spec (Qmin r hi) lo) as [[H3 E3] | [H3 E3]];
    destruct (Q.max_spec (Qmin r' hi) lo) as [[H4 E4] | [H4 E4]];
    lra.
Qed.

Lemma clip_compat (r r' lo hi : Q) :
  r == r' -> TF.clip_by_value r lo hi == TF.clip_by_value r' lo hi.
Proof.
  intro H. apply Qle_antisym; apply clip_mono; lra.
Qed.

Lemma clip_int (r : Q) (z a b : Z) :
  r == inject_Z z -> (a <= b)%Z ->
  exists c : Z,
    TF.clip_by_value r (inject_Z a) (inject_Z b) == inject_Z c /\ (a <= c <= b)%Z.
Proof.
  intros Hr Hab.
  assert (Hq : inject_Z a <= inject_Z b) by (rewrite <- Zle_Qle; exact Hab).
  destruct (clip_cases r (inject_Z a) (inject_Z b) Hq)
    as [[H E] | [[[H1 H2] E] | [H E]]].
  - exists a. split; [exact E | lia].
  - exists z. split; [lra |]. rewrite Hr in H1, H2.
    rewrite <- Zle_Qle in H1, H2. lia.
  - exists b. split; [exact E | lia].
Qed.

Lemma clip_fixes (r lo hi : Q) :
  lo <= r -> r <= hi -> TF.clip_by_value r lo hi == r.
Proof.
  intros H1 H2.
  destruct (clip_cases r lo hi ltac:(lra)) as [[H E] | [[H E] | [H E]]]; lra.
Qed.

Section KernelsOnOneElement.

Variable round : Q -> Q.
Hypothesis round_nearest : nearest round.

Lemma sym_code_int (x s : Q) (a b : Z) :
  (a <= b)%Z ->
  exists c : Z,
    TF.clip_by_value (round (x * s)) (inject_Z a) (inject_Z b) == inject_Z c
    /\ (a <= c <= b)%Z.
Proof.
  intro Hab. destruct (round_nearest (x * s)) as (z & Ez & _). rewrite Ez.
  apply (clip_int _ z); [reflexivity | exact Hab].
Qed.

Lemma asym_code_int (x s shift : Q) (a b : Z) :
  (a <= b)%Z ->
  exists c : Z,
    TF.clip_by_value (inject_Z a + round ((x - shift) * s)) (inject_Z a) (inject_Z b)
    == inject_Z c
    /\ (a <= c <= b)%Z.
Proof.
  intro Hab. destruct (round_nearest ((x - shift) * s)) as (z & Ez & _). rewrite Ez.
  apply (clip_int _ (a + z)); [rewrite inject_Z_plus; reflexivity | exact Hab].
Qed.

Lemma sym_requantize (x s : Q) (a b : Z) :
  0 < s -> (a <= b)%Z ->
  TF.clip_by_value
    (round (sym_dequantize
              (TF.clip_by_value (round (x * s)) (inject_Z a) (inject_Z b))
              s (inject_Z a) (inject_Z b) * s))
    (inject_Z a) (inject_Z b)
  == TF.clip_by_value (round (x * s)) (inject_Z a) (inject_Z b).
Proof.
  intros Hs Hab. destruct (sym_code_int x s a b Hab) as (c & Ec & Hc).
  set (code := TF.clip_by_value (round (x * s)) (inject_Z a) (inject_Z b)) in *.
  assert (Hy : sym_dequantize code s (inject_Z a) (inject_Z b) * s == inject_Z c).
  { unfold sym_dequantize. rewrite <- Ec. field. lra. }
  rewrite (nearest_fixes_int round round_nearest _ c Hy), Ec.
  apply clip_fixes; rewrite <- Zle_Qle; lia.
Qed.

Lemma asym_requantize (x s shift : Q) (a b : Z) :
  0 < s -> (a <= b)%Z ->
  TF.clip_by_value
    (inject_Z a
     + round ((asym_dequantize
                 (TF.clip_by_value (inject_Z a + round ((x - shift) * s))
                                   (inject_Z a) (inject_Z b))
                 s shift (inject_Z a) (inject_Z b) - shift) * s))
    (inject_Z a) (inject_Z b)
  == TF.clip_by_value (inject_Z a + round ((x - shift) * s))
                      (inject_Z a) (inject_Z b).
Proof.
  intros Hs Hab. destruct (asym_code_int x s shift a b Hab) as (c & Ec & Hc).
  set (code := TF.clip_by_value (inject_Z a + round ((x - shift) * s))
                                (inject_Z a) (inject_Z b)) in *.
  assert (Hy : (asym_dequantize code s shift (inject_Z a) (inject_Z b) - shift) * s
               == inject_Z (c - a)).
  { unfold asym_dequantize, Zminus. rewrite inject_Z_plus, inject_Z_opp, <- Ec.
    field. lra. }
  rewrite (nearest_fixes_int round round_nearest _ (c - a) Hy), Ec.
  rewrite (clip_compat (inject_Z a + inject_Z (c - a)) (inject_Z c))
    by (unfold Zminus; rewrite inject_Z_plus, inject_Z_opp; ring).
  apply clip_fixes; rewrite <- Zle_Qle; lia.
Qed.

(** The asymmetric round trip, for a shift and bounds of any kind. *)
Lemma asym_round_trip (x s shift q_min q_max : Q) :
  0 < s -> q_min <= q_max ->
  let out := asym_dequantize
               (TF.clip_by_value (q_min + round ((x - shift) * s)) q_min q_max)
               s shift q_min q_max in
  (shift <= out /\ out <= shift + (q_max - q_min) / s)
  /\ (shift <= x -> x <= shift + (q_max - q_min) / s ->
      Qabs (out - x) <= 1 / (2 * s)).
Proof.
  intros Hs Hq out. unfold out, asym_dequantize.
  assert (Hs0 : ~ s == 0) by lra.
  assert (Hi : 0 < / s) by (apply Qinv_lt_0_compat; exact Hs).
  set (c := TF.clip_by_value (q_min + round ((x - shift) * s)) q_min q_max).
  destruct (clip_in_range (q_min + round ((x - shift) * s)) q_min q_max Hq)
    as [C1 C2]. fold c in C1, C2.
  split.
  - split.
    + assert (0 <= (c - q_min) / s) by (apply (div_pos_sign _ s Hs); lra). lra.
    + assert (H : (c - q_max) / s <= 0) by (apply (div_pos_sign _ s Hs); lra).
      setoid_replace ((c - q_min) / s + shift)
        with ((c - q_max) / s + (shift + (q_max - q_min) / s)) by (field; exact Hs0).
      lra.
  - intros Hlo Hhi.
    set (y := (x - shift) * s).
    assert (Hy0 : 0 <= y) by (unfold y; nra).
    assert (Hy1 : y <= q_max - q_min).
    { unfold y. apply (Qmult_le_r _ _ (/ s) Hi).
      setoid_replace ((x - shift) * s * / s) with (x - shift) by (field; exact Hs0).
      unfold Qdiv in Hhi. lra. }
    destruct (round_nearest y) as (z & Ez & Hz1 & Hz2).
    assert (Hc : q_min + y - (1 # 2) <= c /\ c <= q_min + y + (1 # 2)).
    { unfold c. fold y. rewrite Ez.
      destruct (clip_cases (q_min + inject_Z z) q_min q_max Hq)
        as [[H E] | [[H E] | [H E]]]; split; lra. }
    destruct Hc as [Hc1 Hc2].
    setoid_replace ((c - q_min) / s + shift - x) with ((c - q_min - y) * / s)
      by (unfold y; field; exact Hs0).
    setoid_replace (1 / (2 * s)) with ((1 # 2) * / s) by (field; exact Hs0).
    apply Qabs_Qle_condition. split.
    + setoid_replace (- ((1 # 2) * / s)) with ((- (1 # 2)) * / s) by ring.
      apply Qmult_le_compat_r; [lra | apply Qlt_le_weak; exact Hi].
    + apply Qmult_le_compat_r; [lra | apply Qlt_le_weak; exact Hi].
Qed.

Hypothesis round_compat : forall x y, x == y -> round x = round y.

Lemma sym_fake_quantize_mono (x y s q_min q_max : Q) :
  0 < s -> x <= y ->
  sym_dequantize (TF.clip_by_value (round (x * s)) q_min q_max) s q_min q_max
  <= sym_dequantize (TF.clip_by_value (round (y * s)) q_min q_max) s q_min q_max.
Proof.
  intros Hs H. unfold sym_dequantize, Qdiv.
  apply Qmult_le_compat_r;
    [| apply Qlt_le_weak, Qinv_lt_0_compat; exact Hs].
  apply clip_mono, (nearest_mono round round_nearest round_compat).
  apply Qmult_le_compat_r; [exact H | lra].
Qed.

Lemma asym_fake_quantize_mono (x y s shift q_min q_max : Q) :
  0 < s -> x <= y ->
  asym_dequantize (TF.clip_by_value (q_min + round ((x - shift) * s)) q_min q_max)
                  s shift q_min q_max
  <= asym_dequantize (TF.clip_by_value (q_min + round ((y - shift) * s)) q_min q_max)
                     s shift q_min q_max.
Proof.
  intros Hs H. unfold asym_dequantize, Qdiv.
  assert (Hm : round ((x - shift) * s) <= round ((y - shift) * s)).
  { apply (nearest_mono round round_nearest round_compat).
    apply Qmult_le_compat_r; [lra | lra]. }
  pose proof (clip_mono (q_min + round ((x - shift) * s))
                        (q_min + round ((y - shift) * s)) q_min q_max
                        ltac:(lra)) as Hc.
  assert (Hd : (TF.clip_by_value (q_min + round ((x - shift) * s)) q_min q_max - q_min)
               * / s
               <= (TF.clip_by_value (q_min + round ((y - shift) * s)) q_min q_max
                   - q_min) * / s).
  { apply Qmult_le_compat_r; [lra |]. apply Qlt_le_weak, Qinv_lt_0_compat; exact Hs. }
  lra.
Qed.

End KernelsOnOneElement.

(** X3. With integer bounds [q_min <= q_max] the four quantize kernels
    return an integer code of [[q_min, q_max]], whatever the input, the
    scale and the shift. *)
Theorem quantize_codes_are_integers (x s shift : Q) (q_min q_max : Z) :
  (q_min <= q_max)%Z ->
  let code (q : Q) := exists c : Z, q == inject_Z c /\ (q_min <= c <= q_max)%Z in
  code (py3_sym_quantize x s (inject_Z q_min) (inject_Z q_max))
  /\ code (dpu_sym_quantize x s (inject_Z q_min) (inject_Z q_max))
  /\ code (py3_asym_quantize x s shift (inject_Z q_min) (inject_Z q_max))
  /\ code (dpu_asym_quantize x s shift (inject_Z q_min) (inject_Z q_max)).
Proof.
  intros Hq code. unfold code. repeat split.
  - apply sym_code_int; auto with rounding.
  - apply sym_code_int; auto with rounding.
  - apply asym_code_int; auto with rounding.
  - apply asym_code_int; auto with rounding.
Qed.

Lemma quantize_codes_are_integers_witness :
  (-128 <= 127)%Z
  /\ exists c : Z,
       dpu_asym_quantize (7 # 3) 64 (- (1 # 2)) (inject_Z (-128)) (inject_Z 127)
       == inject_Z c /\ (-128 <= c <= 127)%Z.
Proof.
  assert (H : (-128 <= 127)%Z) by (intro E; discriminate E).
  split; [exact H |].
  exact (proj2 (proj2 (proj2
           (quantize_codes_are_integers (7 # 3) 64 (- (1 # 2)) (-128) 127 H)))).
Defined.

(** X4. Quantizing a dequantized code gives the code back: for a scale
    [s > 0] and integer bounds, each kernel applied to the reconstruction of
    its own output returns that output. *)
Theorem requantize_returns_same_code (x s shift : Q) (q_min q_max : Z) :
  0 < s -> (q_min <= q_max)%Z ->
  let lo := inject_Z q_min in
  let hi := inject_Z q_max in
  py3_sym_quantize (sym_dequantize (py3_sym_quantize x s lo hi) s lo hi) s lo hi
  == py3_sym_quantize x s lo hi
  /\ dpu_sym_quantize (sym_dequantize (dpu_sym_quantize x s lo hi) s lo hi) s lo hi
     == dpu_sym_quantize x s lo hi
  /\ py3_asym_quantize
       (asym_dequantize (py3_asym_quantize x s shift lo hi) s shift lo hi)
       s shift lo hi
     == py3_asym_quantize x s shift lo hi
  /\ dpu_asym_quantize
       (asym_dequantize (dpu_asym_quantize x s shift lo hi) s shift lo hi)
       s shift lo hi
     == dpu_asym_quantize x s shift lo hi.
Proof.
  intros Hs Hq lo hi. repeat split.
  - apply (sym_requantize py3_round py3_round_nearest); assumption.
  - apply (sym_requantize dpu_round dpu_round_nearest); assumption.
  - apply (asym_requantize py3_round py3_round_nearest); assumption.
  - apply (asym_requantize dpu_round dpu_round_nearest); assumption.
Qed.

Lemma requantize_returns_same_code_witness :
  (0 < 64 /\ (-128 <= 127)%Z)
  /\ py3_sym_quantize
       (sym_dequantize (py3_sym_quantize (1 # 3) 64 (inject_Z (-128)) (inject_Z 127))
                       64 (inject_Z (-128)) (inject_Z 127))
       64 (inject_Z (-128)) (inject_Z 127)
     == py3_sym_quantize (1 # 3) 64 (inject_Z (-128)) (inject_Z 127).
Proof.
  assert (H0 : 0 < 64) by reflexivity.
  assert (H1 : (-128 <= 127)%Z) by (intro E; discriminate E).
  split; [split; assumption |].
  exact (proj1 (requantize_returns_same_code (1 # 3) 64 0 (-128) 127 H0 H1)).
Defined.

(** X5. Both symmetric and both asymmetric fake-quantize round trips are
    monotone in the input, for every scale [s > 0], shift and bounds. *)
Theorem fake_quantize_monotone (x y s shift q_min q_max : Q) :
  0 < s -> x <= y ->
  sym_dequantize (py3_sym_quantize x s q_min q_max) s q_min q_max
  <= sym_dequantize (py3_sym_quantize y s q_min q_max) s q_min q_max
  /\ sym_dequantize (dpu_sym_quantize x s q_min q_max) s q_min q_max
     <= sym_dequantize (dpu_sym_quantize y s q_min q_max) s q_min q_max
  /\ asym_dequantize (py3_asym_quantize x s shift q_min q_max) s shift q_min q_max
     <= asym_dequantize (py3_asym_quantize y s shift q_min q_max) s shift q_min q_max
  /\ asym_dequantize (dpu_asym_quantize x s shift q_min q_max) s shift q_min q_max
     <= asym_dequantize (dpu_asym_quantize y s shift q_min q_max) s shift q_min q_max.
Proof.
  intros Hs H. repeat split.
  - apply (sym_fake_quantize_mono py3_round py3_round_nearest tf_round_compat);
      assumption.
  - apply (sym_fake_quantize_mono dpu_round dpu_round_nearest dpu_round_compat);
      assumption.
  - apply (asym_fake_quantize_mono py3_round py3_round_nearest tf_round_compat);
      assumption.
  - apply (asym_fake_quantize_mono dpu_round dpu_round_nearest dpu_round_compat);
      assumption.
Qed.

Lemma fake_quantize_monotone_witness :
  (0 < 64 /\ (1 # 3) <= (1 # 2))
  /\ sym_dequantize (dpu_sym_quantize (1 # 3) 64 (-128) 127) 64 (-128) 127
     <= sym_dequantize (dpu_sym_quantize (1 # 2) 64 (-128) 127) 64 (-128) 127.
Proof.
  assert (H0 : 0 < 64) by reflexivity.
  assert (H1 : (1 # 3) <= (1 # 2)) by (intro E; discriminate E).
  split; [split; assumption |].
  exact (proj1 (proj2 (fake_quantize_monotone (1 # 3) (1 # 2) 64 0 (-128) 127 H0 H1))).
Defined.

(** The zero point is an integer of the bounds. *)
Lemma zero_point_int (s f_min f_max : Q) (q_min q_max : Z) :
  (q_min < q_max)%Z ->
  exists z : Z,
    fst (fst (quantize_zero_point s f_min f_max (inject_Z q_min) (inject_Z q_max)))
    = inject_Z z
    /\ (q_min <= z <= q_max)%Z.
Proof.
  intro Hq. unfold quantize_zero_point. cbn [fst].
  set (fz := inject_Z q_min - f_min * s).
  destruct (TF.Qltb (inject_Z q_max) fz) eqn:Ea.
  - exists q_max. split; [reflexivity | lia].
  - destruct (TF.Qltb fz (inject_Z q_min)) eqn:Eb.
    + exists q_min. split; [reflexivity | lia].
    + apply Qltb_ge in Ea, Eb.
      pose proof (nearest_ge_int std_round std_round_nearest q_min fz Eb) as G1.
      pose proof (nearest_le_int std_round std_round_nearest q_max fz Ea) as G2.
      destruct (std_round_nearest fz) as (z & Ez & _). rewrite Ez in *.
      exists z. split; [reflexivity |]. rewrite <- Zle_Qle in G1, G2. lia.
Qed.

(** X6. An asymmetric kernel built on [quantize_zero_point] represents zero
    exactly: with the shift [new_f_min], the input 0 quantizes to the zero
    point and dequantizes back to 0, for every scale [s > 0], range and
    integer bounds [q_min < q_max]. *)
Theorem asym_zero_is_exact (s f_min f_max : Q) (q_min q_max : Z) :
  0 < s -> (q_min < q_max)%Z ->
  let lo := inject_Z q_min in
  let hi := inject_Z q_max in
  let '(q_zero_point, new_f_min, new_f_max) :=
    quantize_zero_point s f_min f_max lo hi in
  let shift := new_f_min in
  (py3_asym_quantize 0 s shift lo hi == q_zero_point
   /\ asym_dequantize (py3_asym_quantize 0 s shift lo hi) s shift lo hi == 0)
  /\ (dpu_asym_quantize 0 s shift lo hi == q_zero_point
      /\ asym_dequantize (dpu_asym_quantize 0 s shift lo hi) s shift lo hi == 0).
Proof.
  intros Hs Hq lo hi.
  destruct (zero_point_int s f_min f_max q_min q_max Hq) as (z & Ez & Hz).
  fold lo hi in Ez.
  destruct (quantize_zero_point s f_min f_max lo hi) as [[zp nmin] nmax] eqn:E.
  assert (En : nmin = (lo - zp) / s).
  { unfold quantize_zero_point in E. injection E as E1 E2 E3.
    rewrite <- E2, <- E1. reflexivity. }
  cbn [fst] in Ez. subst zp nmin.
  assert (Hcode : forall round, nearest round ->
            TF.clip_by_value (lo + round ((0 - (lo - inject_Z z) / s) * s)) lo hi
            == inject_Z z).
  { intros round Hr.
    assert (Hy : (0 - (lo - inject_Z z) / s) * s == inject_Z (z - q_min)).
    { unfold Zminus. rewrite inject_Z_plus, inject_Z_opp. fold lo. field. lra. }
    rewrite (nearest_fixes_int round Hr _ _ Hy).
    rewrite (clip_compat (lo + inject_Z (z - q_min)) (inject_Z z))
      by (unfold Zminus, lo; rewrite inject_Z_plus, inject_Z_opp; ring).
    apply clip_fixes; unfold lo, hi; rewrite <- Zle_Qle; lia. }
  assert (Hdeq : forall c, c == inject_Z z ->
            asym_dequantize c s ((lo - inject_Z z) / s) lo hi == 0).
  { intros c Hc. unfold asym_dequantize. rewrite Hc. field. lra. }
  split; split.
  - apply Hcode. auto with rounding.
  - apply Hdeq, Hcode. auto with rounding.
  - apply Hcode. auto with rounding.
  - apply Hdeq, Hcode. auto with rounding.
Qed.

Lemma asym_zero_is_exact_witness :
  (0 < 100 /\ (-128 < 127)%Z)
  /\ asym_dequantize
       (py3_asym_quantize 0 100
          (snd (fst (quantize_zero_point 100 (- (1 # 3)) 2 (inject_Z (-128))
                                         (inject_Z 127))))
          (inject_Z (-128)) (inject_Z 127))
       100
       (snd (fst (quantize_zero_point 100 (- (1 # 3)) 2 (inject_Z (-128))
                                      (inject_Z 127))))
       (inject_Z (-128)) (inject_Z 127)
     == 0.
Proof.
  assert (H0 : 0 < 100) by reflexivity.
  assert (H1 : (-128 < 127)%Z) by reflexivity.
  split; [split; assumption |].
  pose proof (asym_zero_is_exact 100 (- (1 # 3)) 2 (-128) 127 H0 H1) as H.
  cbv zeta in H.
  destruct (quantize_zero_point 100 (- (1 # 3)) 2 (inject_Z (-128)) (inject_Z 127))
    as [[zp nmin] nmax].
  exact (proj2 (proj1 H)).
Defined.

(** X7. The asymmetric round trip built on [quantize_zero_point]: for a
    scale [s > 0] and bounds [q_min <= q_max], the reconstruction of every
    input lies in [[new_f_min, new_f_max]], and an input of that interval is
    reconstructed within [1 / (2 s)]. *)
Theorem asym_round_trip_bound (s f_min f_max q_min q_max x : Q) :
  0 < s -> q_min <= q_max ->
  let '(q_zero_point, new_f_min, new_f_max) :=
    quantize_zero_point s f_min f_max q_min q_max in
  let shift := new_f_min in
  let py3 := asym_dequantize (py3_asym_quantize x s shift q_min q_max)
                             s shift q_min q_max in
  let dpu := asym_dequantize (dpu_asym_quantize x s shift q_min q_max)
                             s shift q_min q_max in
  (new_f_min <= py3 /\ py3 <= new_f_max)
  /\ (new_f_min <= dpu /\ dpu <= new_f_max)
  /\ (new_f_min <= x /\ x <= new_f_max ->
      Qabs (py3 - x) <= 1 / (2 * s) /\ Qabs (dpu - x) <= 1 / (2 * s)).
Proof.
  intros Hs Hq.
  destruct (quantize_zero_point s f_min f_max q_min q_max) as [[zp nmin] nmax] eqn:E.
  assert (En : nmax == nmin + (q_max - q_min) / s).
  { unfold quantize_zero_point in E. injection E as E1 E2 E3.
    rewrite <- E2, <- E3. field. lra. }
  cbv zeta.
  destruct (asym_round_trip py3_round py3_round_nearest x s nmin q_min q_max Hs Hq)
    as [[P1 P2] P3].
  destruct (asym_round_trip dpu_round dpu_round_nearest x s nmin q_min q_max Hs Hq)
    as [[D1 D2] D3].
  rewrite En. unfold py3_asym_quantize, dpu_asym_quantize.
  split; [split; assumption | split; [split; assumption |]].
  intros [H1 H2]. split; [apply P3 | apply D3]; assumption.
Qed.

Lemma asym_round_trip_bound_witness :
  (0 < 100 /\ -128 <= 127)
  /\ snd (fst (quantize_zero_point 100 (- (1 # 3)) 2 (-128) 127))
     <= asym_dequantize
          (dpu_asym_quantize 5 100
             (snd (fst (quantize_zero_point 100 (- (1 # 3)) 2 (-128) 127)))
             (-128) 127)
          100 (snd (fst (quantize_zero_point 100 (- (1 # 3)) 2 (-128) 127)))
          (-128) 127.
Proof.
  assert (H0 : 0 < 100) by reflexivity.
  assert (H1 : -128 <= 127) by (intro E; discriminate E).
  split; [split; assumption |].
  pose proof (asym_round_trip_bound 100 (- (1 # 3)) 2 (-128) 127 5 H0 H1) as H.
  destruct (quantize_zero_point 100 (- (1 # 3)) 2 (-128) 127) as [[zp nmin] nmax].
  exact (proj1 (proj1 (proj2 H))).
Defined.

(** ** Range estimation *)

Lemma fold_left_Qmin_le (l : list Q) :
  forall a, fold_left Qmin l a <= a
            /\ Forall (fun x => fold_left Qmin l a <= x) l.
Proof.
  induction l as [| x r IH]; intro a; cbn [fold_left].
  - split; [apply Qle_refl | constructor].
  - destruct (IH (Qmin a x)) as [H1 H2].
    pose proof (Q.le_min_l a x). pose proof (Q.le_min_r a x).
    split; [lra |]. constructor; [lra | exact H2].
Qed.

Lemma fold_left_Qmax_ge (l : list Q) :
  forall a, a <= fold_left Qmax l a
            /\ Forall (fun x => x <= fold_left Qmax l a) l.
Proof.
  induction l as [| x r IH]; intro a; cbn [fold_left].
  - split; [apply Qle_refl | constructor].
  - destruct (IH (Qmax a x)) as [H1 H2].
    pose proof (Q.le_max_l a x). pose proof (Q.le_max_r a x).
    split; [lra |]. constructor; [lra | exact H2].
Qed.

(** The two reductions bracket every element of a non-empty list. *)
Lemma fold1_min_max_bracket (l : list Q) :
  l <> [] ->
  Forall (fun x => fold1 Qmin 0 l <= x /\ x <= fold1 Qmax 0 l) l
  /\ fold1 Qmin 0 l <= fold1 Qmax 0 l.
Proof.
  destruct l as [| a r]; [congruence |]. intros _. cbn [fold1].
  destruct (fold_left_Qmin_le r a) as [L1 L2].
  destruct (fold_left_Qmax_ge r a) as [U1 U2].
  split; [| lra].
  constructor; [split; assumption |].
  rewrite Forall_forall in *. intros x Hx. split; [apply L2 | apply U2]; exact Hx.
Qed.

Lemma shiftl_bound (bit_width : N) :
  (1 <= bit_width)%N ->
  inject_Z (Z.shiftl 1 (Z.of_N bit_width)) == 2 * 2 ^ (Z.of_N bit_width - 1).
Proof.
  intro Hb. rewrite Z.shiftl_1_l.
  rewrite (pow2_nonneg (Z.of_N bit_width - 1)) by lia.
  replace (Z.of_N bit_width) with (Z.succ (Z.of_N bit_width - 1)) at 1 by lia.
  rewrite Z.pow_succ_r by lia. rewrite inject_Z_mult. reflexivity.
Qed.

Lemma pow2_gt_1 (k : Z) : (1 <= k)%Z -> 1 < 2 ^ k.
Proof.
  intro Hk. rewrite (pow2_nonneg k) by lia.
  change 1 with (inject_Z 1). rewrite <- Zlt_Qlt.
  apply Z.pow_gt_1; lia.
Qed.

(** The per-tensor range of [get_min_max]. *)
Lemma get_min_max_per_tensor_range (inputs : Tensor) (bit_width : N)
    (symmetry : bool) (reduce_dims : option (list nat)) :
  data inputs <> [] -> (2 <= bit_width)%N ->
  exists range_min range_max : Q,
    get_min_max inputs bit_width symmetry false reduce_dims
    = (scalar range_min, scalar range_max)
    /\ Forall (fun x => range_min <= x /\ x <= range_max) (data inputs)
    /\ range_min <= 0 /\ 0 <= range_max
    /\ (symmetry = true ->
        range_max * fst (q_bounds bit_width) == range_min * snd (q_bounds bit_width)).
Proof.
  intros Hne Hb.
  destruct (fold1_min_max_bracket (data inputs) Hne) as [Hall Hmm].
  set (m := fold1 Qmin 0 (data inputs)) in *.
  set (M := fold1 Qmax 0 (data inputs)) in *.
  destruct symmetry.
  - set (K := 2 ^ (Z.of_N bit_width - 1)).
    assert (HK : 1 < K) by (apply pow2_gt_1; lia).
    set (r := - inject_Z (Z.shiftl 1 (Z.of_N bit_width) - 2)
              / inject_Z (Z.shiftl 1 (Z.of_N bit_width))).
    assert (Hr : r == - (K - 1) / K).
    { unfold r, Zminus. rewrite inject_Z_plus, (shiftl_bound bit_width) by lia.
      fold K. change (inject_Z (- (2))) with (- (2)). field. lra. }
    assert (Hrneg : r < 0).
    { rewrite Hr. setoid_replace (- (K - 1) / K) with (- ((K - 1) * / K)) by (field; lra).
      assert (0 < (K - 1) * / K).
      { apply Qmult_lt_0_compat; [lra | apply Qinv_lt_0_compat; lra]. }
      lra. }
    assert (HrK : r * K == - (K - 1)) by (rewrite Hr; field; lra).
    exists (Qmin m (M / r)), (Qmax M (m * r)).
    split; [reflexivity |].
    assert (Hdiv : M / r * r == M) by (field; lra).
    pose proof (Q.le_min_l m (M / r)) as A1. pose proof (Q.le_max_l M (m * r)) as A2.
    split.
    { rewrite Forall_forall in *. intros x Hx. destruct (Hall x Hx). split; lra. }
    assert (Hlo : Qmin m (M / r) <= 0).
    { destruct (Qlt_le_dec M 0) as [HM | HM]; [lra |].
      pose proof (Q.le_min_r m (M / r)).
      assert (M / r <= 0).
      { setoid_replace (M / r) with (- (M * / - r)) by (field; lra).
        assert (0 <= M * / - r).
        { apply Qmult_le_0_compat; [exact HM |].
          apply Qlt_le_weak, Qinv_lt_0_compat. lra. }
        lra. }
      lra. }
    assert (Hhi : 0 <= Qmax M (m * r)).
    { destruct (Qlt_le_dec 0 m) as [Hm | Hm]; [lra |].
      pose proof (Q.le_max_r M (m * r)). assert (0 <= m * r) by nra. lra. }
    split; [exact Hlo | split; [exact Hhi |]].
    intros _. unfold q_bounds, narrow_range. cbn [fst snd]. fold K.
    destruct (Q.min_spec m (M / r)) as [[H1 E1] | [H1 E1]];
      destruct (Q.max_spec M (m * r)) as [[H2 E2] | [H2 E2]];
      rewrite E1, E2.
    + nra.
    + exfalso. assert (M / r * r < m * r) by nra. lra.
    + exfalso. assert (m * r <= M / r * r) by nra. lra.
    + setoid_replace (M / r * (K - 1)) with (M / r * - (r * K)) by (rewrite HrK; ring).
      setoid_replace (M / r * - (r * K)) with (- (M / r * r) * K) by ring.
      rewrite Hdiv. ring.
  - exists (Qmin m 0), (Qmax M 0). split; [reflexivity |].
    pose proof (Q.le_min_l m 0). pose proof (Q.le_max_l M 0).
    split.
    { rewrite Forall_forall in *. intros x Hx. destruct (Hall x Hx). split; lra. }
    split; [apply Q.le_min_r | split; [apply Q.le_max_r |]].
    intro H'. discriminate H'.
Qed.

(** X8. On a non-empty tensor, per tensor, [get_min_max] returns a scalar
    range that contains every element and contains zero. With [symmetry]
    and a bit width of at least 2 the range uses the full integer range:
    [range_max / q_max = range_min / q_min], stated without division. *)
Theorem get_min_max_per_tensor (inputs : Tensor) (bit_width : N)
    (symmetry : bool) (reduce_dims : option (list nat)) :
  data inputs <> [] -> (2 <= bit_width)%N ->
  exists range_min range_max : Q,
    get_min_max inputs bit_width symmetry false reduce_dims
    = (scalar range_min, scalar range_max)
    /\ Forall (fun x => range_min <= x /\ x <= range_max) (data inputs)
    /\ range_min <= 0 /\ 0 <= range_max
    /\ (symmetry = true ->
        range_max * fst (q_bounds bit_width) == range_min * snd (q_bounds bit_width)).
Proof. exact (get_min_max_per_tensor_range inputs bit_width symmetry reduce_dims). Qed.

Lemma get_min_max_per_tensor_witness :
  (data (vec [-1; 1]) <> [] /\ (2 <= 8)%N)
  /\ exists range_min range_max : Q,
       get_min_max (vec [-1; 1]) 8 true false None
       = (scalar range_min, scalar range_max)
       /\ range_min <= 0 /\ 0 <= range_max.
Proof.
  assert (H0 : data (vec [-1; 1]) <> []) by (intro E; discriminate E).
  assert (H1 : (2 <= 8)%N) by (intro E; discriminate E).
  split; [split; assumption |].
  destruct (get_min_max_per_tensor (vec [-1; 1]) 8 true None H0 H1)
    as (lo & hi & E & _ & Hlo & Hhi & _).
  exists lo, hi. split; [exact E | split; assumption].
Defined.

(** ** The reduced axes *)

Lemma filter_all {A : Type} (f : A -> bool) (l : list A) :
  (forall x, In x l -> f x = true) -> filter f l = l.
Proof.
  induction l as [| a l IH]; intro H; [reflexivity |].
  cbn [filter]. rewrite (H a (or_introl eq_refl)). f_equal.
  apply IH. intros x Hx. apply H. right. exact Hx.
Qed.

Lemma filter_seq_remove (n a : nat) :
  (a < n)%nat ->
  filter (fun i => negb (Z.of_nat i =? Z.of_nat a)%Z) (seq 0 n)
  = seq 0 a ++ seq (S a) (n - S a).
Proof.
  intro Ha. replace n with (a + S (n - S a))%nat at 1 by lia.
  rewrite seq_app, filter_app. cbn [Nat.add seq filter].
  rewrite Z.eqb_refl. cbn [negb]. f_equal.
  - apply filter_all. intros x Hx. apply in_seq in Hx.
    apply negb_true_iff, Z.eqb_neq. lia.
  - apply filter_all. intros x Hx. apply in_seq in Hx.
    apply negb_true_iff, Z.eqb_neq. lia.
Qed.

(** X9. [get_reduce_dims] returns, in increasing order, every axis but the
    channel axis, a negative [channel_axis] counting from the last axis.
    When the channel axis is out of range no axis is left out, so a
    reduction over the result reduces the whole tensor. *)
Theorem get_reduce_dims_all_but_channel (input_shape : list nat) (channel_axis : Z) :
  let n := List.length input_shape in
  let axis := if (channel_axis <? 0)%Z then (Z.of_nat n + channel_axis)%Z
              else channel_axis in
  ((0 <= axis < Z.of_nat n)%Z ->
   get_reduce_dims input_shape channel_axis
   = seq 0 (Z.to_nat axis) ++ seq (S (Z.to_nat axis)) (n - S (Z.to_nat axis)))
  /\ (~ (0 <= axis < Z.of_nat n)%Z ->
      get_reduce_dims input_shape channel_axis = seq 0 n)
  /\ ((1 <= n)%nat -> get_reduce_dims input_shape (-1) = seq 0 (n - 1)).
Proof.
  intros n axis.
  assert (Hin : (0 <= axis < Z.of_nat n)%Z ->
                get_reduce_dims input_shape channel_axis
                = seq 0 (Z.to_nat axis) ++ seq (S (Z.to_nat axis)) (n - S (Z.to_nat axis))).
  { intro Hr. unfold get_reduce_dims. fold n. fold axis.
    rewrite <- (filter_seq_remove n (Z.to_nat axis)) by lia.
    rewrite Z2Nat.id by lia. reflexivity. }
  split; [exact Hin | split].
  - intro Hout. unfold get_reduce_dims. fold n. fold axis.
    apply filter_all. intros x Hx. apply in_seq in Hx.
    apply negb_true_iff, Z.eqb_neq. lia.
  - intro Hn. unfold get_reduce_dims. fold n.
    change (-1 <? 0)%Z with true. cbv iota.
    replace (Z.of_nat n + -1)%Z with (Z.of_nat (n - 1)) by lia.
    rewrite (filter_seq_remove n (n - 1)) by lia.
    replace (n - S (n - 1))%nat with 0%nat by lia.
    apply app_nil_r.
Qed.

Lemma get_reduce_dims_all_but_channel_witness :
  (0 <= 1 < Z.of_nat (List.length [2; 3; 4; 5]%nat))%Z
  /\ get_reduce_dims [2; 3; 4; 5]%nat 1 = [0; 2; 3]%nat.
Proof.
  assert (H : (0 <= 1 < Z.of_nat (List.length [2; 3; 4; 5]%nat))%Z) by (cbn; lia).
  split; [exact H |].
  exact (proj1 (get_reduce_dims_all_but_channel [2; 3; 4; 5]%nat 1) H).
Defined.

(** ** Position and threshold search *)

(** X10. On a symmetric configuration [get_quantize_pos] returns the
    non-overflow position for method 0; for method 1 with round mode 0 or 1
    it returns that position plus an offset of at most 4, the same for every
    channel; every other combination of method and round mode returns no
    position but the logger's error. *)
Theorem get_quantize_pos_sym_dispatch {D : Type} (inputs f_min f_max : Tensor)
    (bit_width : N) (method round_mode : Z) (per_channel : bool) (reduce_dims : D) :
  let non_overflow_pos :=
    tmap2 (fun lo hi =>
             get_quantize_pos_non_overflow_sym
               inputs lo hi (fst (q_bounds bit_width)) (snd (q_bounds bit_width))
               per_channel reduce_dims)
          f_min f_max in
  let result := get_quantize_pos inputs f_min f_max bit_width method round_mode
                                 per_channel reduce_dims true in
  (method = 0%Z -> result = inr non_overflow_pos)
  /\ (method = 1%Z -> round_mode = 0%Z \/ round_mode = 1%Z ->
      exists k, (k <= 4)%nat
                /\ result = inr (tmap (fun p => p + inject_Z (Z.of_nat k))
                                      non_overflow_pos))
  /\ (method <> 0%Z -> ~ (method = 1%Z /\ (round_mode = 0%Z \/ round_mode = 1%Z)) ->
      exists e, result = inl e).
Proof.
  intros nop result. unfold result, get_quantize_pos. cbn [negb].
  split; [| split].
  - intros ->. reflexivity.
  - intros -> Hr. cbn [Z.eqb andb].
    destruct Hr as [-> | ->]; cbn [Z.eqb].
    + destruct (min_diffs_loop py3_sym_quantize inputs nop
                  (fst (q_bounds bit_width)) (snd (q_bounds bit_width)))
        as [_ (Hk & _)].
      eexists. split; [| reflexivity]. apply Nat.lt_succ_r. exact Hk.
    + destruct (min_diffs_loop dpu_sym_quantize inputs nop
                  (fst (q_bounds bit_width)) (snd (q_bounds bit_width)))
        as [_ (Hk & _)].
      eexists. split; [| reflexivity]. apply Nat.lt_succ_r. exact Hk.
  - intros H0 H1.
    destruct (method =? 0)%Z eqn:E0; [apply Z.eqb_eq in E0; contradiction |].
    destruct (method =? 1)%Z eqn:E1.
    + apply Z.eqb_eq in E1.
      destruct (round_mode =? 0)%Z eqn:R0; [apply Z.eqb_eq in R0; tauto |].
      destruct (round_mode =? 1)%Z eqn:R1; [apply Z.eqb_eq in R1; tauto |].
      eexists. reflexivity.
    + eexists. reflexivity.
Qed.

Lemma get_quantize_pos_sym_dispatch_witness :
  (1%Z = 1%Z /\ (0%Z = 0%Z \/ 0%Z = 1%Z))
  /\ exists k, (k <= 4)%nat
       /\ get_quantize_pos (vec [1; -1; 1 # 3]) (scalar (- (256 # 254))) (scalar 1)
                           8 1 0 false tt true
          = inr (tmap (fun p => p + inject_Z (Z.of_nat k))
                      (tmap2 (fun lo hi =>
                                get_quantize_pos_non_overflow_sym
                                  (vec [1; -1; 1 # 3]) lo hi (fst (q_bounds 8))
                                  (snd (q_bounds 8)) false tt)
                             (scalar (- (256 # 254))) (scalar 1))).
Proof.
  split; [split; [reflexivity | left; reflexivity] |].
  exact (proj1 (proj2 (get_quantize_pos_sym_dispatch
                         (vec [1; -1; 1 # 3]) (scalar (- (256 # 254))) (scalar 1)
                         8 1 0 false tt))
               eq_refl (or_introl eq_refl)).
Defined.

(** X11. The asymmetric non-overflow position [p] makes the range fit the
    integer range: [(f_max - f_min) * 2 ^ p <= q_max - q_min]. Unless the
    machine epsilon took over it is the greatest such position. *)
Theorem non_overflow_asym_fits {I D : Type} (inputs : I) (f_min f_max q_min q_max : Q)
    (per_channel : bool) (reduce_dims : D) :
  q_min < q_max ->
  exists p : Z,
    get_quantize_pos_non_overflow_asym inputs f_min f_max q_min q_max
                                       per_channel reduce_dims = inject_Z p
    /\ (f_max - f_min) * 2 ^ p <= q_max - q_min
    /\ (TF.epsilon <= (f_max - f_min) / (q_max - q_min) ->
        q_max - q_min < (f_max - f_min) * 2 ^ (p + 1)).
Proof.
  intro Hq. unfold get_quantize_pos_non_overflow_asym.
  set (w := (f_max - f_min) / (q_max - q_min)).
  set (s := Qmax w TF.epsilon).
  assert (Hs : 0 < s).
  { pose proof epsilon_pos. pose proof (Q.le_max_r w TF.epsilon). fold s in H0. lra. }
  destruct (floor_neg_log2_spec s Hs) as [B1 B2].
  exists (TF.floor_neg_log2 s). split; [reflexivity |].
  set (p := TF.floor_neg_log2 s) in *.
  assert (HP : forall k, 0 < 2 ^ k) by (intro k; apply Qpower_0_lt; reflexivity).
  assert (Hw : f_max - f_min == w * (q_max - q_min)) by (unfold w; field; lra).
  assert (Hws : w <= s) by apply Q.le_max_l.
  split.
  - rewrite Hw. pose proof (HP p).
    assert (w * 2 ^ p <= s * 2 ^ p) by nra.
    assert (w * 2 ^ p * (q_max - q_min) <= 1 * (q_max - q_min)).
    { apply Qmult_le_compat_r; lra. }
    lra.
  - intro He.
    assert (Es : s == w).
    { unfold s. destruct (Q.max_spec w TF.epsilon) as [[H E] | [H E]]; lra. }
    rewrite Es in B2. rewrite Hw.
    assert (1 * (q_max - q_min) < 2 ^ (p + 1) * w * (q_max - q_min)).
    { apply Qmult_lt_compat_r; lra. }
    lra.
Qed.

Lemma non_overflow_asym_fits_witness :
  -128 < 127
  /\ exists p : Z,
       get_quantize_pos_non_overflow_asym tt 0 1 (-128) 127 false tt = inject_Z p
       /\ (1 - 0) * 2 ^ p <= 127 - -128.
Proof.
  assert (H : -128 < 127) by reflexivity.
  split; [exact H |].
  destruct (non_overflow_asym_fits tt 0 1 (-128) 127 false tt H) as (p & E & F & _).
  exists p. split; assumption.
Defined.

(** X12. With the log threshold that [get_log_th_non_overflow] computes for
    a range and a bit width of at least 2, the scale of the log-threshold
    kernels saturates no value of the range: the rounded scaled value lies
    within the integer bounds and the clip leaves it unchanged. *)
Theorem log_th_non_overflow_no_saturation {I : Type} (inputs : I)
    (f_min f_max : Q) (bit_width : N) :
  (2 <= bit_width)%N ->
  let q_min := fst (q_bounds bit_width) in
  let q_max := snd (q_bounds bit_width) in
  let log_th := get_log_th_non_overflow inputs f_min f_max q_min q_max in
  let quantize_pos := inject_Z (Z.of_N bit_width - 1 - ceil_log_th log_th) in
  let scale := TF.pow2 quantize_pos in
  forall x : Q, f_min <= x -> x <= f_max ->
    (q_min <= py3_round (x * scale) /\ py3_round (x * scale) <= q_max
     /\ py3_sym_quantize x scale q_min q_max == py3_round (x * scale))
    /\ (q_min <= dpu_round (x * scale) /\ dpu_round (x * scale) <= q_max
        /\ dpu_sym_quantize x scale q_min q_max == dpu_round (x * scale)).
Proof.
  intros Hb q_min q_max log_th quantize_pos scale x Hlo Hhi.
  set (kz := (2 ^ (Z.of_N bit_width - 1))%Z).
  set (K := 2 ^ (Z.of_N bit_width - 1)).
  assert (EK : K == inject_Z kz) by (apply pow2_nonneg; lia).
  assert (HK : 1 < K) by (apply pow2_gt_1; lia).
  assert (Eqmin : q_min == inject_Z (- kz)) by (rewrite inject_Z_opp, <- EK; reflexivity).
  assert (Eqmax : q_max == inject_Z (kz - 1)).
  { unfold Zminus. rewrite inject_Z_plus, <- EK. reflexivity. }
  assert (Eqmin' : q_min == - K) by reflexivity.
  assert (Eqmax' : q_max == K - 1) by reflexivity.
  set (th := Qmax (Qmax (Qabs f_min) (f_max * (- q_min / q_max))) (1 # 1000000000)).
  assert (Hth : 0 < th).
  { pose proof (Q.le_max_r (Qmax (Qabs f_min) (f_max * (- q_min / q_max)))
                           (1 # 1000000000)) as H.
    fold th in H. assert (0 < 1 # 1000000000) by reflexivity. lra. }
  assert (T1 : Qabs f_min <= th).
  { unfold th. eapply Qle_trans; [apply Q.le_max_l |]. apply Q.le_max_l. }
  assert (T2 : f_max * (- q_min / q_max) <= th).
  { unfold th. eapply Qle_trans; [apply Q.le_max_r |]. apply Q.le_max_l. }
  destruct (floor_neg_log2_spec th Hth) as [B1 _].
  set (p := TF.floor_neg_log2 th) in *.
  set (P := 2 ^ p) in *.
  assert (HP : 0 < P) by (apply Qpower_0_lt; reflexivity).
  assert (Escale : scale == K * P).
  { unfold scale, quantize_pos. rewrite pow2_inject.
    change (ceil_log_th log_th) with (- p)%Z.
    replace (Z.of_N bit_width - 1 - - p)%Z with ((Z.of_N bit_width - 1) + p)%Z by lia.
    apply Qpower_plus. intro H; discriminate H. }
  assert (Hfmin : - th <= f_min).
  { pose proof (Qle_Qabs (- f_min)) as H. rewrite Qabs_opp in H. lra. }
  assert (Hfmax : f_max * K <= th * (K - 1)).
  { assert (E : f_max * (- q_min / q_max) * (K - 1) == f_max * K).
    { rewrite Eqmin', Eqmax'. field. lra. }
    rewrite <- E. apply Qmult_le_compat_r; lra. }
  assert (G1 : q_min <= x * scale).
  { rewrite Escale, Eqmin'.
    assert (- (P * th) * K <= x * (K * P)).
    { setoid_replace (- (P * th) * K) with (- th * (K * P)) by ring.
      apply Qmult_le_compat_r; [lra | nra]. }
    assert (- K <= - (P * th) * K) by nra. lra. }
  assert (G2 : x * scale <= q_max).
  { rewrite Escale, Eqmax'.
    assert (x * (K * P) <= f_max * K * P).
    { setoid_replace (f_max * K * P) with (f_max * (K * P)) by ring.
      apply Qmult_le_compat_r; [lra | nra]. }
    assert (f_max * K * P <= th * (K - 1) * P).
    { apply Qmult_le_compat_r; lra. }
    assert (th * (K - 1) * P <= K - 1).
    { setoid_replace (th * (K - 1) * P) with ((P * th) * (K - 1)) by ring. nra. }
    lra. }
  assert (Hround : forall round, nearest round ->
            q_min <= round (x * scale) /\ round (x * scale) <= q_max
            /\ TF.clip_by_value (round (x * scale)) q_min q_max == round (x * scale)).
  { intros round Hr.
    assert (R1 : q_min <= round (x * scale)).
    { rewrite Eqmin. apply (nearest_ge_int round Hr). rewrite <- Eqmin. exact G1. }
    assert (R2 : round (x * scale) <= q_max).
    { rewrite Eqmax. apply (nearest_le_int round Hr). rewrite <- Eqmax. exact G2. }
    split; [exact R1 | split; [exact R2 |]]. apply clip_fixes; assumption. }
  split; apply Hround; auto with rounding.
Qed.

Lemma log_th_non_overflow_no_saturation_witness :
  (2 <= 8)%N
  /\ dpu_sym_quantize (1 # 3)
       (TF.pow2 (inject_Z (Z.of_N 8 - 1
                           - ceil_log_th (get_log_th_non_overflow
                                            tt (-1) 1 (fst (q_bounds 8))
                                            (snd (q_bounds 8))))))
       (fst (q_bounds 8)) (snd (q_bounds 8))
     == dpu_round ((1 # 3)
                   * TF.pow2 (inject_Z (Z.of_N 8 - 1
                                        - ceil_log_th (get_log_th_non_overflow
                                                         tt (-1) 1 (fst (q_bounds 8))
                                                         (snd (q_bounds 8)))))).
Proof.
  assert (H : (2 <= 8)%N) by (intro E; discriminate E).
  split; [exact H |].
  assert (H1 : -1 <= 1 # 3) by (intro E; discriminate E).
  assert (H2 : (1 # 3) <= 1) by (intro E; discriminate E).
  exact (proj2 (proj2 (proj2
           (log_th_non_overflow_no_saturation tt (-1) 1 8 H (1 # 3) H1 H2)))).
Defined.

(** ** The gradient of the min-max kernel *)

Lemma fold_left_Qplus (l : list Q) :
  forall a, fold_left Qplus l a == a + fold_right Qplus 0 l.
Proof.
  induction l as [| x r IH]; intro a; cbn [fold_left fold_right].
  - ring.
  - rewrite IH. ring.
Qed.

Lemma fold1_Qplus (l : list Q) : fold1 Qplus 0 l == fold_right Qplus 0 l.
Proof.
  destruct l as [| x r]; cbn [fold1 fold_right]; [reflexivity |].
  apply fold_left_Qplus.
Qed.

Lemma sum_three_ways (a b c d : nat -> Q) (l : list nat) :
  (forall k, In k l -> a k + b k + c k == d k) ->
  fold_right Qplus 0 (map a l) + fold_right Qplus 0 (map b l)
  + fold_right Qplus 0 (map c l)
  == fold_right Qplus 0 (map d l).
Proof.
  induction l as [| k l IH]; intro H; cbn [map fold_right]; [ring |].
  rewrite <- (H k (or_introl eq_refl)), <- IH
    by (intros j Hj; apply H; right; exact Hj).
  ring.
Qed.

(** X13. The backward rule of the symmetric min-max kernel loses no
    gradient: for vectors of equal length and a range [f_min <= f_max], the
    gradient passed to the input, summed, plus the gradients of [f_min] and
    [f_max] is the sum of the upstream gradient. *)
Theorem min_max_sym_gradient_conserved (bit_width : N) (xs dys : list Q)
    (f_min f_max : Q) :
  List.length xs = List.length dys -> f_min <= f_max ->
  exists (grad_wrt_inputs : Tensor) (grad_wrt_f_min grad_wrt_f_max : Q),
    snd (fake_quantize_with_min_max_py3_sym (vec xs) (scalar f_min) (scalar f_max)
                                            bit_width) (vec dys)
    = [Some grad_wrt_inputs; Some (scalar grad_wrt_f_min);
       Some (scalar grad_wrt_f_max); None]
    /\ fold1 Qplus 0 (data grad_wrt_inputs) + grad_wrt_f_min + grad_wrt_f_max
       == fold1 Qplus 0 dys.
Proof.
  intros Hlen Hle. do 3 eexists. split; [reflexivity |].
  cbn [masked tmap4 shape data vec]. unfold indices. cbn [data vec].
  rewrite !fold1_Qplus.
  assert (Hd : fold_right Qplus 0 dys
               = fold_right Qplus 0
                   (map (fun k => nth k dys 0) (seq 0 (List.length dys)))).
  { rewrite (map_seq_nth (fun x => x) dys), map_id. reflexivity. }
  rewrite Hd. apply sum_three_ways. intros k Hk. apply in_seq in Hk.
  rewrite !bget_scalar, (bget_vec xs _ k Hlen) by lia.
  unfold between_min_max, below_min, above_max, TF.Qltb.
  destruct (Qle_bool f_min (nth k xs 0)) eqn:E1;
    destruct (Qle_bool (nth k xs 0) f_max) eqn:E2; cbn [andb negb]; try ring.
  exfalso.
  destruct (Qlt_le_dec (nth k xs 0) f_min) as [H | H].
  - assert (H' : nth k xs 0 <= f_max) by lra.
    apply Qle_bool_iff in H'. congruence.
  - apply Qle_bool_iff in H. congruence.
Qed.

Lemma min_max_sym_gradient_conserved_witness :
  (List.length [-2; 0; 2] = List.length [1; 1; 1] /\ -1 <= 1)
  /\ exists (g : Tensor) (gmin gmax : Q),
       snd (fake_quantize_with_min_max_py3_sym (vec [-2; 0; 2]) (scalar (-1))
                                               (scalar 1) 8) (vec [1; 1; 1])
       = [Some g; Some (scalar gmin); Some (scalar gmax); None]
       /\ fold1 Qplus 0 (data g) + gmin + gmax == fold1 Qplus 0 [1; 1; 1].
Proof.
  assert (H0 : List.length [-2; 0; 2] = List.length [1; 1; 1]) by reflexivity.
  assert (H1 : -1 <= 1) by (intro E; discriminate E).
  split; [split; assumption |].
  exact (min_max_sym_gradient_conserved 8 [-2; 0; 2] [1; 1; 1] (-1) 1 H0 H1).
Defined.

(** ** The quantize operations as a state machine *)

(** The quantize-position kernels: round mode 0 in every variant, round mode
    1 per tensor only. *)
Lemma get_quantize_kernel_quantize_pos (round_mode : Z) (symmetry per_channel : bool) :
  get_quantize_kernel "QUANTIZE_POS" round_mode symmetry per_channel
  = if (round_mode =? 0)%Z then
      inr (match symmetry, per_channel with
           | true, false => QUANTIZE_POS_PY3_SYM
           | true, true => QUANTIZE_POS_PY3_SYM_PERC
           | false, false => QUANTIZE_POS_PY3_ASYM
           | false, true => QUANTIZE_POS_PY3_ASYM_PERC
           end)
    else if (round_mode =? 1)%Z then
      if per_channel then inl (ConfigurationError "Invalid quantize kernel")
      else inr (if symmetry then QUANTIZE_POS_DPU_SYM else QUANTIZE_POS_DPU_ASYM)
    else if (round_mode =? 2)%Z
         then inl (ConfigurationError "Invalid quantize kernel")
         else inl (ConfigurationError "Invalid round mode").
Proof.
  unfold get_quantize_kernel.
  destruct (round_mode =? 0)%Z; [destruct symmetry, per_channel; reflexivity |].
  destruct (round_mode =? 1)%Z; [destruct symmetry, per_channel; reflexivity |].
  destruct (round_mode =? 2)%Z; [destruct symmetry, per_channel; reflexivity |].
  reflexivity.
Qed.

Ltac run_op :=
  unfold bind, lift, assign, assign_moving_average, read, read_log_th, assign_log_th,
    ret, ok, get_var, set_var.

(** X14. In evaluation ([is_training] false, a mode that is neither ANALYSE
    nor QCB) none of the four quantize operations writes the store. *)
Theorem evaluation_leaves_store_unchanged (inputs : Tensor) (bit_width : N)
    (method round_mode : Z) (mode : string) (symmetry per_channel : bool)
    (channel_axis : Z) (ema_decay : Q) (s : Store) :
  mode <> "ANALYSE"%string -> mode <> "QCB"%string ->
  fst (LastValueMinMaxQuantize inputs bit_width round_mode mode false symmetry
                               per_channel channel_axis s) = s
  /\ fst (MovingAvgMinMaxQuantize inputs bit_width round_mode mode false per_channel
                                  channel_axis ema_decay s) = s
  /\ fst (LastValueQuantPosQuantize inputs bit_width method round_mode mode false
                                    symmetry per_channel channel_axis s) = s
  /\ fst (LastValueLogThQuantize inputs bit_width method round_mode mode false s) = s.
Proof.
  intros Ha Hq.
  unfold LastValueMinMaxQuantize, MovingAvgMinMaxQuantize, LastValueQuantPosQuantize,
    LastValueLogThQuantize.
  rewrite (mode_neq _ _ Ha), (mode_neq _ _ Hq). cbn [orb].
  repeat split.
  - run_op.
    destruct (get_quantize_kernel "MIN_MAX" round_mode symmetry per_channel);
      [reflexivity |].
    destruct per_channel; destruct_call; reflexivity.
  - run_op.
    destruct (get_quantize_kernel "MIN_MAX" round_mode false per_channel);
      [reflexivity |].
    destruct per_channel; destruct_call; reflexivity.
  - run_op.
    destruct (get_quantize_kernel "QUANTIZE_POS" round_mode symmetry per_channel);
      [reflexivity |].
    destruct per_channel, symmetry; destruct_call; reflexivity.
  - run_op.
    destruct (get_quantize_kernel "LOG_TH" round_mode true false); [reflexivity |].
    destruct_call; reflexivity.
Qed.

Lemma evaluation_leaves_store_unchanged_witness :
  ("QCBEV"%string <> "ANALYSE"%string /\ "QCBEV"%string <> "QCB"%string)
  /\ fst (LastValueQuantPosQuantize (vec [1]) 8 0 1 "QCBEV" false true false (-1)
                                    initial_store) = initial_store.
Proof.
  assert (H0 : "QCBEV"%string <> "ANALYSE"%string) by (intro E; discriminate E).
  assert (H1 : "QCBEV"%string <> "QCB"%string) by (intro E; discriminate E).
  split; [split; assumption |].
  exact (proj1 (proj2 (proj2
           (evaluation_leaves_store_unchanged (vec [1]) 8 0 1 "QCBEV" true false (-1)
                                              0 initial_store H0 H1)))).
Defined.

(** X15. A configuration without a kernel raises before anything is
    written, in every mode, ANALYSE included: the min-max operations for a
    round mode other than 0, the quantize-position operation for round mode
    1 per channel and for a round mode other than 0 and 1, the log-threshold
    operation for a round mode other than 0 and 1. *)
Theorem unsupported_configuration_raises_untouched (inputs : Tensor) (bit_width : N)
    (method round_mode : Z) (mode : string) (is_training symmetry per_channel : bool)
    (channel_axis : Z) (ema_decay : Q) (s : Store) :
  (round_mode <> 0%Z ->
   (exists e, LastValueMinMaxQuantize inputs bit_width round_mode mode is_training
                                      symmetry per_channel channel_axis s
              = (s, inl e))
   /\ (exists e, MovingAvgMinMaxQuantize inputs bit_width round_mode mode is_training
                                         per_channel channel_axis ema_decay s
                 = (s, inl e)))
  /\ ((round_mode = 1%Z /\ per_channel = true)
      \/ (round_mode <> 0%Z /\ round_mode <> 1%Z) ->
      exists e, LastValueQuantPosQuantize inputs bit_width method round_mode mode
                                          is_training symmetry per_channel
                                          channel_axis s
                = (s, inl e))
  /\ (round_mode <> 0%Z /\ round_mode <> 1%Z ->
      exists e, LastValueLogThQuantize inputs bit_width method round_mode mode
                                       is_training s
                = (s, inl e)).
Proof.
  unfold LastValueMinMaxQuantize, MovingAvgMinMaxQuantize, LastValueQuantPosQuantize,
    LastValueLogThQuantize.
  rewrite !get_quantize_kernel_min_max, get_quantize_kernel_quantize_pos,
    get_quantize_kernel_log_th.
  split; [| split].
  - intro H. apply Z.eqb_neq in H. rewrite H.
    destruct ((round_mode =? 1)%Z || (round_mode =? 2)%Z);
      split; eexists; reflexivity.
  - intros [[-> ->] | [H0 H1]].
    + eexists. reflexivity.
    + apply Z.eqb_neq in H0, H1. rewrite H0, H1.
      destruct (round_mode =? 2)%Z; eexists; reflexivity.
  - intros [H0 H1]. apply Z.eqb_neq in H0, H1. rewrite H0, H1.
    destruct (round_mode =? 2)%Z; eexists; reflexivity.
Qed.

Lemma unsupported_configuration_raises_untouched_witness :
  ((1%Z = 1%Z /\ true = true) \/ (1%Z <> 0%Z /\ 1%Z <> 1%Z))
  /\ exists e, LastValueQuantPosQuantize (vec [1]) 8 0 1 "ANALYSE" false true true
                                         (-1) initial_store
               = (initial_store, inl e).
Proof.
  assert (H : (1%Z = 1%Z /\ true = true) \/ (1%Z <> 0%Z /\ 1%Z <> 1%Z))
    by (left; split; reflexivity).
  split; [exact H |].
  exact (proj1 (proj2
           (unsupported_configuration_raises_untouched
              (vec [1]) 8 0 1 "ANALYSE" false true true (-1) 0 initial_store)) H).
Defined.

(** X16. After a calibration that returned a result, an evaluation on the
    same input returns the same result and leaves the store as the
    calibration left it; this holds for each of the four operations. *)
Theorem calibrate_then_evaluate_agree (inputs : Tensor) (bit_width : N)
    (method round_mode : Z) (mode : string) (is_training symmetry per_channel : bool)
    (channel_axis : Z) (ema_decay : Q) (s s1 : Store) (out : Tensor) :
  mode <> "ANALYSE"%string -> mode <> "QCB"%string ->
  (LastValueMinMaxQuantize inputs bit_width round_mode "QCB" is_training symmetry
                           per_channel channel_axis s = (s1, inr out) ->
   LastValueMinMaxQuantize inputs bit_width round_mode mode false symmetry
                           per_channel channel_axis s1 = (s1, inr out))
  /\ (MovingAvgMinMaxQuantize inputs bit_width round_mode "QCB" is_training
                              per_channel channel_axis ema_decay s = (s1, inr out) ->
      MovingAvgMinMaxQuantize inputs bit_width round_mode mode false per_channel
                              channel_axis ema_decay s1 = (s1, inr out))
  /\ (LastValueQuantPosQuantize inputs bit_width method round_mode "QCB" is_training
                                symmetry per_channel channel_axis s = (s1, inr out) ->
      LastValueQuantPosQuantize inputs bit_width method round_mode mode false
                                symmetry per_channel channel_axis s1 = (s1, inr out))
  /\ (LastValueLogThQuantize inputs bit_width method round_mode "QCB" is_training s
      = (s1, inr out) ->
      LastValueLogThQuantize inputs bit_width method round_mode mode false s1
      = (s1, inr out)).
Proof.
  intros Ha Hq.
  unfold LastValueMinMaxQuantize, MovingAvgMinMaxQuantize, LastValueQuantPosQuantize,
    LastValueLogThQuantize.
  rewrite (mode_neq _ _ Ha), (mode_neq _ _ Hq).
  change (String.eqb "QCB" "ANALYSE") with false.
  change (String.eqb "QCB" "QCB") with true.
  rewrite orb_true_r. cbn [orb].
  repeat split.
  - destruct (get_quantize_kernel "MIN_MAX" round_mode symmetry per_channel) as [e | k];
      [run_op; intro H; discriminate H |].
    destruct (get_min_max inputs bit_width symmetry per_channel _) as [lo hi].
    run_op. destruct per_channel; intro H; injection H as H1 H2; subst s1;
      cbn [value min_var max_var]; rewrite H2; reflexivity.
  - destruct (get_quantize_kernel "MIN_MAX" round_mode false per_channel) as [e | k];
      [run_op; intro H; discriminate H |].
    destruct (get_min_max inputs bit_width false per_channel _) as [lo hi].
    run_op. destruct per_channel; intro H; injection H as H1 H2; subst s1;
      cbn [value min_var max_var]; rewrite H2; reflexivity.
  - destruct (get_quantize_kernel "QUANTIZE_POS" round_mode symmetry per_channel)
      as [e | k]; [run_op; intro H; discriminate H |].
    destruct (get_min_max inputs bit_width symmetry per_channel _) as [lo hi].
    run_op.
    destruct (get_quantize_pos inputs lo hi bit_width method round_mode per_channel
                               channel_axis symmetry) as [e | p];
      [intro H; discriminate H |].
    destruct per_channel, symmetry; intro H; injection H as H1 H2; subst s1;
      cbn [value min_var max_var quant_pos_var]; rewrite H2; reflexivity.
  - destruct (get_quantize_kernel "LOG_TH" round_mode true false) as [e | k];
      [run_op; intro H; discriminate H |].
    destruct (get_min_max inputs bit_width true false None) as [lo hi].
    run_op.
    destruct (get_log_th inputs lo hi bit_width method) as [e | l];
      [intro H; discriminate H |].
    intro H; injection H as H1 H2; subst s1. cbn [log_th_var]. rewrite H2.
    reflexivity.
Qed.

Lemma calibrate_then_evaluate_agree_witness :
  ("QCBEV"%string <> "ANALYSE"%string /\ "QCBEV"%string <> "QCB"%string)
  /\ LastValueQuantPosQuantize
       (vec [1]) 8 0 1 "QCBEV" false true false (-1)
       (fst (LastValueQuantPosQuantize (vec [1]) 8 0 1 "QCB" false true false (-1)
                                       initial_store))
     = LastValueQuantPosQuantize (vec [1]) 8 0 1 "QCB" false true false (-1)
                                 initial_store.
Proof.
  assert (H0 : "QCBEV"%string <> "ANALYSE"%string) by (intro E; discriminate E).
  assert (H1 : "QCBEV"%string <> "QCB"%string) by (intro E; discriminate E).
  split; [split; assumption |].
  exact (proj1 (proj2 (proj2
           (calibrate_then_evaluate_agree
              (vec [1]) 8 0 1 "QCBEV" false true false (-1) 0 initial_store
              (fst (LastValueQuantPosQuantize (vec [1]) 8 0 1 "QCB" false true false
                                              (-1) initial_store))
              (mkTensor [1%nat] [64 # 64]) H0 H1))) eq_refl).
Defined.

Ltac norm_store :=
  cbn [fst snd value min_var max_var quant_pos_var log_th_var biased local_step].

(** X17. The three last-value operations depend on the last batch only: in
    every mode, running one again on the same input from the store it left
    reproduces that store and that result, errors included. *)
Theorem last_value_operations_idempotent (inputs : Tensor) (bit_width : N)
    (method round_mode : Z) (mode : string) (is_training symmetry per_channel : bool)
    (channel_axis : Z) (s : Store) :
  let min_max := LastValueMinMaxQuantize inputs bit_width round_mode mode is_training
                                         symmetry per_channel channel_axis in
  let quant_pos := LastValueQuantPosQuantize inputs bit_width method round_mode mode
                                             is_training symmetry per_channel
                                             channel_axis in
  let log_th := LastValueLogThQuantize inputs bit_width method round_mode mode
                                       is_training in
  min_max (fst (min_max s)) = min_max s
  /\ quant_pos (fst (quant_pos s)) = quant_pos s
  /\ log_th (fst (log_th s)) = log_th s.
Proof.
  cbv zeta.
  unfold LastValueMinMaxQuantize, LastValueQuantPosQuantize, LastValueLogThQuantize.
  repeat split.
  - destruct (get_quantize_kernel "MIN_MAX" round_mode symmetry per_channel) as [e | k];
      [reflexivity |].
    destruct (get_min_max inputs bit_width symmetry per_channel _) as [lo hi].
    run_op.
    destruct (String.eqb mode "ANALYSE"); [reflexivity |].
    destruct (is_training || String.eqb mode "QCB"), per_channel;
      norm_store; destruct_call; reflexivity.
  - destruct (get_quantize_kernel "QUANTIZE_POS" round_mode symmetry per_channel)
      as [e | k]; [reflexivity |].
    destruct (get_min_max inputs bit_width symmetry per_channel _) as [lo hi].
    run_op.
    destruct (String.eqb mode "ANALYSE"); [reflexivity |].
    destruct (is_training || String.eqb mode "QCB").
    + destruct (get_quantize_pos inputs lo hi bit_width method round_mode per_channel
                                 channel_axis symmetry) as [e | p] eqn:Ep;
        norm_store; rewrite ?Ep; [reflexivity |].
      destruct per_channel, symmetry; norm_store; rewrite ?Ep; destruct_call; norm_store; rewrite ?Ep;
        reflexivity.
    + destruct per_channel, symmetry; norm_store; destruct_call; reflexivity.
  - destruct (get_quantize_kernel "LOG_TH" round_mode true false) as [e | k];
      [reflexivity |].
    destruct (get_min_max inputs bit_width true false None) as [lo hi].
    run_op.
    destruct (String.eqb mode "ANALYSE"); [reflexivity |].
    destruct (is_training || String.eqb mode "QCB"); [| norm_store; destruct_call; reflexivity].
    destruct (String.eqb mode "QCB"); [| norm_store; destruct_call; reflexivity].
    destruct (get_log_th inputs lo hi bit_width method) as [e | l] eqn:El;
      norm_store; rewrite ?El; [reflexivity |].
    destruct_call; norm_store; rewrite ?El; reflexivity.
Qed.

(** X18. Each operation writes its own variables only. The min-max
    operations never write [quant_pos_var] or [log_th_var]; the
    quantize-position operation never writes [log_th_var]; the log-threshold
    operation never writes [quant_pos_var]; and in ANALYSE mode no operation
    writes [quant_pos_var] or [log_th_var]. *)
Theorem operations_write_only_their_variables (inputs : Tensor) (bit_width : N)
    (method round_mode : Z) (mode : string) (is_training symmetry per_channel : bool)
    (channel_axis : Z) (ema_decay : Q) (s : Store) :
  let min_max m := fst (LastValueMinMaxQuantize inputs bit_width round_mode m
                          is_training symmetry per_channel channel_axis s) in
  let moving_avg m := fst (MovingAvgMinMaxQuantize inputs bit_width round_mode m
                             is_training per_channel channel_axis ema_decay s) in
  let quant_pos m := fst (LastValueQuantPosQuantize inputs bit_width method round_mode
                            m is_training symmetry per_channel channel_axis s) in
  let log_th m := fst (LastValueLogThQuantize inputs bit_width method round_mode m
                         is_training s) in
  (quant_pos_var (min_max mode) = quant_pos_var s
   /\ log_th_var (min_max mode) = log_th_var s)
  /\ (quant_pos_var (moving_avg mode) = quant_pos_var s
      /\ log_th_var (moving_avg mode) = log_th_var s)
  /\ log_th_var (quant_pos mode) = log_th_var s
  /\ quant_pos_var (log_th mode) = quant_pos_var s
  /\ quant_pos_var (quant_pos "ANALYSE"%string) = quant_pos_var s
  /\ log_th_var (log_th "ANALYSE"%string) = log_th_var s.
Proof.
  cbv zeta.
  unfold LastValueMinMaxQuantize, MovingAvgMinMaxQuantize, LastValueQuantPosQuantize,
    LastValueLogThQuantize.
  change (String.eqb "ANALYSE" "ANALYSE") with true.
  split; [| split; [| split; [| split; [| split]]]].
  - destruct (get_quantize_kernel "MIN_MAX" round_mode symmetry per_channel) as [e | k];
      [split; reflexivity |].
    destruct (get_min_max inputs bit_width symmetry per_channel _) as [lo hi].
    run_op.
    destruct (String.eqb mode "ANALYSE"); [split; reflexivity |].
    destruct (is_training || String.eqb mode "QCB"), per_channel;
      destruct_call; split; reflexivity.
  - destruct (get_quantize_kernel "MIN_MAX" round_mode false per_channel) as [e | k];
      [split; reflexivity |].
    destruct (get_min_max inputs bit_width false per_channel _) as [lo hi].
    run_op.
    destruct (String.eqb mode "ANALYSE"); [split; reflexivity |].
    destruct (is_training || String.eqb mode "QCB"), per_channel;
      destruct_call; split; reflexivity.
  - destruct (get_quantize_kernel "QUANTIZE_POS" round_mode symmetry per_channel)
      as [e | k]; [reflexivity |].
    destruct (get_min_max inputs bit_width symmetry per_channel _) as [lo hi].
    run_op.
    destruct (String.eqb mode "ANALYSE"); [reflexivity |].
    destruct (is_training || String.eqb mode "QCB").
    + destruct (get_quantize_pos inputs lo hi bit_width method round_mode per_channel
                                 channel_axis symmetry) as [e | p]; [reflexivity |].
      destruct per_channel, symmetry; destruct_call; reflexivity.
    + destruct per_channel, symmetry; destruct_call; reflexivity.
  - destruct (get_quantize_kernel "LOG_TH" round_mode true false) as [e | k];
      [reflexivity |].
    destruct (get_min_max inputs bit_width true false None) as [lo hi].
    run_op.
    destruct (String.eqb mode "ANALYSE"); [reflexivity |].
    destruct (is_training || String.eqb mode "QCB"); [| destruct_call; reflexivity].
    destruct (String.eqb mode "QCB"); [| destruct_call; reflexivity].
    destruct (get_log_th inputs lo hi bit_width method) as [e | l]; [reflexivity |].
    destruct_call; reflexivity.
  - destruct (get_quantize_kernel "QUANTIZE_POS" round_mode symmetry per_channel)
      as [e | k]; [reflexivity |].
    destruct (get_min_max inputs bit_width symmetry per_channel _) as [lo hi].
    reflexivity.
  - destruct (get_quantize_kernel "LOG_TH" round_mode true false) as [e | k];
      [reflexivity |].
    destruct (get_min_max inputs bit_width true false None) as [lo hi].
    reflexivity.
Qed.

(** ** Shapes *)








(** X20. An unsupported search method is detected only after the range has
    been written. When the kernel exists, a calibration or training step of
    the symmetric quantize-position operation with a method other than 0 and
    1, and a calibration of the log-threshold operation with a method other
    than 0, raise; [min_var] and [max_var] already hold the batch range,
    [quant_pos_var] and [log_th_var] are as before. *)
Theorem unsupported_method_fails_after_range_update (inputs : Tensor) (bit_width : N)
    (method round_mode : Z) (mode : string) (is_training per_channel : bool)
    (channel_axis : Z) (s : Store) :
  let reduce_dims :=
    if per_channel then Some (get_reduce_dims (shape inputs) channel_axis) else None in
  let range := get_min_max inputs bit_width true per_channel reduce_dims in
  let range_log_th := get_min_max inputs bit_width true false None in
  (method <> 0%Z -> method <> 1%Z -> mode <> "ANALYSE"%string ->
   is_training || String.eqb mode "QCB" = true ->
   (exists k, get_quantize_kernel "QUANTIZE_POS" round_mode true per_channel = inr k) ->
   exists e,
     LastValueQuantPosQuantize inputs bit_width method round_mode mode is_training
                               true per_channel channel_axis s
     = (assign_range (fst range) (snd range) s, inl e))
  /\ (method <> 0%Z ->
      (exists k, get_quantize_kernel "LOG_TH" round_mode true false = inr k) ->
      exists e,
        LastValueLogThQuantize inputs bit_width method round_mode "QCB" is_training s
        = (assign_range (fst range_log_th) (snd range_log_th) s, inl e))
  /\ (forall lo hi,
        quant_pos_var (assign_range lo hi s) = quant_pos_var s
        /\ log_th_var (assign_range lo hi s) = log_th_var s).
Proof.
  intros reduce_dims range range_log_th. split; [| split].
  - intros H0 H1 Ha Hup [k Hk].
    unfold LastValueQuantPosQuantize. fold reduce_dims.
    rewrite Hk, (mode_neq _ _ Ha), Hup. fold range. destruct range as [lo hi].
    run_op. unfold get_quantize_pos. cbn [negb].
    apply Z.eqb_neq in H0, H1. rewrite H0, H1. cbn [andb].
    eexists. reflexivity.
  - intros H0 [k Hk]. unfold LastValueLogThQuantize.
    rewrite Hk. change (String.eqb "QCB" "ANALYSE") with false.
    change (String.eqb "QCB" "QCB") with true. rewrite orb_true_r.
    fold range_log_th. destruct range_log_th as [lo hi].
    run_op. unfold get_log_th. apply Z.eqb_neq in H0. rewrite H0.
    destruct (method =? 1)%Z; eexists; reflexivity.
  - intros lo hi. split; reflexivity.
Qed.

Lemma unsupported_method_fails_after_range_update_witness :
  (1%Z <> 0%Z
   /\ exists k, get_quantize_kernel "LOG_TH" 0 true false = inr k)
  /\ exists e,
       LastValueLogThQuantize (vec [-1; 1]) 8 1 0 "QCB" false initial_store
       = (assign_range (fst (get_min_max (vec [-1; 1]) 8 true false None))
                       (snd (get_min_max (vec [-1; 1]) 8 true false None))
                       initial_store, inl e).
Proof.
  assert (H0 : 1%Z <> 0%Z) by (intro E; discriminate E).
  assert (H1 : exists k, get_quantize_kernel "LOG_TH" 0 true false = inr k)
    by (eexists; reflexivity).
  split; [split; assumption |].
  exact (proj1 (proj2 (unsupported_method_fails_after_range_update
                         (vec [-1; 1]) 8 1 0 "QCB" false false (-1) initial_store))
               H0 H1).
Defined.

(** ** The quantize-position kernels on tensors *)

Lemma pow2_pos (p : Q) : 0 < TF.pow2 p.
Proof. unfold TF.pow2. apply Qpower_0_lt. reflexivity. Qed.

(** X21. The symmetric quantize-position kernels with one position for the
    whole tensor, at any bit width: every element of the result lies in
    [[q_min / scale, q_max / scale]] for [scale = 2 ^ position], and an
    input element of that interval is reproduced within [1 / (2 scale)]. *)
Theorem quantize_pos_sym_kernels_round_trip (inputs : Tensor) (quantize_pos : Q)
    (bit_width : N) (k : nat) :
  (k < List.length (data inputs))%nat ->
  let q_min := fst (q_bounds bit_width) in
  let q_max := snd (q_bounds bit_width) in
  let scale := TF.pow2 quantize_pos in
  let x := nth k (data inputs) 0 in
  let within (out : Tensor) :=
    let y := nth k (data out) 0 in
    (q_min / scale <= y /\ y <= q_max / scale)
    /\ (q_min / scale <= x /\ x <= q_max / scale -> Qabs (y - x) <= 1 / (2 * scale)) in
  within (fst (fake_quantize_with_quantize_pos_py3_sym inputs (scalar quantize_pos)
                                                       bit_width))
  /\ within (fst (fake_quantize_with_quantize_pos_dpu_sym inputs (scalar quantize_pos)
                                                          bit_width)).
Proof.
  intros Hk q_min q_max scale x within.
  pose proof (pow2_pos quantize_pos) as Hs. fold scale in Hs.
  pose proof (q_bounds_ordered bit_width) as Hq. fold q_min q_max in Hq.
  assert (Hi : 0 <= / scale) by (apply Qlt_le_weak, Qinv_lt_0_compat; exact Hs).
  assert (Hgen : forall round, nearest round ->
            within (tmap (fun v => sym_dequantize
                                     (TF.clip_by_value (round (v * scale)) q_min q_max)
                                     scale q_min q_max) inputs)).
  { intros round Hr. unfold within. cbn [tmap data].
    rewrite (nth_map_default _ _ _ Hk). fold x. split.
    - destruct (clip_in_range (round (x * scale)) q_min q_max Hq) as [C1 C2].
      unfold sym_dequantize, Qdiv.
      split; apply Qmult_le_compat_r; assumption.
    - intros [H1 H2]. apply sym_round_trip; assumption. }
  assert (Hk1 : forall q : Q -> Q -> Q -> Q -> Q,
            tmap2 (fun c s => sym_dequantize c s q_min q_max)
                  (tmap2 (fun v s => q v s q_min q_max) inputs (scalar scale))
                  (scalar scale)
            = tmap (fun v => sym_dequantize (q v scale q_min q_max) scale q_min q_max)
                   inputs).
  { intro q. rewrite !tmap2_scalar, tmap_tmap. reflexivity. }
  split.
  - change (fst (fake_quantize_with_quantize_pos_py3_sym inputs (scalar quantize_pos)
                                                         bit_width))
      with (tmap2 (fun c s => sym_dequantize c s q_min q_max)
                  (tmap2 (fun v s => py3_sym_quantize v s q_min q_max) inputs
                         (scalar scale))
                  (scalar scale)).
    rewrite (Hk1 py3_sym_quantize). apply (Hgen py3_round). auto with rounding.
  - change (fst (fake_quantize_with_quantize_pos_dpu_sym inputs (scalar quantize_pos)
                                                         bit_width))
      with (tmap2 (fun c s => sym_dequantize c s q_min q_max)
                  (tmap2 (fun v s => dpu_sym_quantize v s q_min q_max) inputs
                         (scalar scale))
                  (scalar scale)).
    rewrite (Hk1 dpu_sym_quantize). apply (Hgen dpu_round). auto with rounding.
Qed.

Lemma quantize_pos_sym_kernels_round_trip_witness :
  (1 < List.length (data (vec ([-2; 1 # 3; 5]%Q))))%nat
  /\ Qabs (nth 1 (data (fst (fake_quantize_with_quantize_pos_dpu_sym
                               (vec [-2; 1 # 3; 5]) (scalar 6) 8))) 0
           - (1 # 3))
     <= 1 / (2 * TF.pow2 6).
Proof.
  assert (H : (1 < List.length (data (vec ([-2; 1 # 3; 5]%Q))))%nat) by (cbn; lia).
  split; [exact H |].
  assert (H1 : fst (q_bounds 8) / TF.pow2 6 <= 1 # 3 /\ (1 # 3) <= snd (q_bounds 8) / TF.pow2 6)
    by (split; intro E; discriminate E).
  exact (proj2 (proj2 (quantize_pos_sym_kernels_round_trip
                         (vec [-2; 1 # 3; 5]) 6 8 1 H)) H1).
Defined.

(** ** The symmetric range and the scale it gives *)

(** X22. The symmetric per-tensor range of a non-empty tensor, when it is
    not reduced to a point, gives through [get_scale] a positive scale that
    maps its two ends onto the two integer bounds: [range_max] quantizes to
    [q_max] and [range_min] to [q_min], and both bounds dequantize back to
    the ends of the range. *)
Theorem symmetric_range_ends_on_bounds (inputs : Tensor) (bit_width : N)
    (reduce_dims : option (list nat)) (range_min range_max : Q) :
  data inputs <> [] -> (2 <= bit_width)%N ->
  get_min_max inputs bit_width true false reduce_dims
  = (scalar range_min, scalar range_max) ->
  range_min < range_max ->
  let q_min := fst (q_bounds bit_width) in
  let q_max := snd (q_bounds bit_width) in
  let scale := get_scale range_min range_max q_min q_max in
  0 < scale
  /\ py3_sym_quantize range_max scale q_min q_max == q_max
  /\ py3_sym_quantize range_min scale q_min q_max == q_min
  /\ sym_dequantize q_max scale q_min q_max == range_max
  /\ sym_dequantize q_min scale q_min q_max == range_min.
Proof.
  intros Hne Hb Hr Hlt q_min q_max scale.
  destruct (get_min_max_per_tensor_range inputs bit_width true reduce_dims Hne Hb)
    as (lo & hi & E & _ & _ & _ & Hfull).
  rewrite Hr in E. injection E as <- <-. specialize (Hfull eq_refl).
  fold q_min q_max in Hfull.
  set (kz := (2 ^ (Z.of_N bit_width - 1))%Z).
  set (K := 2 ^ (Z.of_N bit_width - 1)).
  assert (EK : K == inject_Z kz) by (apply pow2_nonneg; lia).
  assert (HK : 1 < K) by (apply pow2_gt_1; lia).
  assert (Eqmin' : q_min == - K) by reflexivity.
  assert (Eqmax' : q_max == K - 1) by reflexivity.
  assert (Eqmin : q_min == inject_Z (- kz)) by (rewrite inject_Z_opp, <- EK; reflexivity).
  assert (Eqmax : q_max == inject_Z (kz - 1)).
  { unfold Zminus. rewrite inject_Z_plus, <- EK. reflexivity. }
  assert (Hd : ~ range_max - range_min == 0) by lra.
  assert (Hs : 0 < scale).
  { unfold scale, get_scale, Qdiv. apply Qmult_lt_0_compat; [lra |].
    apply Qinv_lt_0_compat. lra. }
  assert (Hmax : range_max * scale == q_max).
  { unfold scale, get_scale.
    setoid_replace (range_max * ((q_max - q_min) / (range_max - range_min)))
      with (q_max + (range_min * q_max - range_max * q_min) / (range_max - range_min))
      by (field; exact Hd).
    rewrite Hfull. field. exact Hd. }
  assert (Hmin : range_min * scale == q_min).
  { unfold scale, get_scale.
    setoid_replace (range_min * ((q_max - q_min) / (range_max - range_min)))
      with (q_min + (range_min * q_max - range_max * q_min) / (range_max - range_min))
      by (field; exact Hd).
    rewrite Hfull. field. exact Hd. }
  assert (Hq : q_min <= q_max) by lra.
  split; [exact Hs | split; [| split; [| split]]].
  - unfold py3_sym_quantize.
    rewrite (nearest_fixes_int py3_round py3_round_nearest _ (kz - 1))
      by (rewrite Hmax; exact Eqmax).
    rewrite (clip_fixes (inject_Z (kz - 1)) q_min q_max) by lra. lra.
  - unfold py3_sym_quantize.
    rewrite (nearest_fixes_int py3_round py3_round_nearest _ (- kz))
      by (rewrite Hmin; exact Eqmin).
    rewrite (clip_fixes (inject_Z (- kz)) q_min q_max) by lra. lra.
  - unfold sym_dequantize. rewrite <- Hmax. field. lra.
  - unfold sym_dequantize. rewrite <- Hmin. field. lra.
Qed.

Lemma symmetric_range_ends_on_bounds_witness :
  (data (vec [-1; 1]) <> [] /\ (2 <= 8)%N /\ - (256 # 254) < 1)
  /\ py3_sym_quantize 1 (get_scale (- (256 # 254)) 1 (fst (q_bounds 8))
                                   (snd (q_bounds 8)))
                      (fst (q_bounds 8)) (snd (q_bounds 8))
     == snd (q_bounds 8).
Proof.
  assert (H0 : data (vec [-1; 1]) <> []) by (intro E; discriminate E).
  assert (H1 : (2 <= 8)%N) by (intro E; discriminate E).
  assert (H2 : - (256 # 254) < 1) by reflexivity.
  split; [split; [exact H0 | split; assumption] |].
  exact (proj1 (proj2 (symmetric_range_ends_on_bounds
                         (vec [-1; 1]) 8 None (- (256 # 254)) 1 H0 H1 eq_refl H2))).
Defined.

(** ** Min-diffs against non-overflow *)

Lemma pow2_compat (p q : Q) : p == q -> TF.pow2 p = TF.pow2 q.
Proof. intro H. unfold TF.pow2. rewrite (Qfloor_comp p q H). reflexivity. Qed.

(** X23. On a well-formed tensor and a per-tensor range, the position a
    min-diffs search returns never reconstructs worse than the non-overflow
    position: its sum of squared round-trip errors is at most the one at
    [non_overflow_pos]. *)
Theorem min_diffs_no_worse_than_non_overflow {D : Type} (inputs : Tensor)
    (f_min f_max q_min q_max : Q) (bit_width : N) (per_channel : bool)
    (reduce_dims : D) :
  well_formed inputs ->
  let p0 := get_quantize_pos_non_overflow_sym inputs f_min f_max q_min q_max
                                              per_channel reduce_dims in
  (exists p,
      get_quantize_pos_min_diffs_py3_sym inputs (scalar f_min) (scalar f_max)
                                         q_min q_max bit_width per_channel reduce_dims
      = scalar p
      /\ squared_error py3_sym_quantize (data inputs) (TF.pow2 p) q_min q_max
         <= squared_error py3_sym_quantize (data inputs) (TF.pow2 p0) q_min q_max)
  /\ (exists p,
         get_quantize_pos_min_diffs_dpu_sym inputs (scalar f_min) (scalar f_max)
                                            q_min q_max bit_width per_channel
                                            reduce_dims
         = scalar p
         /\ squared_error dpu_sym_quantize (data inputs) (TF.pow2 p) q_min q_max
            <= squared_error dpu_sym_quantize (data inputs) (TF.pow2 p0) q_min q_max).
Proof.
  intros Hwf p0.
  assert (H0 : TF.pow2 (p0 + inject_Z (Z.of_nat 0)) = TF.pow2 p0)
    by (apply pow2_compat; cbn; ring).
  split.
  - destruct (min_diffs_loop py3_sym_quantize inputs (scalar p0) q_min q_max)
      as [_ (Hk & Hmin & _)].
    eexists. split; [reflexivity |].
    specialize (Hmin 0%nat ltac:(lia)).
    rewrite !(min_diffs_diff_scalar _ _ _ _ _ _ Hwf), H0 in Hmin. exact Hmin.
  - destruct (min_diffs_loop dpu_sym_quantize inputs (scalar p0) q_min q_max)
      as [_ (Hk & Hmin & _)].
    eexists. split; [reflexivity |].
    specialize (Hmin 0%nat ltac:(lia)).
    rewrite !(min_diffs_diff_scalar _ _ _ _ _ _ Hwf), H0 in Hmin. exact Hmin.
Qed.

Lemma min_diffs_no_worse_than_non_overflow_witness :
  well_formed (vec [1; -1; 1 # 3])
  /\ exists p,
       get_quantize_pos_min_diffs_dpu_sym (vec [1; -1; 1 # 3]) (scalar (- (256 # 254)))
                                          (scalar 1) (-128) 127 8 false tt
       = scalar p
       /\ squared_error dpu_sym_quantize [1; -1; 1 # 3] (TF.pow2 p) (-128) 127
          <= squared_error dpu_sym_quantize [1; -1; 1 # 3]
               (TF.pow2 (get_quantize_pos_non_overflow_sym
                           (vec [1; -1; 1 # 3]) (- (256 # 254)) 1 (-128) 127 false tt))
               (-128) 127.
Proof.
  assert (Hwf : well_formed (vec [1; -1; 1 # 3])) by reflexivity.
  split; [exact Hwf |].
  exact (proj2 (min_diffs_no_worse_than_non_overflow
                  (vec [1; -1; 1 # 3]) (- (256 # 254)) 1 (-128) 127 8 false tt Hwf)).
Defined.

(** ** Per-channel ranges *)

Lemma Forall2_rev' {A B : Type} (R : A -> B -> Prop) (l1 : list A) (l2 : list B) :
  Forall2 R l1 l2 -> Forall2 R (rev l1) (rev l2).
Proof.
  induction 1 as [| x y l1 l2 Hxy _ IH]; cbn [rev]; [constructor |].
  apply Forall2_app; [exact IH | constructor; [exact Hxy | constructor]].
Qed.

Lemma keep_shape_compatible (sh : list nat) (axes : list nat) :
  Forall2 (fun d s => s = 1%nat \/ s = d) sh (keep_shape sh axes).
Proof.
  unfold keep_shape.
  assert (H : forall i,
            Forall2 (fun d s => s = 1%nat \/ s = d) sh
                    (map (fun id => if existsb (Nat.eqb (fst id)) axes
                                    then 1%nat else snd id)
                         (combine (seq i (List.length sh)) sh))).
  { induction sh as [| d sh IH]; intro i; cbn [List.length seq combine map];
      constructor; [| apply IH].
    cbn [fst snd]. destruct (existsb (Nat.eqb i) axes); auto. }
  apply H.
Qed.

(** The element that broadcasting picks exists. *)
Lemma bidx_lt (rin rst : list nat) :
  Forall2 (fun d s => s = 1%nat \/ s = d) rin rst ->
  forall k, (k < fold_right Nat.mul 1 rin)%nat ->
            (bidx rin rst k < fold_right Nat.mul 1 rst)%nat.
Proof.
  induction 1 as [| d s rin rst Hds _ IH]; intros k Hk; cbn [bidx fold_right] in *.
  - lia.
  - assert (Hd : (d <> 0)%nat) by (intro; subst; cbn in Hk; lia).
    assert (Hq : (k / d < fold_right Nat.mul 1 rin)%nat)
      by (apply Nat.Div0.div_lt_upper_bound; exact Hk).
    specialize (IH _ Hq).
    pose proof (Nat.mod_upper_bound k d Hd) as Hm.
    destruct Hds as [-> | ->].
    + cbn [Nat.eqb]. lia.
    + destruct (d =? 1)%nat; nia.
Qed.

Lemma in_combine_seq (l : list Q) (s k : nat) :
  (k < List.length l)%nat ->
  In ((s + k)%nat, nth k l 0) (combine (seq s (List.length l)) l).
Proof.
  revert s k. induction l as [| x l IH]; intros s k Hk; cbn [List.length] in Hk;
    [lia |].
  cbn [List.length seq combine nth]. destruct k as [| k].
  - left. f_equal. lia.
  - right. replace (s + S k)%nat with (S s + k)%nat by lia. apply IH. lia.
Qed.

Lemma fold1_bounds_member (l : list Q) (x : Q) :
  In x l -> fold1 Qmin 0 l <= x /\ x <= fold1 Qmax 0 l.
Proof.
  intro Hx. assert (Hne : l <> []) by (intro E; subst; contradiction).
  destruct (fold1_min_max_bracket l Hne) as [Hall _].
  rewrite Forall_forall in Hall. apply Hall. exact Hx.
Qed.

(** Broadcast back against the tensor it reduces, a [keepdims] reduction
    bounds every element. *)
Lemma reduce_axes_bounds (a : Tensor) (axes : option (list nat)) (k : nat) :
  well_formed a -> (k < List.length (data a))%nat ->
  let low := reduce_min_axes a axes in
  let high := reduce_max_axes a axes in
  (bidx (rev (shape a)) (rev (shape low)) k < List.length (data low))%nat
  /\ (bidx (rev (shape a)) (rev (shape high)) k < List.length (data high))%nat
  /\ bget low (shape a) k <= nth k (data a) 0
  /\ nth k (data a) 0 <= bget high (shape a) k.
Proof.
  intros Hwf Hk low high. unfold low, high, reduce_min_axes, reduce_max_axes,
    reduce_axes, bget. cbn [shape data].
  set (ax := match axes with Some l => l | None => seq 0 (List.length (shape a)) end).
  set (osh := keep_shape (shape a) ax).
  set (key := bidx (rev (shape a)) (rev osh)).
  assert (Hkey : (key k < fold_right Nat.mul 1 osh)%nat).
  { unfold key. rewrite <- (fold_mul_rev osh).
    apply bidx_lt.
    - apply Forall2_rev', keep_shape_compatible.
    - rewrite fold_mul_rev, <- Hwf. exact Hk. }
  rewrite !length_map, !length_seq.
  split; [exact Hkey | split; [exact Hkey |]].
  rewrite !(nth_map_seq _ _ _ Hkey).
  assert (Hin : In (nth k (data a) 0)
                   (map snd (filter (fun kx => (key (fst kx) =? key k)%nat)
                                    (combine (indices a) (data a))))).
  { apply in_map_iff. exists (k, nth k (data a) 0). split; [reflexivity |].
    apply filter_In. split.
    - exact (in_combine_seq (data a) 0 k Hk).
    - cbn [fst]. apply Nat.eqb_refl. }
  destruct (fold1_bounds_member _ _ Hin) as [H1 H2]. split; assumption.
Qed.

(** X24. Per channel, on a well-formed tensor of rank at least 2, the
    asymmetric range that [get_min_max] returns, broadcast back against the
    tensor, brackets every element and contains zero at every position,
    whatever the reduced axes. *)
Theorem per_channel_range_covers_elements (inputs : Tensor) (bit_width : N)
    (reduce_dims : option (list nat)) (k : nat) :
  well_formed inputs -> (2 <= List.length (shape inputs))%nat ->
  (k < List.length (data inputs))%nat ->
  let range := get_min_max inputs bit_width false true reduce_dims in
  let range_min := bget (fst range) (shape inputs) k in
  let range_max := bget (snd range) (shape inputs) k in
  (range_min <= nth k (data inputs) 0 /\ nth k (data inputs) 0 <= range_max)
  /\ (range_min <= 0 /\ 0 <= range_max).
Proof.
  intros Hwf Hrank Hk range range_min range_max.
  destruct (reduce_axes_bounds inputs reduce_dims k Hwf Hk) as (I1 & I2 & B1 & B2).
  unfold range_min, range_max, range, get_min_max.
  apply Nat.leb_le in Hrank. rewrite Hrank. cbn [fst snd].
  unfold bget in *. cbn [tmap shape data].
  rewrite !nth_map_default by assumption.
  pose proof (Q.le_min_l (nth (bidx (rev (shape inputs))
                                    (rev (shape (reduce_min_axes inputs reduce_dims))) k)
                              (data (reduce_min_axes inputs reduce_dims)) 0) 0).
  pose proof (Q.le_max_l (nth (bidx (rev (shape inputs))
                                    (rev (shape (reduce_max_axes inputs reduce_dims))) k)
                              (data (reduce_max_axes inputs reduce_dims)) 0) 0).
  split; [split; lra | split; [apply Q.le_min_r | apply Q.le_max_r]].
Qed.

Lemma per_channel_range_covers_elements_witness :
  (well_formed (mkTensor [2; 2]%nat ([-1; 1; 3; 5]%Q))
   /\ (2 <= List.length (shape (mkTensor [2; 2]%nat ([-1; 1; 3; 5]%Q))))%nat
   /\ (3 < List.length (data (mkTensor [2; 2]%nat ([-1; 1; 3; 5]%Q))))%nat)
  /\ nth 3 (data (mkTensor [2; 2]%nat ([-1; 1; 3; 5]%Q))) 0
     <= bget (snd (get_min_max (mkTensor [2; 2]%nat ([-1; 1; 3; 5]%Q)) 8 false true
                               (Some [0%nat])))
             [2; 2]%nat 3.
Proof.
  assert (H0 : well_formed (mkTensor [2; 2]%nat ([-1; 1; 3; 5]%Q))) by reflexivity.
  assert (H1 : (2 <= List.length (shape (mkTensor [2; 2]%nat ([-1; 1; 3; 5]%Q))))%nat)
    by (cbn; lia).
  assert (H2 : (3 < List.length (data (mkTensor [2; 2]%nat ([-1; 1; 3; 5]%Q))))%nat)
    by (cbn; lia).
  split; [split; [exact H0 | split; assumption] |].
  exact (proj2 (proj1 (per_channel_range_covers_elements
                         (mkTensor [2; 2]%nat ([-1; 1; 3; 5]%Q)) 8 (Some [0%nat]) 3
                         H0 H1 H2))).
Defined.
